(** * primecount: bit sieve, counters, PiTable and the parallel LMO driver

    A shallow embedding of the parts of primecount that the specification
    talks about: [BitSieve.cpp], [PiTable.cpp] and [pi_lmo_parallel3.cpp].

    Conventions.
    - A [uint64_t] or [int64_t] is a [Z]; where the source relies on the
      word size (shifts that drop bits, bitwise negation) the truncation is
      written out with [u64].  Signed overflow is undefined in the source;
      the theorems on [int64_t] arithmetic that could overflow keep it
      within [INT64_MAX].
    - A finite [double] is the rational it denotes; an operation on doubles
      rounds its exact result with [round_double].
    - A [std::vector] is a [list]; [v[i]] is [v @ i].  Reading outside the
      vector is undefined in the source; the model reads [0] there, and the
      theorems that depend on a read keep the index in range.
    - A loop with a fixed stride is a fold over its index range; a loop
      that never ends in the source has no result ([None]) in the model. *)

From Stdlib Require Import ZArith List Lia Bool QArith.
From stdpp Require Import base list option.
Import ListNotations.
Local Open Scope Z_scope.

(** ** Machine words and loops *)

Definition u64 (z : Z) : Z := z mod 2 ^ 64.

Definition ones64 : Z := 0xFFFFFFFFFFFFFFFF.

Definition INT64_MAX : Z := 2 ^ 63 - 1.

(** [~w] on a 64-bit word. *)
Definition not64 (w : Z) : Z := Z.lxor w ones64.

(** [v[i]] *)
Definition vget (v : list Z) (i : Z) : Z := nth (Z.to_nat i) v 0.
Notation "v @ i" := (vget v i) (at level 9, i at level 9, format "v @ i").

(** [v[i] = x] *)
Definition vset (v : list Z) (i : Z) (x : Z) : list Z := <[Z.to_nat i := x]> v.

(** [for (i = lo; i < hi; i++) a = body(i, a)] *)
Fixpoint for_up {A : Type} (n : nat) (i : Z) (body : Z -> A -> A) (a : A) : A :=
  match n with
  | O => a
  | S n' => for_up n' (i + 1) body (body i a)
  end.

Definition for_range {A : Type} (lo hi : Z) (body : Z -> A -> A) (a : A) : A :=
  for_up (Z.to_nat (hi - lo)) lo body a.

(** Number of [i] in [lo, lo + n) with [f i]. *)
Fixpoint count_from (f : Z -> bool) (lo : Z) (n : nat) : Z :=
  match n with
  | O => 0
  | S n' => Z.b2z (f lo) + count_from f (lo + 1) n'
  end.

(** Number of [i] in the inclusive range [a, b] with [f i]. *)
Definition count_between (f : Z -> bool) (a b : Z) : Z :=
  count_from f a (Z.to_nat (b + 1 - a)).

(** [for (i = hi; i > lo; i--) a = body(i, a)] *)
Fixpoint for_down {A : Type} (n : nat) (i : Z) (body : Z -> A -> A) (a : A) : A :=
  match n with
  | O => a
  | S n' => for_down n' (i - 1) body (body i a)
  end.

Definition for_range_down {A : Type} (hi lo : Z) (body : Z -> A -> A) (a : A) : A :=
  for_down (Z.to_nat (hi - lo)) hi body a.

(** [for (k = k0; k < hi; k += step) a = body(k, a)], with the final [k].
    The trip count of a loop with a positive stride is fixed on entry; with
    a stride that is not positive the loop never leaves once entered. *)
Fixpoint stride_up {A : Type} (n : nat) (k step : Z) (body : Z -> A -> A) (a : A)
  : Z * A :=
  match n with
  | O => (k, a)
  | S n' => stride_up n' (k + step) step body (body k a)
  end.

Definition for_stride {A : Type} (k0 hi step : Z) (body : Z -> A -> A) (a : A)
  : option (Z * A) :=
  if hi <=? k0 then Some (k0, a)
  else if step <=? 0 then None
  else Some (stride_up (Z.to_nat ((hi - k0 + step - 1) / step)) k0 step body a).

(** [for (; b < hi; b++) body], where the body may run forever ([None]) or
    jump out of the loop ([true], the [goto] of the source); the result
    carries the final [b] and whether the loop was left by a jump. *)
Fixpoint for_jump {A : Type} (n : nat) (b : Z)
    (body : Z -> A -> option (A * bool)) (a : A) : option (Z * A * bool) :=
  match n with
  | O => Some (b, a, false)
  | S n' =>
      match body b a with
      | None => None
      | Some (a', true) => Some (b, a', true)
      | Some (a', false) => for_jump n' (b + 1) body a'
      end
  end.

Definition for_lt_jump {A : Type} (b hi : Z)
    (body : Z -> A -> option (A * bool)) (a : A) : option (Z * A * bool) :=
  for_jump (Z.to_nat (hi - b)) b body a.

(** The integers [lo, lo + 1, ..., hi - 1]. *)
Definition zrange (lo hi : Z) : list Z :=
  map (fun i => lo + Z.of_nat i) (seq 0 (Z.to_nat (hi - lo))).

Definition zsum (l : list Z) : Z := fold_right Z.add 0 l.

(** Modelled from the spec: [ceil_div] of pmath.hpp, which is not among the
    sources; the quotient rounded up. *)
Definition ceil_div (a b : Z) : Z := (a + b - 1) / b.

(** Modelled from the spec: [popcount64] of popcount.hpp, which is not among
    the sources; the number of 1 bits of a 64-bit word. *)
Definition popcount64 (w : Z) : Z := count_from (Z.testbit w) 0 64.

(** ** BitSieve.cpp *)

Module BitSieve.

Record t : Type := mk { bits_ : list Z; size_ : Z }.

(** [unset_bit_[64]]: entry [k] is [~(1 << k)]. *)
Definition unset_bit_ : list Z :=
  map (fun k => not64 (Z.shiftl 1 (Z.of_nat k))) (seq 0 64).

(** [BitSieve::BitSieve(size)]: zero-initialised words. *)
Definition make (size : Z) : t :=
  mk (repeat 0 (Z.to_nat (ceil_div size 64))) size.

Definition size (s : t) : Z := size_ s.

(** Modelled from the spec: [operator[]] and [unset] live in BitSieve.hpp,
    which is not among the sources; bit [pos] is bit [pos & 63] of word
    [pos >> 6], and [unset] clears it through [unset_bit_]. *)
Definition test (s : t) (pos : Z) : bool :=
  Z.testbit (bits_ s)@(Z.shiftr pos 6) (Z.land pos 63).

Definition unset (s : t) (pos : Z) : t :=
  mk (vset (bits_ s) (Z.shiftr pos 6)
        (Z.land (bits_ s)@(Z.shiftr pos 6) unset_bit_@(Z.land pos 63)))
     (size_ s).

(** [BitSieve::memset(low)] *)
Definition memset (s : t) (low : Z) : t :=
  let pattern :=
    if Z.land low 1 =? 0 then 0xAAAAAAAAAAAAAAAA else 0x5555555555555555 in
  let bits := map (fun _ => pattern) (bits_ s) in
  if low <=? 2 then
    let bit := Z.shiftl 1 (2 - low) in
    let w0 := Z.land bits@0 (not64 (bit - 1)) in
    mk (vset bits 0 (Z.lor w0 bit)) (size_ s)
  else mk bits (size_ s).

(** [BitSieve::count_edges(start, stop)] *)
Definition count_edges (s : t) (start stop : Z) : Z :=
  let index1 := Z.shiftr start 6 in
  let index2 := Z.shiftr stop 6 in
  let mask1 := u64 (Z.shiftl ones64 (Z.land start 63)) in
  let mask2 := Z.shiftr ones64 (63 - Z.land stop 63) in
  if index1 =? index2 then
    popcount64 (Z.land (bits_ s)@index1 (Z.land mask1 mask2))
  else
    popcount64 (Z.land (bits_ s)@index1 mask1)
    + popcount64 (Z.land (bits_ s)@index2 mask2).

(** [BitSieve::count(start, stop)] *)
Definition count (s : t) (start stop : Z) : Z :=
  if start >? stop then 0
  else
    let bit_count := count_edges s start stop in
    let start_idx := Z.shiftr start 6 + 1 in
    let limit := Z.shiftr stop 6 in
    for_range start_idx limit
      (fun i bit_count => bit_count + popcount64 (bits_ s)@i) bit_count.

(** A sieve has the words the constructor gave it: [ceil_div size 64]. *)
Definition wf (s : t) : Prop :=
  0 <= size_ s /\ Z.of_nat (length (bits_ s)) = ceil_div (size_ s) 64.

(** Number of 1 bits at the positions of the inclusive range [a, b]. *)
Definition ones_between (s : t) (a b : Z) : Z := count_between (test s) a b.

End BitSieve.


(** ** Primes *)

(** [n] is prime: at least 2 and without a divisor [d] with [d * d <= n]. *)
Definition is_prime (n : Z) : bool :=
  (2 <=? n) && forallb (fun d => negb (n mod d =? 0)) (zrange 2 (Z.sqrt n + 1)).

(** The number of primes [<= n]. *)
Definition prime_pi (n : Z) : Z := count_between is_prime 2 n.

(** ** double *)

(** An operation on doubles rounds its exact result to the nearest double,
    and to the even significand on a tie (IEEE 754 binary64, the default
    rounding): [round_double q] keeps the 53 leading bits of [q], or the
    bits down to [2^-1074] when [q] is below the normal range.  Infinities
    are not modelled: the values rounded here stay far below [2^1024]. *)
Definition round_double (q : Q) : Q :=
  let n := Z.abs (Qnum q) in
  let d := Z.pos (Qden q) in
  if n =? 0 then 0%Q
  else
    (* the binary exponent of q: 2^k <= n / d < 2^(k + 1) *)
    let k := Z.log2 n - Z.log2 d in
    let k := if d * 2 ^ Z.max k 0 <=? n * 2 ^ Z.max (- k) 0 then k else k - 1 in
    (* the last place kept: 2^e *)
    let e := Z.max (k - 52) (-1074) in
    (* n / d = (num / den) * 2^e, rounded to an integer, ties to even *)
    let num := n * 2 ^ Z.max (- e) 0 in
    let den := d * 2 ^ Z.max e 0 in
    let f := num / den in
    let r := num mod den in
    let m := if 2 * r <? den then f
             else if den <? 2 * r then f + 1
             else if Z.even f then f else f + 1 in
    Qmake (Z.sgn (Qnum q) * m * 2 ^ Z.max e 0) (Z.to_pos (2 ^ Z.max (- e) 0)).

(** [(double) n] at an integer [n] *)
Definition to_double (n : Z) : Q := round_double (inject_Z n).

(** [a * b] on doubles *)
Definition fmul (a b : Q) : Q := round_double (a * b)%Q.

(** ** pmath.hpp and friends *)

(** Modelled from the spec: the helpers of pmath.hpp and utils.hpp, which
    are not among the sources: the integer square root, the clamp
    [in_between(min, x, max)], the least power of two that is at least [x],
    the table [pi[n]] of prime counts for [n <= y], and the number of
    entries of [primes[1..]] that are at most [v]. *)
Definition isqrt (x : Z) : Z := Z.sqrt x.

Definition in_between (min x max : Z) : Z :=
  if x <? min then min else if x >? max then max else x.

Definition next_power_of_2 (x : Z) : Z :=
  if x <=? 1 then 1 else 2 ^ Z.log2_up x.

Definition make_pi (y : Z) : list Z := map prime_pi (zrange 0 (y + 1)).

(** Modelled from the spec: [iroot<N>(x)] of pmath.hpp, the integer [N]-th
    root (for [N >= 2] it is at most the square root). *)
Definition iroot (N x : Z) : Z :=
  Z.of_nat (length (List.filter (fun r => r ^ N <=? x) (zrange 1 (Z.sqrt x + 1)))).

(** Modelled from the spec: [PhiTiny::MAX_A] of PhiTiny.hpp, the largest
    [a] that the tiny wheel handles. *)
Definition PhiTiny_MAX_A : Z := 7.

(** Modelled from the spec: [primesieve::generate_primes(y, &primes)]
    appends the primes up to [y] in increasing order. *)
Definition generate_primes (y : Z) (primes : list Z) : list Z :=
  primes ++ List.filter is_prime (zrange 2 (y + 1)).

Definition pi_bsearch (primes : list Z) (v : Z) : Z :=
  Z.of_nat (length (List.filter (fun p => p <=? v) (tl primes))).

(** ** tos_counters.hpp *)

Module TosCounters.

(** Modelled from the spec: tos_counters.hpp is not among the sources.  The
    segment is cut into blocks of width [w], about the square root of the
    segment size; counter [j] holds the number of 1 bits of block [j].
    [cnt_finit] recounts every block, [cnt_update] takes one off the block
    of the position, and [cnt_query] adds the counters of the blocks before
    the block of the position to the 1 bits of that block up to the
    position.  The query reads the bits of one block, so it takes the sieve
    as well. *)
Definition block_width (segment_size : Z) : Z := Z.max 1 (isqrt segment_size).

Definition cnt_finit (sieve : BitSieve.t) (counters : list Z) (segment_size : Z)
  : list Z :=
  let w := block_width segment_size in
  for_range 0 (ceil_div segment_size w)
    (fun j counters =>
       vset counters j
         (BitSieve.count sieve (j * w) (Z.min ((j + 1) * w) segment_size - 1)))
    counters.

Definition cnt_update (counters : list Z) (pos segment_size : Z) : list Z :=
  let j := pos / block_width segment_size in
  vset counters j (counters@j - 1).

Definition cnt_query (sieve : BitSieve.t) (counters : list Z) (pos : Z) : Z :=
  let w := block_width (BitSieve.size sieve) in
  let j := pos / w in
  for_range 0 j (fun i sum => sum + counters@i) 0
  + BitSieve.count sieve (j * w) pos.

End TosCounters.

(** ** pi_lmo_parallel3.cpp *)

Module Lmo.

Import TosCounters.

(** [init_next_multiples(next, primes, size, low)]: the vector [next] it
    builds. *)
Definition init_next_multiples (primes : list Z) (size low : Z) : list Z :=
  for_range 1 size
    (fun b next =>
       let prime := primes@b in
       let next_multiple := ((low + prime - 1) ÷ prime) * prime in
       let next_multiple :=
         next_multiple + prime * Z.land (Z.lnot next_multiple) 1 in
       next ++ [next_multiple])
    [0].

(** [cross_off(prime, low, high, next_multiple, sieve, counters)]: the new
    [next_multiple], sieve and counters. *)
Definition cross_off (prime low high next_multiple : Z)
    (sieve : BitSieve.t) (counters : list Z) : option (Z * BitSieve.t * list Z) :=
  let segment_size := BitSieve.size sieve in
  '(k, (sieve, counters)) ←
    for_stride next_multiple high (prime * 2)
      (fun k '(sieve, counters) =>
         if BitSieve.test sieve (k - low) then
           (BitSieve.unset sieve (k - low),
            cnt_update counters (k - low) segment_size)
         else (sieve, counters))
      (sieve, counters);
  Some (k, sieve, counters).

(** What one call of [S2_thread] owns. *)
Record thread_state : Type := mk_thread {
  sieve : BitSieve.t;
  counters : list Z;
  next : list Z;
  phi : list Z;
  mu_sum : list Z;
  S2_sum : Z
}.

Section S2_thread.

Variables (x y c pi_sqrty pi_y segment_size : Z).
Variables (pi primes lpf mu : list Z).

(** Body of the loop over [b <= c]: the multiples of the first [c] primes
    are sieved out without counting. *)
Definition sieve_out (low high b : Z) (st : thread_state)
  : option (thread_state * bool) :=
  '(k, sv) ←
    for_stride (next st)@b high (primes@b * 2)
      (fun k sv => BitSieve.unset sv (k - low)) (sieve st);
  Some (mk_thread sv (counters st) (vset (next st) b k)
          (phi st) (mu_sum st) (S2_sum st), false).

(** Body of the loop over [c + 1 <= b < pi_sqrty]. *)
Definition leaves_below_sqrty (low high b : Z) (st : thread_state)
  : option (thread_state * bool) :=
  let prime := primes@b in
  let min_m := Z.max (x ÷ (prime * high)) (y ÷ prime) in
  let max_m := Z.min (x ÷ (prime * low)) y in
  if prime >=? max_m then Some (st, true)
  else
    let '(S2_sum', mu_sum') :=
      for_range_down max_m min_m
        (fun m '(S2_sum', mu_sum') =>
           if negb (mu@m =? 0) && (prime <? lpf@m) then
             let n := prime * m in
             let count := cnt_query (sieve st) (counters st) (x ÷ n - low) in
             let phi_xn := (phi st)@b + count in
             (S2_sum' - mu@m * phi_xn, vset mu_sum' b (mu_sum'@b - mu@m))
           else (S2_sum', mu_sum'))
        (S2_sum st, mu_sum st) in
    let phi' :=
      vset (phi st) b
        ((phi st)@b + cnt_query (sieve st) (counters st) (high - 1 - low)) in
    '(k, sv, cnt) ←
      cross_off prime low high (next st)@b (sieve st) (counters st);
    Some (mk_thread sv cnt (vset (next st) b k) phi' mu_sum' S2_sum', false).

(** Body of the loop over [pi_sqrty <= b < pi_y]. *)
Definition leaves_from_sqrty (low high b : Z) (st : thread_state)
  : option (thread_state * bool) :=
  let prime := primes@b in
  let l := pi@(Z.min (x ÷ (prime * low)) y) in
  let min_m := Z.max (x ÷ (prime * high)) (y ÷ prime) in
  let min_m := in_between prime min_m y in
  let min_l := pi@min_m in
  if prime >=? primes@l then Some (st, true)
  else
    let '(S2_sum', mu_sum') :=
      for_range_down l min_l
        (fun l '(S2_sum', mu_sum') =>
           let n := prime * primes@l in
           let count := cnt_query (sieve st) (counters st) (x ÷ n - low) in
           let phi_xn := (phi st)@b + count in
           (S2_sum' + phi_xn, vset mu_sum' b (mu_sum'@b + 1)))
        (S2_sum st, mu_sum st) in
    let phi' :=
      vset (phi st) b
        ((phi st)@b + cnt_query (sieve st) (counters st) (high - 1 - low)) in
    '(k, sv, cnt) ←
      cross_off prime low high (next st)@b (sieve st) (counters st);
    Some (mk_thread sv cnt (vset (next st) b k) phi' mu_sum' S2_sum', false).

(** One segment [low, high) of the thread: the body of the loop over the
    segments. *)
Definition segment (size limit low : Z) (st : thread_state) : option thread_state :=
  let high := Z.min (low + segment_size) limit in
  let b := 2 in
  let st := mk_thread (BitSieve.memset (sieve st) low) (counters st) (next st)
              (phi st) (mu_sum st) (S2_sum st) in
  '(b, st, _) ← for_lt_jump b (c + 1) (sieve_out low high) st;
  let st := mk_thread (sieve st)
              (cnt_finit (sieve st) (counters st) segment_size) (next st)
              (phi st) (mu_sum st) (S2_sum st) in
  '(b, st, jumped) ←
    for_lt_jump b (Z.min pi_sqrty size) (leaves_below_sqrty low high) st;
  if jumped : bool then Some st
  else
    '(_, st, _) ←
      for_lt_jump b (Z.min pi_y size) (leaves_from_sqrty low high) st;
    Some st.

(** [S2_thread(x, y, c, pi_sqrty, pi_y, segment_size, segments_per_thread,
    thread_num, low, limit, pi, primes, lpf, mu, mu_sum, phi)]: the value it
    returns and the vectors [mu_sum] and [phi] it leaves. *)
Definition S2_thread (segments_per_thread thread_num low limit : Z)
    (mu_sum phi : list Z) : option (Z * list Z * list Z) :=
  let low := low + segment_size * segments_per_thread * thread_num in
  let limit := Z.min (low + segment_size * segments_per_thread) limit in
  let size := pi@(Z.min (isqrt (x ÷ low)) y) + 1 in
  if c >=? size - 1 then Some (0, mu_sum, phi)
  else
    let sieve := BitSieve.make segment_size in
    let counters := repeat 0 (Z.to_nat segment_size) in
    let next := init_next_multiples primes size low in
    let phi := resize (Z.to_nat size) 0 phi in
    let mu_sum := resize (Z.to_nat size) 0 mu_sum in
    '(_, st) ←
      for_stride low limit segment_size
        (fun low st => st ≫= segment size limit low)
        (Some (mk_thread sieve counters next phi mu_sum 0));
    st ← st;
    Some (S2_sum st, Lmo.mu_sum st, Lmo.phi st).

End S2_thread.

(** What the wave loop of [S2] carries from one wave to the next. *)
Record wave_state : Type := mk_wave {
  S2_total : Z;
  low : Z;
  threads : Z;
  segment_size : Z;
  segments_per_thread : Z;
  phi_total : list Z
}.

Section S2.

(** [ilog(x)] goes through [std::log] on a [double]; [max_threads] is what
    OpenMP reports; [get_wtime] is the clock: wave [k] of a run takes
    [seconds k]. *)
Variable ilog : Z -> Z.
Variable max_threads : Z.
Variable seconds : nat -> Q.

(** Modelled from the spec: [validate_threads] of utils.hpp, which is not
    among the sources; the thread count brought into [1, max_threads]. *)
Definition validate_threads (threads : Z) : Z := in_between 1 threads max_threads.

Section wave.

Variables (x y pi_y c : Z) (primes lpf mu : list Z).
Variables (limit sqrt_limit pi_sqrty : Z) (pi : list Z).

(** The head of the loop body: the threads and segments of this wave. *)
Definition schedule (st : wave_state) : wave_state :=
  let segments := (limit - low st + segment_size st - 1) ÷ segment_size st in
  let threads := in_between 1 (threads st) segments in
  let segments_per_thread :=
    in_between 1 (segments_per_thread st) ((segments + threads - 1) ÷ threads) in
  mk_wave (S2_total st) (low st) threads (segment_size st) segments_per_thread
    (phi_total st).

(** After the threads: [low] moves on, and the segment size or the segments
    per thread grow when the wave was fast. *)
Definition adapt (secs : Q) (st : wave_state) : wave_state :=
  let low := low st + segments_per_thread st * threads st * segment_size st in
  let '(segment_size, segments_per_thread) :=
    if (low >? sqrt_limit) && negb (Qle_bool 10 secs) then
      if segment_size st <? sqrt_limit then
        (Z.shiftl (segment_size st) 1, segments_per_thread st)
      else (segment_size st, segments_per_thread st * 2)
    else (segment_size st, segments_per_thread st) in
  mk_wave (S2_total st) low (threads st) segment_size segments_per_thread
    (phi_total st).

(** The last loop of the body: the contributions the threads could not know
    are added in thread order. *)
Definition reconstruct (results : list (Z * list Z * list Z)) (st : wave_state)
  : wave_state :=
  let '(S2_total, phi_total) :=
    fold_left
      (fun '(S2_total, phi_total) '(_, mu_sum_i, phi_i) =>
         for_range 1 (Z.of_nat (length phi_i))
           (fun j '(S2_total, phi_total) =>
              (S2_total + phi_total@j * mu_sum_i@j,
               vset phi_total j (phi_total@j + phi_i@j)))
           (S2_total, phi_total))
      results (S2_total st, phi_total st) in
  mk_wave S2_total (low st) (threads st) (segment_size st)
    (segments_per_thread st) phi_total.

(** One pass through the body of [while (low < limit)]. *)
Definition S2_wave (secs : Q) (st : wave_state) : option wave_state :=
  let st := schedule st in
  results ←
    mapM (fun i =>
            S2_thread x y c pi_sqrty pi_y (segment_size st) pi primes lpf mu
              (segments_per_thread st) i (low st) limit [] [])
         (zrange 0 (threads st));
  let st := mk_wave (S2_total st + zsum (map (fun r => r.1.1) results)) (low st)
              (threads st) (segment_size st) (segments_per_thread st)
              (phi_total st) in
  Some (reconstruct results (adapt secs st)).

(** [while (low < limit)]: [wave] counts the waves done so far. *)
Fixpoint S2_loop (fuel : nat) (wave : nat) (st : wave_state) : option Z :=
  match fuel with
  | O => None
  | S fuel' =>
      if low st <? limit then
        st' ← S2_wave (seconds wave) st;
        S2_loop fuel' (S wave) st'
      else Some (S2_total st)
  end.

End wave.

(** The state on entry to the wave loop. *)
Definition S2_init (x y : Z) (primes : list Z) (threads : Z) : wave_state :=
  let threads := validate_threads threads in
  let limit := x ÷ y + 1 in
  let sqrt_limit := isqrt limit in
  let logx := Z.max 1 (ilog x) in
  let min_segment_size := Z.shiftl 1 6 in
  let segment_size := next_power_of_2 (sqrt_limit ÷ (logx * threads)) in
  let segments_per_thread := 1 in
  let segment_size := Z.max segment_size min_segment_size in
  mk_wave 0 1 threads segment_size segments_per_thread
    (repeat 0 (length primes)).

(** [S2(x, y, pi_y, c, primes, lpf, mu, threads)] *)
Definition S2 (fuel : nat) (x y pi_y c : Z) (primes lpf mu : list Z) (threads : Z)
  : option Z :=
  let limit := x ÷ y + 1 in
  let sqrt_limit := isqrt limit in
  let pi_sqrty := pi_bsearch primes (isqrt y) in
  let pi := make_pi y in
  S2_loop x y pi_y c primes lpf mu limit sqrt_limit pi_sqrty pi fuel 0
    (S2_init x y primes threads).


(** The parts of [pi_lmo_parallel3] that are not among the sources: the
    [double] value [log(log((double) x))], the sums [S1] and [P2], and the
    tables of the Moebius function and of the least prime factors. *)
Variable loglog : Z -> Q.
Variable S1 : Z -> Z -> Z -> list Z -> list Z -> list Z -> Z.
Variable P2 : Z -> Z -> Z -> Z.
Variables make_moebius make_least_prime_factor : Z -> list Z.

(** [in_between(min, x, max)] at a [double] [x]: the integers [min] and
    [max] are compared, and returned, as doubles. *)
Definition in_between_double (min : Z) (x : Q) (max : Z) : Q :=
  if negb (Qle_bool (to_double min) x) then to_double min
  else if negb (Qle_bool x (to_double max)) then to_double max
  else x.

(** [(int64_t) d]: the fraction is dropped. *)
Definition to_int64 (d : Q) : Z := Qnum d ÷ Z.pos (Qden d).

(** [pi_lmo_parallel3(x, threads)] *)
Definition pi_lmo_parallel3 (fuel : nat) (x threads : Z) : option Z :=
  if x <? 2 then Some 0
  else
    let beta := 1%Q in
    let alpha := in_between_double 1 (fmul (loglog x) beta) (iroot 6 x) in
    let x13 := iroot 3 x in
    let y := to_int64 (fmul (to_double x13) alpha) in
    let mu := make_moebius y in
    let lpf := make_least_prime_factor y in
    let primes := [0] in
    let primes := generate_primes y primes in
    let pi_y := Z.of_nat (length primes) - 1 in
    let c := Z.min PhiTiny_MAX_A pi_y in
    let s1 := S1 x y c primes lpf mu in
    s2 ← S2 fuel x y pi_y c primes lpf mu threads;
    let p2 := P2 x y threads in
    let phi := s1 + s2 in
    let sum := phi + pi_y - 1 - p2 in
    Some sum.

End S2.

End Lmo.

(** ** PiTable.cpp *)

Module PiTable.

(** [pi_t]: the prime count below the word, and the word of prime bits. *)
Record pi_t : Type := mk_pi { count : Z; bits : Z }.

Definition pi_cache_ : list pi_t :=
  map (fun e => mk_pi e.1 e.2)
  [ (   3, 0xF93DDBB67EEFDFFE); (  52, 0x9EEDA6EAF31E4FD5);
    (  92, 0xA559DD3BD3D30CE6); ( 128, 0x56A61E78BD92676A);
    ( 162, 0x554C2ADE2DADE356); ( 196, 0xF8A154039FF0A3D9);
    ( 228, 0x3A13F666E944FD2E); ( 263, 0x54BF11453A2B4CB8);
    ( 293, 0x4F8CBCC8B37AC18C); ( 325, 0xEF17C19B71715821);
    ( 357, 0x468C83E5081A9654); ( 382, 0x87588F9265AEFB72);
    ( 417, 0xA0E3266581D892D2); ( 444, 0x99EB813C26C73811);
    ( 473, 0x4D33F3243E88518D); ( 503, 0x4C58B42AA71C8B5A);
    ( 532, 0xC383DC8219F6264E); ( 562, 0x02CDCDB50238F12C);
    ( 590, 0x307A4C570C944AB2); ( 617, 0xF8246C44CBF10B43);
    ( 646, 0x8DEA735CA8950119); ( 675, 0xC41E22A6502B9624);
    ( 700, 0x9C742F3AD40648D1); ( 729, 0x2E1568BF88056A07);
    ( 757, 0x14089851B7E35560); ( 783, 0x2770494D45AA5A86);
    ( 811, 0x618302ABCAD593D2); ( 840, 0xADA9C22287CE2405);
    ( 867, 0xB01689D1784D8C18); ( 893, 0x522434C0A262C757);
    ( 919, 0x4308218D32405AAE); ( 942, 0x60E119D9B6D2B634);
    ( 973, 0x947A44D060391A67); (1000, 0x105574A88388099A);
    (1023, 0x32C8231E685DA127); (1051, 0x38B14873440319E0);
    (1075, 0x1CB59861572AE6C3); (1106, 0x2902AC8F81C5680A);
    (1130, 0x2E644E1194E3471A); (1158, 0x1006C514DC3DCB14);
    (1184, 0xE34730E982B129E9); (1214, 0xB430300A25C31934);
    (1237, 0x4C8ED84446E5C16C); (1265, 0x818992787024225D);
    (1289, 0xA508E9861B265682); (1315, 0x104AC2B029C3D300);
    (1337, 0xC760421DA13859B2); (1364, 0x8BC61A44C88C2722);
    (1389, 0x0931A610461A8182); (1409, 0x15A9D8D2182F54F0);
    (1438, 0x91500EC0F60C2E06); (1462, 0xC319653818C126CD);
    (1489, 0x4A84D62D2A8B9356); (1518, 0xC476E0092CA50A61);
    (1543, 0x1B6614E808D83C6A); (1570, 0x073110366302A4B0);
    (1592, 0xA08AC312424892D5); (1615, 0x5C788582A4742D9F);
    (1645, 0xE8021D1461B0180D); (1667, 0x30831C4901C11218);
    (1686, 0xF40C0FD888A13367); (1715, 0xB1474266D7588898);
    (1743, 0x155941180896A816); (1765, 0xA1AAB3E1522A44B5);
    (1794, 0x0CA5111855624559); (1818, 0x0AD654BE00673CA3);
    (1847, 0x7E08150C826B3620); (1871, 0x840A61D078019156);
    (1893, 0x50A0560E57012CA8); (1916, 0x1063206C478C980B);
    (1939, 0x750B88570CE409C4); (1965, 0x022439C28252C20B);
    (1986, 0xA3D629317A25562C); (2016, 0x328A0CB018B1E120);
    (2038, 0x3730ADC5093211C1); (2064, 0x6B2520CF8291BC08);
    (2090, 0x076A4626448F309C); (2116, 0xC525021058098E49);
    (2137, 0x903C80A0805A42C4); (2156, 0x0C518403E1146428);
    (2176, 0x7E47C008A48AA32E); (2203, 0x04002A54CD032BD3);
    (2226, 0xC1834C29426C92B3); (2252, 0x38DB21462D1CCC92);
    (2280, 0xE0BB5812248C8459); (2305, 0x912809C930700D06);
    (2326, 0xC280308CF9324441); (2348, 0x1483817D0C62A472);
    (2373, 0x14780A82150EAAE1); (2397, 0xB2F02E6F10089770);
    (2425, 0x866253324449301D); (2449, 0xD9364B110A844565);
    (2475, 0x197C9080613A698C); (2500, 0x2D050C8B409530C0);
    (2521, 0x1A8596B4A171C00E); (2547, 0xB7484C511415C016);
    (2571, 0xA1022E8A89109579); (2595, 0x220891108190D51C);
    (2614, 0x5C2033C078E91EB4); (2642, 0x471023AAE20EC48B);
    (2668, 0xA851A1197B5528E3); (2697, 0x6061D12C82900406);
    (2716, 0x23548144410652A1); (2736, 0x4872222704A91888);
    (2757, 0x29CA1712421C40B6); (2781, 0x898452E13C015AA0);
    (2804, 0xD2692CF1064001DA); (2829, 0xC88A3421C1634248);
    (2851, 0x442E88092671216C); (2874, 0xD11286981D9228D5);
    (2900, 0x5014462046A0A352); (2920, 0x8CA9445083DDDC83);
    (2948, 0x391B8914542E144D); (2974, 0x02808F2981148042);
    (2991, 0x0C05B08382963203); (3012, 0x1AECD9F807885114);
    (3040, 0x230686435C314806); (3062, 0xB2F000A50C4409B3);
    (3085, 0xB618C242E1CA0180); (3107, 0x612C29522EC79B2C);
    (3136, 0x5E80848B24268A1A); (3159, 0x2145352A53C10260);
    (3181, 0x04484AC5B842D152); (3204, 0xC45009C161237016);
    (3226, 0x28221601D9188881); (3245, 0x09532438EB84908C);
    (3269, 0x30860982146A41A9); (3290, 0x5A952B004238A29C) ].

(** [pi_[i]], [pi_[i] = e] *)
Definition pget (v : list pi_t) (i : Z) : pi_t := nth (Z.to_nat i) v (mk_pi 0 0).

Definition pset (v : list pi_t) (i : Z) (e : pi_t) : list pi_t :=
  <[Z.to_nat i := e]> v.

(** The eight offsets of a byte: bit [k] of byte [j] of word [w] stands for
    the number [240 * w + 30 * j + offset k]. *)
Definition offsets : list Z := [1; 7; 11; 13; 17; 19; 23; 29].

(** The number a bit stands for. *)
Definition number_of (w k : Z) : Z := 240 * w + 30 * (k / 8) + offsets@(k mod 8).

(** Modelled from the spec: the tables [set_bit_] and [unset_larger_] live
    in a header that is not among the sources.  [set_bit_[r]] is the bit of
    the residue [r] of 240, or 0 when [r] has a factor 2, 3 or 5;
    [unset_larger_[r]] keeps the bits of the residues up to [r]. *)
Definition set_bit_ : list Z :=
  map (fun r =>
         zsum (map (fun k => if number_of 0 k =? r then Z.shiftl 1 k else 0)
                 (zrange 0 64)))
      (zrange 0 240).

Definition unset_larger_ : list Z :=
  map (fun r =>
         zsum (map (fun k => if number_of 0 k <=? r then Z.shiftl 1 k else 0)
                 (zrange 0 64)))
      (zrange 0 240).

(** Modelled from the spec: [primesieve::iterator it(low, high)] with
    [it.next_prime()] called while the prime is below [high]: the primes of
    [low, high) in increasing order. *)
Definition primes_between (low high : Z) : list Z :=
  List.filter is_prime (zrange low high).

(** What the constructor builds. *)
Record t : Type := mk {
  pi_ : list pi_t;
  counts_ : list Z;
  max_x_ : Z
}.

(** [resize(n)] on a vector that does not initialise what it adds: the new
    entries are whatever the memory holds. *)
Definition resize_raw {A : Type} (n : Z) (memory : nat -> A) (v : list A) : list A :=
  take (Z.to_nat n) v
  ++ map memory (seq (length v) (Z.to_nat n - length v)).

Section init.

(** What uninitialised memory holds, and the thread count that
    [ideal_num_threads], which is not among the sources, settles on. *)
Variable memory : nat -> pi_t.
Variable memory_counts : nat -> Z.
Variable ideal_num_threads : Z -> Z -> Z -> Z.

(** [PiTable::init_bits(low, high, thread_num)] *)
Definition init_bits (low high thread_num : Z) (tab : t) : t :=
  let i := low / 240 in
  let j := ceil_div high 240 in
  let pi := for_range i j (fun i pi => pset pi i (mk_pi 0 0)) (pi_ tab) in
  let low := Z.max low 7 in
  let '(pi, count) :=
    fold_left
      (fun '(pi, count) prime =>
         let prime_bit := set_bit_@(prime mod 240) in
         let e := pget pi (prime / 240) in
         (pset pi (prime / 240) (mk_pi (PiTable.count e) (Z.lor (bits e) prime_bit)),
          count + 1))
      (primes_between low high) (pi, 0) in
  mk pi (vset (counts_ tab) thread_num count) (max_x_ tab).

(** [PiTable::init_count(low, high, thread_num)] *)
Definition init_count (low high thread_num : Z) (tab : t) : t :=
  let cache_last := last pi_cache_ (mk_pi 0 0) in
  let count := PiTable.count cache_last + popcount64 (bits cache_last) in
  let count :=
    for_range 0 thread_num (fun i count => count + (counts_ tab)@i) count in
  let i := low / 240 in
  let stop_idx := ceil_div high 240 in
  let '(pi, _) :=
    for_range i stop_idx
      (fun i '(pi, count) =>
         (pset pi i (mk_pi count (bits (pget pi i))),
          count + popcount64 (bits (pget pi i))))
      (pi_ tab, count) in
  mk pi (counts_ tab) (max_x_ tab).

(** [PiTable::init(limit, cache_limit, threads)]: the two parallel loops
    work on words that no two threads share, so they are run thread after
    thread. *)
Definition init (limit cache_limit threads : Z) (tab : t) : t :=
  let dist := limit - cache_limit in
  let thread_threshold := 10000000 in
  let threads := ideal_num_threads dist threads thread_threshold in
  let thread_dist := dist / threads in
  let thread_dist := Z.max thread_threshold thread_dist in
  let thread_dist := u64 (thread_dist + (240 - thread_dist mod 240)) in
  let tab :=
    mk (pi_ tab)
       (resize_raw threads memory_counts (counts_ tab)) (max_x_ tab) in
  let tab :=
    for_range 0 threads
      (fun t tab =>
         let low := u64 (cache_limit + u64 (thread_dist * t)) in
         let high := u64 (low + thread_dist) in
         let high := Z.min high limit in
         if low <? high then init_bits low high t tab else tab)
      tab in
  for_range 0 threads
    (fun t tab =>
       let low := u64 (cache_limit + u64 (thread_dist * t)) in
       let high := u64 (low + thread_dist) in
       let high := Z.min high limit in
       if low <? high then init_count low high t tab else tab)
    tab.

(** [PiTable::PiTable(max_x, threads)] *)
Definition make (max_x threads : Z) : t :=
  let limit := u64 (max_x + 1) in
  let pi := resize_raw (ceil_div limit 240) memory [] in
  let n := Z.min (Z.of_nat (length pi_cache_)) (Z.of_nat (length pi)) in
  let pi := take (Z.to_nat n) pi_cache_ ++ drop (Z.to_nat n) pi in
  let cache_limit := Z.of_nat (length pi_cache_) * 240 in
  let tab := mk pi [] max_x in
  if limit >? cache_limit then init limit cache_limit threads tab else tab.

End init.

(** Modelled from the spec: the query [pi(n)] lives in PiTable.hpp, which is
    not among the sources: the word of [n] is located, and its count is
    added to the number of its bits that stand for numbers up to [n]. *)
Definition pi (tab : t) (n : Z) : Z :=
  let e := pget (pi_ tab) (n / 240) in
  count e + popcount64 (Z.land (bits e) unset_larger_@(n mod 240)).

End PiTable.

(** ** Statements that the theorems are about *)

(** The counters agree with the sieve: counter [j] is the number of 1 bits
    of block [j]. *)
Definition counters_agree (sieve : BitSieve.t) (counters : list Z) : Prop :=
  let S := BitSieve.size sieve in
  let w := TosCounters.block_width S in
  Z.of_nat (length counters) = S
  /\ forall j, 0 <= j -> j * w < S ->
       counters@j = BitSieve.ones_between sieve (j * w) (Z.min ((j + 1) * w) S - 1).

(** A run of [cross_off] calls on one segment, each call given as
    [(prime, low, high, next_multiple)]. *)
Fixpoint cross_off_calls (calls : list (Z * Z * Z * Z))
    (sieve : BitSieve.t) (counters : list Z) : option (BitSieve.t * list Z) :=
  match calls with
  | [] => Some (sieve, counters)
  | (prime, low, high, next_multiple) :: calls' =>
      '(_, sieve, counters) ←
        Lmo.cross_off prime low high next_multiple sieve counters;
      cross_off_calls calls' sieve counters
  end.

(** The call is one the sieve loop makes: a positive prime, and no position
    outside the segment. *)
Definition call_in_segment (size : Z) (call : Z * Z * Z * Z) : Prop :=
  let '(prime, low, high, next_multiple) := call in
  0 < prime /\ low <= next_multiple /\ high <= low + size.

(** [n] is an odd multiple of [p]. *)
Definition odd_multiple (p n : Z) : bool := Z.odd n && (n mod p =? 0).

(** [v] is the first odd multiple of [p] that is at least [low]. *)
Definition first_odd_multiple (p low v : Z) : Prop :=
  low <= v /\ odd_multiple p v = true
  /\ forall u, low <= u -> odd_multiple p u = true -> v <= u.


(** C5 as the specification words it: bit [i] is set iff [low + i] is odd,
    except that for [low = 0] the bits 0 and 1 are cleared and bit 2 is
    set. *)
Definition memset_claim (s : BitSieve.t) (low : Z) : Prop :=
  forall i, 0 <= i < BitSieve.size_ s ->
    BitSieve.test (BitSieve.memset s low) i =
      if low =? 0 then
        (if i <? 2 then false else if i =? 2 then true else Z.odd (low + i))
      else Z.odd (low + i).

(** The bit that [memset] leaves at the position of the number [n]. *)
Definition memset_bit (n : Z) : bool := (n =? 2) || (Z.odd n && (3 <=? n)).



(** C9 as the specification words it: a call with the input [x] hands no
    result to its caller, whatever the collaborators are. *)
Definition domain_error_claim (x : Z) : Prop :=
  forall ilog max_threads seconds loglog S1 P2 make_moebius
         make_least_prime_factor fuel threads v,
    Lmo.pi_lmo_parallel3 ilog max_threads seconds loglog S1 P2 make_moebius
      make_least_prime_factor fuel x threads <> Some v.

(** What [cross_off] keeps: the shape of the sieve, and counters that agree
    with it. *)
Definition in_step (S : Z) (st : BitSieve.t * list Z) : Prop :=
  BitSieve.wf st.1 /\ BitSieve.size st.1 = S /\ counters_agree st.1 st.2.

(** The segment size and the segments per thread after a wave, from the
    state the head of the loop body settled on. *)
Definition grown (sqrt_limit : Z) (secs : Q) (low' : Z) (sch : Lmo.wave_state)
  : Z * Z :=
  if (low' >? sqrt_limit) && negb (Qle_bool 10 secs) then
    if Lmo.segment_size sch <? sqrt_limit then
      (2 * Lmo.segment_size sch, Lmo.segments_per_thread sch)
    else (Lmo.segment_size sch, 2 * Lmo.segments_per_thread sch)
  else (Lmo.segment_size sch, Lmo.segments_per_thread sch).

(** A prime from 7 on: the primes that have a bit in the table. *)
Definition prime_from_7 (n : Z) : bool := is_prime n && (7 <=? n).

(** [r] has none of the factors 2, 3 and 5. *)
Definition coprime30 (r : Z) : bool :=
  negb (r mod 2 =? 0) && negb (r mod 3 =? 0) && negb (r mod 5 =? 0).

(** C4 as the specification words it: at every number [n <= max_x] with one
    of the eight residues the count of its word plus the 1 bits up to its
    bit is [pi(n)]. *)
Definition pitable_claim (memory : nat -> PiTable.pi_t) (memory_counts : nat -> Z)
    (ideal_num_threads : Z -> Z -> Z -> Z) (max_x threads : Z) : Prop :=
  forall n, 0 <= n <= max_x -> coprime30 n = true ->
    PiTable.pi (PiTable.make memory memory_counts ideal_num_threads max_x threads) n
    = prime_pi n.

(** The bits of the entry [e] of word [w] that stand for numbers below [N]
    mark the primes. *)
Definition bits_mark_primes (N w : Z) (e : PiTable.pi_t) : Prop :=
  forall k, 0 <= k < 64 -> PiTable.number_of w k < N ->
    Z.testbit (PiTable.bits e) k = prime_from_7 (PiTable.number_of w k).

(** The count of the entry [e] of word [w] is 3, for the primes 2, 3 and 5,
    plus the number of primes from 7 on below the word. *)
Definition count_below_word (w : Z) (e : PiTable.pi_t) : Prop :=
  PiTable.count e = 3 + count_between prime_from_7 0 (240 * w - 1).

(** Where the chunk of thread [t] starts, for chunks of [D] numbers. *)
Definition chunk_low (D t : Z) : Z := 30720 + D * t.

(** The table while the threads set the bits: the first [t] chunks are
    done.  The words of the cache are as the cache has them, the words of
    the chunks done mark the primes below [limit], and the counts of the
    chunks done are their numbers of primes. *)
Definition bits_done (limit D threads t : Z) (words : nat) (max_x : Z)
    (tab : PiTable.t) : Prop :=
  length (PiTable.pi_ tab) = words
  /\ PiTable.max_x_ tab = max_x
  /\ Z.of_nat (length (PiTable.counts_ tab)) = threads
  /\ (forall w, 0 <= w < 128 ->
        PiTable.pget (PiTable.pi_ tab) w = PiTable.pget PiTable.pi_cache_ w)
  /\ (forall w, 128 <= w -> 240 * w < Z.min (chunk_low D t) limit ->
        bits_mark_primes limit w (PiTable.pget (PiTable.pi_ tab) w))
  /\ (forall i, 0 <= i < t -> chunk_low D i < limit ->
        (PiTable.counts_ tab)@i
        = count_between prime_from_7 (chunk_low D i)
            (Z.min (chunk_low D (i + 1)) limit - 1)).

(** The table while the threads set the counts: every bit is set, and the
    words of the first [t] chunks have their counts. *)
Definition counts_done (limit D threads t : Z) (words : nat) (max_x : Z)
    (tab : PiTable.t) : Prop :=
  bits_done limit D threads threads words max_x tab
  /\ (forall w, 128 <= w -> 240 * w < Z.min (chunk_low D t) limit ->
        count_below_word w (PiTable.pget (PiTable.pi_ tab) w)).

(** ** What S2 adds up *)

Section leaves.

Variables (x y c pi_y : Z) (primes lpf mu : list Z).

(** After the multiples of the primes before [primes[b]] are crossed off,
    the bit of the number [v] is still set. *)
Definition survives (b v : Z) : bool :=
  memset_bit v
  && forallb (fun j => negb (odd_multiple primes@j v)) (zrange 2 b).

(** The numbers of [u, v) whose bit is still set for [b]. *)
Definition survivors (b u v : Z) : Z := count_between (survives b) u (v - 1).

(** The first prime index that has leaves. *)
Definition first_leaf_index : Z := Z.max 2 (c + 1).

Definition pi_sqrty : Z := pi_bsearch primes (isqrt y).

(** The leaves of [primes[b]] are counted by an index [k]: below [pi_sqrty]
    the index is the cofactor [m], from [pi_sqrty] on it is the index [l] of
    the second prime. *)
Definition cofactor (b k : Z) : Z := if b <? pi_sqrty then k else primes@k.

(** Where the leaf lies: [x / n] for [n = primes[b] * cofactor]. *)
Definition leaf_position (b k : Z) : Z := x ÷ (primes@b * cofactor b k).

Definition leaf_weight (b k : Z) : Z := if b <? pi_sqrty then - mu@k else 1.

(** [k] counts a leaf of [primes[b]]. *)
Definition is_leaf (b k : Z) : bool :=
  let prime := primes@b in
  let m := cofactor b k in
  (first_leaf_index <=? b) && (b <? pi_y)
  && (y ÷ prime <? m) && (m <=? y) && (prime * m <=? x)
  && (if b <? pi_sqrty then negb (mu@k =? 0) && (prime <? lpf@k)
      else (prime <? m) && (1 <=? k) && (k <=? pi_y)).

(** The sum of [weight * F(position)] over the leaves of [primes[b]] that
    lie in [u, v). *)
Definition leaf_sum (b u v : Z) (F : Z -> Z) : Z :=
  zsum (map (fun k =>
               if is_leaf b k && (u <=? leaf_position b k)
                  && (leaf_position b k <? v)
               then leaf_weight b k * F (leaf_position b k) else 0)
          (zrange 1 (Z.max y pi_y + 1))).

(** What [S2] returns: every leaf weighs in with the number of survivors up
    to its position. *)
Definition S2_value : Z :=
  zsum (map (fun b =>
               leaf_sum b 1 (x ÷ y + 1) (fun pos => survivors b 1 (pos + 1)))
          (zrange first_leaf_index pi_y)).

End leaves.

(** Equality of two lists of integers, as a test. *)
Fixpoint zlist_eqb (a b : list Z) : bool :=
  match a, b with
  | [], [] => true
  | x :: a', y :: b' => (x =? y) && zlist_eqb a' b'
  | _, _ => false
  end.

(** ** The run of S2, thread by thread *)

Section run.

Variables (x y c pi_y : Z) (primes lpf mu : list Z).

(** The test in front of the [goto] of the two leaf loops, for the prime
    index [b] in a segment that starts at [u]. *)
Definition stops (b u : Z) : bool :=
  let prime := primes@b in
  if b <? pi_sqrty y primes then prime >=? Z.min (x ÷ (prime * u)) y
  else prime >=? primes@((make_pi y)@(Z.min (x ÷ (prime * u)) y)).

(** [size] in a thread that starts at [u]. *)
Definition thread_size (u : Z) : Z :=
  (make_pi y)@(Z.min (isqrt (x ÷ u)) y) + 1.

(** In a segment that starts at [u], of a thread with [size], the leaf
    loops get to the prime index [b] and past its [goto]. *)
Definition reached (size b u : Z) : Prop :=
  first_leaf_index c <= b < Z.min pi_y size
  /\ forall b', first_leaf_index c <= b' <= b -> stops b' u = false.

(** The number of leaves of [primes[b]] in [u, v), each with its sign. *)
Definition leaf_number (b u v : Z) : Z :=
  leaf_sum x y c pi_y primes lpf mu b u v (fun _ => 1).

(** The leaves of [primes[b]] in [u, v), each with the survivors of
    [L, position]. *)
Definition leaf_counts (b L u v : Z) : Z :=
  leaf_sum x y c pi_y primes lpf mu b u v
    (fun pos => survivors primes b L (pos + 1)).

(** The same, over all prime indices. *)
Definition S2_between (L u v : Z) : Z :=
  zsum (map (fun b => leaf_counts b L u v) (zrange (first_leaf_index c) pi_y)).

(** What a thread that works on [L, R) hands back: its sum, the leaves it
    saw per prime index, and the survivors it counted for every prime index
    whose loop it ran in each of its segments. *)
Definition thread_result (L R : Z) (r : Z * list Z * list Z) : Prop :=
  r.1.1 = S2_between L L R
  /\ (forall b, 0 <= b -> (r.1.2)@b = leaf_number b L R)
  /\ Z.of_nat (length r.2)
     = (if c >=? thread_size L - 1 then 0 else thread_size L)
  /\ (forall b, 0 <= b ->
        (forall u, L <= u < R -> reached (thread_size L) b u) ->
        (r.2)@b = survivors primes b L R).

(** What the wave loop knows when the numbers below [E] are done: the sum
    of the leaves below [E], and the survivors below [E] for every prime
    index that was reached in all the segments so far. *)
Definition wave_inv (E : Z) (S2_total : Z) (phi_total : list Z) : Prop :=
  S2_total = S2_between 1 1 E
  /\ Z.of_nat (length phi_total) = pi_y + 1
  /\ (forall b, 0 <= b ->
        (forall u, 1 <= u < E -> reached (thread_size u) b u) ->
        phi_total@b = survivors primes b 1 E).

(** Inside the segment [[l, h)]: the state [st] when the leaf loops turn to
    the prime index [b], against the state [st0] they started from. *)
Definition leaves_inv (seg l h : Z) (st0 : Lmo.thread_state) (b : Z)
    (st : Lmo.thread_state) : Prop :=
  in_step seg (Lmo.sieve st, Lmo.counters st)
  /\ (forall i, 0 <= i < h - l ->
        BitSieve.test (Lmo.sieve st) i = survives primes b (l + i))
  /\ length (Lmo.next st) = length (Lmo.next st0)
  /\ length (Lmo.phi st) = length (Lmo.phi st0)
  /\ length (Lmo.mu_sum st) = length (Lmo.mu_sum st0)
  /\ (forall b', 0 <= b' -> ~ (first_leaf_index c <= b' < b) ->
        (Lmo.next st)@b' = (Lmo.next st0)@b'
        /\ (Lmo.phi st)@b' = (Lmo.phi st0)@b'
        /\ (Lmo.mu_sum st)@b' = (Lmo.mu_sum st0)@b')
  /\ (forall b', first_leaf_index c <= b' < b ->
        stops b' l = false
        /\ (Lmo.phi st)@b' = (Lmo.phi st0)@b' + survivors primes b' l h
        /\ (Lmo.mu_sum st)@b' = (Lmo.mu_sum st0)@b' + leaf_number b' l h
        /\ first_odd_multiple primes@b' h (Lmo.next st)@b')
  /\ Lmo.S2_sum st
     = Lmo.S2_sum st0
       + zsum (map (fun b' =>
                      leaf_sum x y c pi_y primes lpf mu b' l h
                        (fun pos => (Lmo.phi st0)@b'
                                    + survivors primes b' l (pos + 1)))
                 (zrange (first_leaf_index c) b)).

(** A thread that works on [L, R), in front of the segment that starts at
    [l]: the numbers of [L, E) are done, for [E = min l R]. *)
Definition thread_inv (seg L R l : Z) (st : Lmo.thread_state) : Prop :=
  let size := thread_size L in
  let E := Z.min l R in
  BitSieve.wf (Lmo.sieve st) /\ BitSieve.size (Lmo.sieve st) = seg
  /\ Z.of_nat (length (Lmo.counters st)) = seg
  /\ Z.of_nat (length (Lmo.next st)) = size
  /\ Z.of_nat (length (Lmo.phi st)) = size
  /\ Z.of_nat (length (Lmo.mu_sum st)) = size
  /\ Lmo.S2_sum st = S2_between L L E
  /\ (forall b, 0 <= b -> (Lmo.mu_sum st)@b = leaf_number b L E)
  /\ (forall b, 0 <= b -> (forall u, L <= u < E -> reached size b u) ->
        (Lmo.phi st)@b = survivors primes b L E)
  /\ (forall b, 2 <= b < size ->
        (b < first_leaf_index c \/ forall u, L <= u < E -> reached size b u) ->
        first_odd_multiple primes@b E (Lmo.next st)@b).

End run.

(** * Proofs *)

(** Case analysis on every comparison of the goal. *)
Ltac zbool :=
  repeat match goal with
    | |- context [?a <=? ?b] => destruct (Z.leb_spec a b)
    | |- context [?a <? ?b] => destruct (Z.ltb_spec a b)
    | |- context [?a >=? ?b] => rewrite (Z.geb_leb a b)
    | |- context [?a >? ?b] => rewrite (Z.gtb_ltb a b)
    | |- context [?a =? ?b] => destruct (Z.eqb_spec a b)
    end;
  simpl; try reflexivity; try lia.

(** ** Counting lemmas *)

Lemma count_from_ext (f g : Z -> bool) (n : nat) (lo : Z) :
  (forall k, lo <= k < lo + Z.of_nat n -> f k = g k) ->
  count_from f lo n = count_from g lo n.
Proof.
  revert lo; induction n as [|n IH]; intros lo H; simpl; [reflexivity|].
  rewrite (H lo) by lia. f_equal. apply IH. intros k Hk. apply H. lia.
Qed.

Lemma count_from_app (f : Z -> bool) (n m : nat) (lo : Z) :
  count_from f lo (n + m) = count_from f lo n + count_from f (lo + Z.of_nat n) m.
Proof.
  revert lo; induction n as [|n IH]; intros lo.
  - simpl. rewrite Z.add_0_r. reflexivity.
  - change (S n + m)%nat with (S (n + m)). simpl count_from. rewrite IH.
    replace (lo + 1 + Z.of_nat n) with (lo + Z.of_nat (S n)) by lia. lia.
Qed.

Lemma count_from_shift (f : Z -> bool) (d : Z) (n : nat) (lo : Z) :
  count_from (fun k => f (k + d)) lo n = count_from f (lo + d) n.
Proof.
  revert lo; induction n as [|n IH]; intros lo; simpl; [reflexivity|].
  rewrite IH. do 2 f_equal. lia.
Qed.

Lemma count_from_none (f : Z -> bool) (n : nat) (lo : Z) :
  (forall k, lo <= k < lo + Z.of_nat n -> f k = false) ->
  count_from f lo n = 0.
Proof.
  revert lo; induction n as [|n IH]; intros lo H; simpl; [reflexivity|].
  rewrite (H lo) by lia. rewrite IH; [reflexivity|]. intros k Hk. apply H. lia.
Qed.

Lemma count_from_bounds (f : Z -> bool) (n : nat) (lo : Z) :
  0 <= count_from f lo n <= Z.of_nat n.
Proof.
  revert lo; induction n as [|n IH]; intros lo; simpl count_from; [lia|].
  specialize (IH (lo + 1)). destruct (f lo); simpl Z.b2z; lia.
Qed.

Lemma count_between_empty (f : Z -> bool) (a b : Z) :
  b < a -> count_between f a b = 0.
Proof.
  intros H. unfold count_between. replace (Z.to_nat (b + 1 - a)) with O by lia.
  reflexivity.
Qed.

Lemma count_between_split (f : Z -> bool) (a m b : Z) :
  a <= m + 1 -> m <= b ->
  count_between f a b = count_between f a m + count_between f (m + 1) b.
Proof.
  intros H1 H2. unfold count_between.
  replace (Z.to_nat (b + 1 - a))
    with (Z.to_nat (m + 1 - a) + Z.to_nat (b + 1 - (m + 1)))%nat by lia.
  rewrite count_from_app. do 2 f_equal. lia.
Qed.

Lemma count_between_ext (f g : Z -> bool) (a b : Z) :
  (forall k, a <= k <= b -> f k = g k) ->
  count_between f a b = count_between g a b.
Proof.
  intros H. apply count_from_ext. intros k Hk. apply H. lia.
Qed.

Lemma count_between_shift (f : Z -> bool) (d a b : Z) :
  count_between (fun k => f (k + d)) a b = count_between f (a + d) (b + d).
Proof.
  unfold count_between. rewrite count_from_shift. f_equal. lia.
Qed.

Lemma count_between_last (f : Z -> bool) (a b : Z) :
  a <= b + 1 ->
  count_between f a (b + 1) = count_between f a b + Z.b2z (f (b + 1)).
Proof.
  intros H. rewrite (count_between_split f a b (b + 1)) by lia. f_equal.
  unfold count_between. replace (Z.to_nat (b + 1 + 1 - (b + 1))) with 1%nat by lia.
  simpl. lia.
Qed.

(** A check run over [0, n) holds at every index below [n]. *)
Lemma forallb_below (P : Z -> bool) (n : nat) :
  forallb P (map Z.of_nat (seq 0 n)) = true ->
  forall k, 0 <= k < Z.of_nat n -> P k = true.
Proof.
  intros H k Hk. rewrite forallb_forall in H. apply H.
  apply in_map_iff. exists (Z.to_nat k). split; [lia|].
  apply in_seq. lia.
Qed.

Lemma forallb_below2 (P : Z -> Z -> bool) (n m : nat) :
  forallb (fun a => forallb (P a) (map Z.of_nat (seq 0 m))) (map Z.of_nat (seq 0 n))
  = true ->
  forall a b, 0 <= a < Z.of_nat n -> 0 <= b < Z.of_nat m -> P a b = true.
Proof.
  intros H a b Ha Hb.
  apply (forallb_below (P a) m); [|exact Hb].
  apply (forallb_below (fun a => forallb (P a) (map Z.of_nat (seq 0 m))) n H a Ha).
Qed.

(** ** Vector lemmas *)

Lemma vget_vset_eq (v : list Z) (i x : Z) :
  0 <= i < Z.of_nat (length v) -> (vset v i x)@i = x.
Proof.
  intros H. unfold vget, vset. rewrite nth_lookup, list_lookup_insert_eq; [reflexivity|lia].
Qed.

Lemma vget_vset_ne (v : list Z) (i j x : Z) :
  0 <= i -> 0 <= j -> i <> j -> (vset v i x)@j = v@j.
Proof.
  intros Hi Hj H. unfold vget, vset. rewrite !nth_lookup, list_lookup_insert_ne; [reflexivity|lia].
Qed.

Lemma vset_length (v : list Z) (i x : Z) : length (vset v i x) = length v.
Proof. apply length_insert. Qed.

Lemma nth_map_const (A : Type) (l : list A) (c : Z) (n : nat) :
  (n < length l)%nat -> nth n (map (fun _ => c) l) 0 = c.
Proof.
  revert n; induction l as [|a l IH]; intros n H; simpl in *; [lia|].
  destruct n as [|n]; [reflexivity|]. apply IH. lia.
Qed.

Lemma vget_map_const (A : Type) (l : list A) (c i : Z) :
  0 <= i < Z.of_nat (length l) -> (map (fun _ => c) l)@i = c.
Proof. intros H. apply nth_map_const. lia. Qed.

(** ** Bit positions *)

Lemma shiftr6 (i : Z) : Z.shiftr i 6 = i / 64.
Proof. rewrite Z.shiftr_div_pow2 by lia. reflexivity. Qed.

Lemma land63 (i : Z) : Z.land i 63 = i mod 64.
Proof. change 63 with (Z.ones 6). rewrite Z.land_ones by lia. reflexivity. Qed.

Lemma land1 (i : Z) : Z.land i 1 = i mod 2.
Proof. change 1 with (Z.ones 1) at 1. rewrite Z.land_ones by lia. reflexivity. Qed.

Lemma test_word (s : BitSieve.t) (j k : Z) :
  0 <= k < 64 ->
  BitSieve.test s (64 * j + k) = Z.testbit (BitSieve.bits_ s)@j k.
Proof.
  intros Hk. unfold BitSieve.test. rewrite shiftr6, land63.
  replace ((64 * j + k) / 64) with j by (apply Z.div_unique with k; lia).
  replace ((64 * j + k) mod 64) with k by (apply Z.mod_unique with j; lia).
  reflexivity.
Qed.

Lemma test_div_mod (s : BitSieve.t) (i : Z) :
  BitSieve.test s i = Z.testbit (BitSieve.bits_ s)@(i / 64) (i mod 64).
Proof. unfold BitSieve.test. rewrite shiftr6, land63. reflexivity. Qed.

Lemma odd_mod64 (i : Z) : Z.odd (i mod 64) = Z.odd i.
Proof.
  rewrite (Z.div_mod i 64) at 2 by lia.
  rewrite Z.odd_add, Z.odd_mul. reflexivity.
Qed.

Lemma pattern_A_bit (k : Z) :
  0 <= k < 64 -> Z.testbit 0xAAAAAAAAAAAAAAAA k = Z.odd k.
Proof.
  intros H. apply eqb_prop.
  apply (forallb_below (fun k => eqb (Z.testbit 0xAAAAAAAAAAAAAAAA k) (Z.odd k)) 64);
    [vm_compute; reflexivity | exact H].
Qed.

Lemma pattern_5_bit (k : Z) :
  0 <= k < 64 -> Z.testbit 0x5555555555555555 k = Z.even k.
Proof.
  intros H. apply eqb_prop.
  apply (forallb_below (fun k => eqb (Z.testbit 0x5555555555555555 k) (Z.even k)) 64);
    [vm_compute; reflexivity | exact H].
Qed.

Lemma word_index_in_range (s : BitSieve.t) (i : Z) :
  BitSieve.wf s -> 0 <= i < BitSieve.size_ s ->
  0 <= i / 64 < Z.of_nat (length (BitSieve.bits_ s)).
Proof.
  intros (_ & Hlen) Hi. rewrite Hlen. unfold ceil_div.
  split; [apply Z.div_pos; lia|].
  apply Z.div_lt_upper_bound; [lia|].
  pose proof (Z.mul_div_le (BitSieve.size_ s + 64 - 1) 64 ltac:(lia)).
  pose proof (Z.mod_pos_bound (BitSieve.size_ s + 64 - 1) 64 ltac:(lia)).
  pose proof (Z.div_mod (BitSieve.size_ s + 64 - 1) 64 ltac:(lia)).
  lia.
Qed.


Lemma pattern_bit (low i : Z) :
  0 <= i ->
  Z.testbit (if Z.land low 1 =? 0 then 0xAAAAAAAAAAAAAAAA else 0x5555555555555555)
    (i mod 64) = Z.odd (low + i).
Proof.
  intros Hi. pose proof (Z.mod_pos_bound i 64 ltac:(lia)) as Hm.
  rewrite land1, Zmod_odd, Z.odd_add.
  destruct (Z.odd low); simpl Z.eqb; cbv iota.
  - rewrite pattern_5_bit by lia. rewrite <- Z.negb_odd, odd_mod64.
    destruct (Z.odd i); reflexivity.
  - rewrite pattern_A_bit by lia. rewrite odd_mod64. reflexivity.
Qed.

Lemma memset_first_word (low k : Z) :
  0 <= low <= 2 -> 0 <= k < 64 ->
  let pattern := if Z.land low 1 =? 0 then 0xAAAAAAAAAAAAAAAA else 0x5555555555555555 in
  let bit := Z.shiftl 1 (2 - low) in
  Z.testbit (Z.lor (Z.land pattern (not64 (bit - 1))) bit) k = memset_bit (low + k).
Proof.
  intros Hlow Hk.
  assert (Hc : low = 0 \/ low = 1 \/ low = 2) by lia.
  destruct Hc as [-> | [-> | ->]]; cbv zeta; apply eqb_prop;
    match goal with
    | |- eqb (Z.testbit ?w k) (memset_bit (?l + k)) = true =>
        apply (forallb_below (fun k => eqb (Z.testbit w k) (memset_bit (l + k))) 64);
          [vm_compute; reflexivity | exact Hk]
    end.
Qed.

(** The bit that [memset(low)] leaves at the position [i]. *)
Lemma memset_test (s : BitSieve.t) (low i : Z) :
  BitSieve.wf s -> 0 <= low -> 0 <= i < BitSieve.size_ s ->
  BitSieve.test (BitSieve.memset s low) i = memset_bit (low + i).
Proof.
  intros Hwf Hlow Hi.
  pose proof (word_index_in_range s i Hwf Hi) as Hw.
  pose proof (Z.mod_pos_bound i 64 ltac:(lia)) as Hm.
  rewrite test_div_mod. unfold BitSieve.memset. cbv zeta.
  destruct (low <=? 2) eqn:Hle; simpl BitSieve.bits_.
  - apply Z.leb_le in Hle.
    destruct (Z.eq_dec (i / 64) 0) as [H0 | H0].
    + rewrite H0, vget_vset_eq by (rewrite length_map; lia).
      rewrite vget_map_const by lia.
      assert (Hi64 : i mod 64 = i).
      { pose proof (Z.div_mod i 64 ltac:(lia)). lia. }
      rewrite (memset_first_word low (i mod 64)) by lia.
      rewrite Hi64. reflexivity.
    + rewrite vget_vset_ne by lia. rewrite vget_map_const by lia.
      rewrite pattern_bit by lia. unfold memset_bit.
      assert (64 <= i).
      { pose proof (Z.div_mod i 64 ltac:(lia)). lia. }
      replace (low + i =? 2) with false by (symmetry; apply Z.eqb_neq; lia).
      replace (3 <=? low + i) with true by (symmetry; apply Z.leb_le; lia).
      rewrite andb_true_r. reflexivity.
  - apply Z.leb_gt in Hle. rewrite vget_map_const by lia.
    rewrite pattern_bit by lia. unfold memset_bit.
    replace (low + i =? 2) with false by (symmetry; apply Z.eqb_neq; lia).
    replace (3 <=? low + i) with true by (symmetry; apply Z.leb_le; lia).
    rewrite andb_true_r. reflexivity.
Qed.

(** C5, amended: after [memset(low)] the bit of position [i] is set iff the
    number [low + i] is 2 or an odd number from 3 on; so for [low <= 2] the
    bits of 0 and 1 are cleared and the bit of 2 is set, and every other bit
    is set iff [low + i] is odd. *)
Theorem memset_bits (s : BitSieve.t) (low i : Z) :
  BitSieve.wf s -> 0 <= low -> 0 <= i < BitSieve.size_ s ->
  BitSieve.test (BitSieve.memset s low) i = memset_bit (low + i).
Proof.
  intros Hwf Hlow Hi.
  pose proof (word_index_in_range s i Hwf Hi) as Hw.
  pose proof (Z.mod_pos_bound i 64 ltac:(lia)) as Hm.
  rewrite test_div_mod. unfold BitSieve.memset. cbv zeta.
  destruct (low <=? 2) eqn:Hle; simpl BitSieve.bits_.
  - apply Z.leb_le in Hle.
    destruct (Z.eq_dec (i / 64) 0) as [H0 | H0].
    + rewrite H0, vget_vset_eq by (rewrite length_map; lia).
      rewrite vget_map_const by lia.
      assert (Hi64 : i mod 64 = i).
      { pose proof (Z.div_mod i 64 ltac:(lia)). lia. }
      rewrite (memset_first_word low (i mod 64)) by lia.
      rewrite Hi64. reflexivity.
    + rewrite vget_vset_ne by lia. rewrite vget_map_const by lia.
      rewrite pattern_bit by lia. unfold memset_bit.
      assert (64 <= i).
      { pose proof (Z.div_mod i 64 ltac:(lia)). lia. }
      replace (low + i =? 2) with false by (symmetry; apply Z.eqb_neq; lia).
      replace (3 <=? low + i) with true by (symmetry; apply Z.leb_le; lia).
      rewrite andb_true_r. reflexivity.
  - apply Z.leb_gt in Hle. rewrite vget_map_const by lia.
    rewrite pattern_bit by lia. unfold memset_bit.
    replace (low + i =? 2) with false by (symmetry; apply Z.eqb_neq; lia).
    replace (3 <=? low + i) with true by (symmetry; apply Z.leb_le; lia).
    rewrite andb_true_r. reflexivity.
Qed.

Lemma make_wf (size : Z) : 0 <= size -> BitSieve.wf (BitSieve.make size).
Proof.
  intros H. unfold BitSieve.wf, BitSieve.make; simpl. split; [exact H|].
  rewrite repeat_length. apply Z2Nat.id. unfold ceil_div. apply Z.div_pos; lia.
Qed.

Lemma memset_bits_witness :
  BitSieve.test (BitSieve.memset (BitSieve.make 100) 1) 1 = memset_bit (1 + 1).
Proof.
  apply (memset_bits (BitSieve.make 100) 1 1); [apply make_wf; lia | lia | simpl; lia].
Defined.

(** C5 as worded fails for [low = 1]: the bit of the odd number 1 is
    cleared. *)
Lemma memset_claim_fails : ~ memset_claim (BitSieve.make 64) 1.
Proof.
  intros H. specialize (H 0 ltac:(simpl; lia)). vm_compute in H. discriminate H.
Qed.

(** ** Masks *)

Lemma ones64_bit (k : Z) : 0 <= k -> Z.testbit ones64 k = (k <? 64).
Proof.
  intros H. change ones64 with (Z.ones 64).
  destruct (Z.ltb_spec k 64).
  - apply Z.ones_spec_low. lia.
  - apply Z.ones_spec_high. lia.
Qed.

Lemma mask1_bit (a k : Z) :
  0 <= a < 64 -> 0 <= k < 64 ->
  Z.testbit (u64 (Z.shiftl ones64 a)) k = (a <=? k).
Proof.
  intros Ha Hk. unfold u64. rewrite Z.mod_pow2_bits_low by lia.
  rewrite Z.shiftl_spec by lia.
  destruct (Z.leb_spec a k).
  - rewrite ones64_bit by lia. apply Z.ltb_lt. lia.
  - apply Z.testbit_neg_r. lia.
Qed.

Lemma mask2_bit (b k : Z) :
  0 <= b < 64 -> 0 <= k < 64 ->
  Z.testbit (Z.shiftr ones64 (63 - b)) k = (k <=? b).
Proof.
  intros Hb Hk. rewrite Z.shiftr_spec by lia. rewrite ones64_bit by lia.
  destruct (Z.leb_spec k b); [apply Z.ltb_lt | apply Z.ltb_ge]; lia.
Qed.

Lemma popcount64_masked (w m a b : Z) :
  0 <= a -> b < 64 -> a <= b + 1 ->
  (forall k, 0 <= k < 64 -> Z.testbit m k = (a <=? k) && (k <=? b)) ->
  popcount64 (Z.land w m) = count_between (Z.testbit w) a b.
Proof.
  intros Ha Hb Hab Hm. unfold popcount64.
  change (count_from (Z.testbit (Z.land w m)) 0 64)
    with (count_between (Z.testbit (Z.land w m)) 0 63).
  destruct (Z.eq_dec a 64) as [-> | Hne].
  { rewrite (count_between_empty _ 64 b) by lia.
    apply count_from_none. intros k Hk. rewrite Z.land_spec, Hm by lia.
    replace (64 <=? k) with false by (symmetry; apply Z.leb_gt; lia).
    rewrite andb_false_r. reflexivity. }
  rewrite (count_between_split _ 0 (a - 1) 63) by lia.
  rewrite (count_between_split _ (a - 1 + 1) b 63) by lia.
  replace (a - 1 + 1) with a by lia.
  assert (H1 : count_between (Z.testbit (Z.land w m)) 0 (a - 1) = 0).
  { apply count_from_none. intros k Hk. rewrite Z.land_spec, Hm by lia.
    replace (a <=? k) with false by (symmetry; apply Z.leb_gt; lia).
    rewrite andb_false_r. reflexivity. }
  assert (H2 : count_between (Z.testbit (Z.land w m)) (b + 1) 63 = 0).
  { apply count_from_none. intros k Hk. rewrite Z.land_spec, Hm by lia.
    replace (k <=? b) with false by (symmetry; apply Z.leb_gt; lia).
    rewrite !andb_false_r. reflexivity. }
  rewrite H1, H2.
  rewrite (count_between_ext _ (Z.testbit w) a b); [lia|].
  intros k Hk. rewrite Z.land_spec, Hm by lia.
  replace (a <=? k) with true by (symmetry; apply Z.leb_le; lia).
  replace (k <=? b) with true by (symmetry; apply Z.leb_le; lia).
  apply andb_true_r.
Qed.

(** ** Bits of one word and of a run of words *)

Lemma ones_between_word (s : BitSieve.t) (j a b : Z) :
  0 <= a -> b < 64 ->
  BitSieve.ones_between s (64 * j + a) (64 * j + b)
  = count_between (Z.testbit (BitSieve.bits_ s)@j) a b.
Proof.
  intros Ha Hb. unfold BitSieve.ones_between.
  replace (64 * j + a) with (a + 64 * j) by lia.
  replace (64 * j + b) with (b + 64 * j) by lia.
  rewrite <- count_between_shift. apply count_between_ext.
  intros k Hk. replace (k + 64 * j) with (64 * j + k) by lia.
  apply test_word. lia.
Qed.

Lemma for_up_sum (g : Z -> Z) (n : nat) (i acc : Z) :
  for_up n i (fun i acc => acc + g i) acc
  = acc + for_up n i (fun i acc => acc + g i) 0.
Proof.
  revert i acc; induction n as [|n IH]; intros i acc; simpl; [lia|].
  rewrite IH. rewrite (IH _ (0 + g i)). lia.
Qed.

Lemma full_words (s : BitSieve.t) (n : nat) (j : Z) :
  for_up n j (fun i acc => acc + popcount64 (BitSieve.bits_ s)@i) 0
  = BitSieve.ones_between s (64 * j) (64 * (j + Z.of_nat n) - 1).
Proof.
  revert j; induction n as [|n IH]; intros j.
  - simpl. unfold BitSieve.ones_between. rewrite count_between_empty by lia. reflexivity.
  - simpl for_up. rewrite for_up_sum, IH.
    unfold BitSieve.ones_between.
    rewrite (count_between_split _ (64 * j) (64 * j + 63) (64 * (j + Z.of_nat (S n)) - 1)) by lia.
    replace (64 * j + 63 + 1) with (64 * (j + 1)) by lia.
    replace (j + 1 + Z.of_nat n) with (j + Z.of_nat (S n)) by lia.
    f_equal. simpl.
    pose proof (ones_between_word s j 0 63 ltac:(lia) ltac:(lia)) as H.
    unfold BitSieve.ones_between in H. rewrite Z.add_0_r in H. rewrite H.
    reflexivity.
Qed.

Lemma count_edges_same (s : BitSieve.t) (start stop : Z) :
  0 <= start <= stop -> start / 64 = stop / 64 ->
  BitSieve.count_edges s start stop = BitSieve.ones_between s start stop.
Proof.
  intros H Heq. unfold BitSieve.count_edges. cbv zeta.
  rewrite !shiftr6, !land63, Heq, Z.eqb_refl.
  pose proof (Z.mod_pos_bound start 64 ltac:(lia)).
  pose proof (Z.mod_pos_bound stop 64 ltac:(lia)).
  pose proof (Z.div_mod start 64 ltac:(lia)).
  pose proof (Z.div_mod stop 64 ltac:(lia)).
  rewrite (popcount64_masked _ _ (start mod 64) (stop mod 64)); try lia.
  - rewrite <- ones_between_word by lia. f_equal; lia.
  - intros k Hk. rewrite Z.land_spec, mask1_bit, mask2_bit by lia. reflexivity.
Qed.

Lemma count_edges_apart (s : BitSieve.t) (start stop : Z) :
  0 <= start -> start / 64 < stop / 64 ->
  BitSieve.count_edges s start stop
  = BitSieve.ones_between s start (64 * (start / 64) + 63)
    + BitSieve.ones_between s (64 * (stop / 64)) stop.
Proof.
  intros H Hlt. unfold BitSieve.count_edges. cbv zeta.
  rewrite !shiftr6, !land63.
  replace (start / 64 =? stop / 64) with false by (symmetry; apply Z.eqb_neq; lia).
  pose proof (Z.mod_pos_bound start 64 ltac:(lia)).
  pose proof (Z.mod_pos_bound stop 64 ltac:(lia)).
  pose proof (Z.div_mod start 64 ltac:(lia)).
  pose proof (Z.div_mod stop 64 ltac:(lia)).
  rewrite (popcount64_masked _ _ (start mod 64) 63); try lia.
  - rewrite (popcount64_masked _ _ 0 (stop mod 64)); try lia.
    + rewrite <- !ones_between_word by lia. f_equal; f_equal; lia.
    + intros k Hk. rewrite mask2_bit by lia.
      replace (0 <=? k) with true by (symmetry; apply Z.leb_le; lia). reflexivity.
  - intros k Hk. rewrite mask1_bit by lia.
    replace (k <=? 63) with true by (symmetry; apply Z.leb_le; lia).
    rewrite andb_true_r. reflexivity.
Qed.

Lemma count_ones_between (s : BitSieve.t) (start stop : Z) :
  0 <= start ->
  BitSieve.count s start stop = BitSieve.ones_between s start stop.
Proof.
  intros Hstart. unfold BitSieve.count.
  destruct (Z.gtb_spec start stop) as [Hgt | Hle].
  { unfold BitSieve.ones_between. rewrite count_between_empty by lia. reflexivity. }
  cbv zeta. rewrite !shiftr6.
  assert (Hdiv : start / 64 <= stop / 64) by (apply Z.div_le_mono; lia).
  destruct (Z.eq_dec (start / 64) (stop / 64)) as [Heq | Hne].
  - unfold for_range. replace (Z.to_nat (stop / 64 - (start / 64 + 1))) with O by lia.
    simpl. apply count_edges_same; lia.
  - unfold for_range. rewrite for_up_sum, full_words.
    rewrite count_edges_apart by lia.
    rewrite Z2Nat.id by lia.
    pose proof (Z.mod_pos_bound start 64 ltac:(lia)).
    pose proof (Z.mod_pos_bound stop 64 ltac:(lia)).
    pose proof (Z.div_mod start 64 ltac:(lia)).
    pose proof (Z.div_mod stop 64 ltac:(lia)).
    unfold BitSieve.ones_between.
    rewrite (count_between_split _ start (64 * (start / 64) + 63) stop) by lia.
    rewrite (count_between_split _ (64 * (start / 64) + 63 + 1) (64 * (stop / 64) - 1) stop) by lia.
    replace (64 * (start / 64) + 63 + 1) with (64 * (start / 64 + 1)) by lia.
    replace (start / 64 + 1 + (stop / 64 - (start / 64 + 1))) with (stop / 64) by lia.
    replace (64 * (stop / 64) - 1 + 1) with (64 * (stop / 64)) by lia.
    lia.
Qed.

(** C6: [count(start, stop)] is the number of 1 bits at the positions of the
    inclusive range [start, stop], and 0 when [start > stop]. *)
Theorem count_correct (s : BitSieve.t) (start stop : Z) :
  0 <= start -> 0 <= stop < BitSieve.size_ s ->
  BitSieve.count s start stop = BitSieve.ones_between s start stop
  /\ (start > stop -> BitSieve.count s start stop = 0).
Proof.
  intros Hstart Hstop. split; [apply count_ones_between; exact Hstart|].
  intros Hgt. unfold BitSieve.count.
  destruct (Z.gtb_spec start stop); [reflexivity | lia].
Qed.

Lemma count_correct_witness :
  BitSieve.count (BitSieve.memset (BitSieve.make 200) 3) 5 130
  = BitSieve.ones_between (BitSieve.memset (BitSieve.make 200) 3) 5 130
  /\ (5 > 130 ->
      BitSieve.count (BitSieve.memset (BitSieve.make 200) 3) 5 130 = 0).
Proof.
  apply (count_correct (BitSieve.memset (BitSieve.make 200) 3) 5 130);
    [lia | vm_compute; split; [discriminate | reflexivity]].
Defined.

(** ** Stride loops *)

Lemma stride_up_ind {A : Type} (P : Z -> A -> Prop) (G : Z -> Prop)
    (step : Z) (body : Z -> A -> A) (n : nat) (k : Z) (a : A) :
  (forall i, 0 <= i < Z.of_nat n -> G (k + i * step)) ->
  (forall k a, G k -> P k a -> P (k + step) (body k a)) ->
  P k a ->
  P (stride_up n k step body a).1 (stride_up n k step body a).2
  /\ (stride_up n k step body a).1 = k + Z.of_nat n * step.
Proof.
  revert k a; induction n as [|n IH]; intros k a HG Hstep HP.
  - simpl. split; [exact HP | lia].
  - simpl stride_up.
    destruct (IH (k + step) (body k a)) as [H1 H2].
    + intros i Hi. replace (k + step + i * step) with (k + (i + 1) * step) by lia.
      apply HG. lia.
    + exact Hstep.
    + apply Hstep; [|exact HP]. replace k with (k + 0 * step) by lia. apply HG. lia.
    + split; [exact H1 | rewrite H2; lia].
Qed.

(** The rule of the stride loop: an invariant that every pass keeps holds on
    exit, and the loop leaves with the first [k >= hi] of its progression. *)
Lemma for_stride_ind {A : Type} (P : Z -> A -> Prop)
    (k0 hi step : Z) (body : Z -> A -> A) (a : A) (k' : Z) (a' : A) :
  for_stride k0 hi step body a = Some (k', a') ->
  P k0 a ->
  (forall k a, k0 <= k < hi -> 0 < step -> P k a -> P (k + step) (body k a)) ->
  P k' a' /\ hi <= k' /\ (k0 < hi -> k' < hi + step) /\ (hi <= k0 -> k' = k0).
Proof.
  unfold for_stride. intros Hrun HP Hstep.
  destruct (Z.leb_spec hi k0) as [Hle | Hlt].
  { inversion Hrun; subst. split; [exact HP | lia]. }
  destruct (Z.leb_spec step 0) as [Hs | Hs]; [discriminate|].
  set (n := Z.to_nat ((hi - k0 + step - 1) / step)) in *.
  assert (Hn : Z.of_nat n = (hi - k0 + step - 1) / step).
  { unfold n. apply Z2Nat.id. apply Z.div_pos; lia. }
  pose proof (Z.div_mod (hi - k0 + step - 1) step ltac:(lia)) as Hdm.
  pose proof (Z.mod_pos_bound (hi - k0 + step - 1) step ltac:(lia)) as Hmb.
  destruct (stride_up_ind P (fun k => k0 <= k < hi) step body n k0 a) as [H1 H2].
  - intros i Hi. nia.
  - intros k a0 Hk. apply Hstep; [exact Hk | exact Hs].
  - exact HP.
  - inversion Hrun as [Heq]. rewrite Heq in H1, H2. simpl in H1, H2.
    split; [exact H1|]. nia.
Qed.

Lemma for_stride_total {A : Type} (k0 hi step : Z) (body : Z -> A -> A) (a : A) :
  0 < step -> exists r, for_stride k0 hi step body a = Some r.
Proof.
  intros Hs. unfold for_stride.
  destruct (hi <=? k0); [eexists; reflexivity|].
  replace (step <=? 0) with false by (symmetry; apply Z.leb_gt; lia).
  eexists; reflexivity.
Qed.

(** ** Clearing one bit *)

Lemma unset_bit_nth (k : Z) :
  0 <= k < 64 -> BitSieve.unset_bit_@k = not64 (Z.shiftl 1 k).
Proof.
  intros H. apply Z.eqb_eq.
  apply (forallb_below
           (fun k => BitSieve.unset_bit_@k =? not64 (Z.shiftl 1 k)) 64);
    [vm_compute; reflexivity | exact H].
Qed.

Lemma not64_shiftl_bit (a k : Z) :
  0 <= a < 64 -> 0 <= k < 64 ->
  Z.testbit (not64 (Z.shiftl 1 a)) k = negb (k =? a).
Proof.
  intros Ha Hk. unfold not64. rewrite Z.lxor_spec, ones64_bit by lia.
  replace (k <? 64) with true by (symmetry; apply Z.ltb_lt; lia).
  rewrite xorb_true_r. f_equal.
  rewrite Z.shiftl_1_l, Z.pow2_bits_eqb by lia. apply Z.eqb_sym.
Qed.

Lemma test_unset (s : BitSieve.t) (pos i : Z) :
  0 <= i -> 0 <= pos -> pos / 64 < Z.of_nat (length (BitSieve.bits_ s)) ->
  BitSieve.test (BitSieve.unset s pos) i = BitSieve.test s i && negb (i =? pos).
Proof.
  intros Hi Hpos Hlen. rewrite !test_div_mod. unfold BitSieve.unset.
  simpl BitSieve.bits_. rewrite shiftr6, land63.
  pose proof (Z.mod_pos_bound i 64 ltac:(lia)).
  pose proof (Z.mod_pos_bound pos 64 ltac:(lia)).
  pose proof (Z.div_mod i 64 ltac:(lia)).
  pose proof (Z.div_mod pos 64 ltac:(lia)).
  assert (0 <= pos / 64) by (apply Z.div_pos; lia).
  assert (0 <= i / 64) by (apply Z.div_pos; lia).
  destruct (Z.eq_dec (i / 64) (pos / 64)) as [Heq | Hne].
  - rewrite Heq, vget_vset_eq by lia.
    rewrite Z.land_spec, unset_bit_nth, not64_shiftl_bit by lia.
    f_equal. f_equal.
    destruct (Z.eqb_spec (i mod 64) (pos mod 64)), (Z.eqb_spec i pos); try reflexivity; lia.
  - rewrite vget_vset_ne by lia.
    replace (i =? pos) with false by (symmetry; apply Z.eqb_neq; congruence).
    rewrite andb_true_r. reflexivity.
Qed.

Lemma count_between_single (f : Z -> bool) (p : Z) :
  count_between f p p = Z.b2z (f p).
Proof.
  unfold count_between. replace (Z.to_nat (p + 1 - p)) with 1%nat by lia.
  simpl. lia.
Qed.

Lemma count_between_remove (f : Z -> bool) (p a b : Z) :
  count_between (fun i => f i && negb (i =? p)) a b
  = count_between f a b - (if (a <=? p) && (p <=? b) then Z.b2z (f p) else 0).
Proof.
  destruct (Z.leb_spec a p) as [Hap | Hap]; simpl andb.
  - destruct (Z.leb_spec p b) as [Hpb | Hpb].
    + rewrite (count_between_split _ a (p - 1) b) by lia.
      rewrite (count_between_split _ (p - 1 + 1) p b) by lia.
      rewrite (count_between_split f a (p - 1) b) by lia.
      rewrite (count_between_split f (p - 1 + 1) p b) by lia.
      replace (p - 1 + 1) with p by lia.
      rewrite (count_between_ext _ f a (p - 1)).
      2:{ intros k Hk. replace (k =? p) with false by (symmetry; apply Z.eqb_neq; lia).
          apply andb_true_r. }
      rewrite (count_between_ext _ f (p + 1) b).
      2:{ intros k Hk. replace (k =? p) with false by (symmetry; apply Z.eqb_neq; lia).
          apply andb_true_r. }
      rewrite !count_between_single, Z.eqb_refl, andb_false_r. simpl. lia.
    + rewrite (count_between_ext _ f a b); [lia|].
      intros k Hk. replace (k =? p) with false by (symmetry; apply Z.eqb_neq; lia).
      apply andb_true_r.
  - rewrite (count_between_ext _ f a b); [lia|].
    intros k Hk. replace (k =? p) with false by (symmetry; apply Z.eqb_neq; lia).
    apply andb_true_r.
Qed.

Lemma ones_between_unset (s : BitSieve.t) (pos a b : Z) :
  0 <= a -> 0 <= pos -> pos / 64 < Z.of_nat (length (BitSieve.bits_ s)) ->
  BitSieve.ones_between (BitSieve.unset s pos) a b
  = BitSieve.ones_between s a b
    - (if (a <=? pos) && (pos <=? b) then Z.b2z (BitSieve.test s pos) else 0).
Proof.
  intros Ha Hpos Hlen. unfold BitSieve.ones_between.
  rewrite <- count_between_remove. apply count_between_ext.
  intros k Hk. apply test_unset; lia.
Qed.

(** ** The counters *)

Lemma block_width_pos (S : Z) : 0 < TosCounters.block_width S.
Proof. unfold TosCounters.block_width. lia. Qed.

Lemma for_up_fill (g : Z -> Z) (n : nat) (i0 : Z) (c : list Z) :
  0 <= i0 -> i0 + Z.of_nat n <= Z.of_nat (length c) ->
  length (for_up n i0 (fun j c => vset c j (g j)) c) = length c
  /\ forall j, 0 <= j ->
       (for_up n i0 (fun j c => vset c j (g j)) c)@j
       = if (i0 <=? j) && (j <? i0 + Z.of_nat n) then g j else c@j.
Proof.
  revert i0 c; induction n as [|n IH]; intros i0 c Hi Hlen.
  - simpl. split; [reflexivity|]. intros j Hj.
    zbool.
  - simpl for_up.
    destruct (IH (i0 + 1) (vset c i0 (g i0))) as [H1 H2];
      [lia | rewrite vset_length; lia |].
    split; [rewrite H1; apply vset_length|].
    intros j Hj. rewrite H2 by lia.
    destruct (Z.eq_dec j i0) as [-> | Hne].
    + replace (i0 + 1 <=? i0) with false by (symmetry; apply Z.leb_gt; lia).
      simpl. rewrite Z.leb_refl.
      replace (i0 <? i0 + Z.of_nat (S n)) with true by (symmetry; apply Z.ltb_lt; lia).
      simpl. apply vget_vset_eq. lia.
    + rewrite vget_vset_ne by lia.
      zbool.
Qed.

Lemma blocks_le_size (S : Z) :
  0 <= S -> 0 <= ceil_div S (TosCounters.block_width S) <= S.
Proof.
  intros HS. pose proof (block_width_pos S) as Hw. unfold ceil_div.
  split; [apply Z.div_pos; lia|].
  destruct (Z.eq_dec S 0) as [-> | Hne].
  - rewrite Z.div_small; lia.
  - apply Z.div_le_upper_bound; [lia|].
    assert (0 <= (TosCounters.block_width S - 1) * (S - 1)) by (apply Z.mul_nonneg_nonneg; lia).
    lia.
Qed.

Lemma block_in_range (S w j : Z) :
  0 < w -> (j * w < S <-> j < ceil_div S w).
Proof.
  intros Hw. unfold ceil_div.
  pose proof (Z.div_mod (S + w - 1) w ltac:(lia)).
  pose proof (Z.mod_pos_bound (S + w - 1) w ltac:(lia)).
  split; intros; nia.
Qed.

Lemma cnt_finit_agrees (sieve : BitSieve.t) (counters : list Z) :
  0 <= BitSieve.size sieve ->
  Z.of_nat (length counters) = BitSieve.size sieve ->
  counters_agree sieve
    (TosCounters.cnt_finit sieve counters (BitSieve.size sieve)).
Proof.
  intros HS Hlen. unfold counters_agree, TosCounters.cnt_finit. cbv zeta.
  set (S := BitSieve.size sieve) in *. set (w := TosCounters.block_width S).
  pose proof (block_width_pos S) as Hw. fold w in Hw.
  pose proof (blocks_le_size S HS) as Hb. fold w in Hb.
  unfold for_range. rewrite Z.sub_0_r.
  destruct (for_up_fill
              (fun j => BitSieve.count sieve (j * w) (Z.min ((j + 1) * w) S - 1))
              (Z.to_nat (ceil_div S w)) 0 counters) as [H1 H2]; [lia | lia |].
  split; [rewrite H1; exact Hlen|].
  intros j Hj Hjw. rewrite H2 by lia.
  apply (block_in_range S w j Hw) in Hjw.
  replace (0 <=? j) with true by (symmetry; apply Z.leb_le; lia).
  replace (j <? 0 + Z.of_nat (Z.to_nat (ceil_div S w))) with true
    by (symmetry; apply Z.ltb_lt; lia).
  simpl. apply count_ones_between. nia.
Qed.

Lemma word_index_pos (s : BitSieve.t) (pos : Z) :
  BitSieve.wf s -> 0 <= pos < BitSieve.size s ->
  pos / 64 < Z.of_nat (length (BitSieve.bits_ s)).
Proof.
  intros Hwf Hpos. destruct Hwf as (_ & Hlen). rewrite Hlen.
  unfold ceil_div, BitSieve.size in *.
  pose proof (Z.div_mod pos 64 ltac:(lia)).
  pose proof (Z.mod_pos_bound pos 64 ltac:(lia)).
  pose proof (Z.div_mod (BitSieve.size_ s + 64 - 1) 64 ltac:(lia)).
  pose proof (Z.mod_pos_bound (BitSieve.size_ s + 64 - 1) 64 ltac:(lia)).
  lia.
Qed.

Lemma unset_wf (s : BitSieve.t) (pos : Z) :
  BitSieve.wf s -> BitSieve.wf (BitSieve.unset s pos).
Proof.
  intros (H0 & Hlen). unfold BitSieve.wf, BitSieve.unset. simpl.
  split; [exact H0|]. rewrite vset_length. exact Hlen.
Qed.

(** Crossing off one set bit and telling the counters keeps them in step. *)
Lemma update_agrees (sieve : BitSieve.t) (counters : list Z) (pos : Z) :
  BitSieve.wf sieve -> 0 <= pos < BitSieve.size sieve ->
  BitSieve.test sieve pos = true ->
  counters_agree sieve counters ->
  counters_agree (BitSieve.unset sieve pos)
    (TosCounters.cnt_update counters pos (BitSieve.size sieve)).
Proof.
  intros Hwf Hpos Hbit [Hlen Hcnt].
  pose proof (word_index_pos sieve pos Hwf Hpos) as Hidx.
  unfold counters_agree, TosCounters.cnt_update in *. cbv zeta in *.
  change (BitSieve.size (BitSieve.unset sieve pos)) with (BitSieve.size sieve).
  set (S := BitSieve.size sieve) in *. set (w := TosCounters.block_width S) in *.
  pose proof (block_width_pos S) as Hw. fold w in Hw.
  pose proof (Z.div_mod pos w ltac:(lia)) as Hdm.
  pose proof (Z.mod_pos_bound pos w ltac:(lia)) as Hmb.
  assert (Hq : 0 <= pos / w) by (apply Z.div_pos; lia).
  split; [rewrite vset_length; exact Hlen|].
  intros j Hj Hjw.
  rewrite ones_between_unset by (try exact Hidx; nia).
  rewrite Hbit. simpl Z.b2z.
  destruct (Z.eq_dec j (pos / w)) as [-> | Hne].
  - rewrite vget_vset_eq by nia. rewrite Hcnt by lia.
    replace ((pos / w * w <=? pos) && (pos <=? Z.min ((pos / w + 1) * w) S - 1))
      with true; [reflexivity|].
    symmetry. apply andb_true_iff. split; apply Z.leb_le; nia.
  - rewrite vget_vset_ne by lia. rewrite Hcnt by lia.
    replace ((j * w <=? pos) && (pos <=? Z.min ((j + 1) * w) S - 1)) with false;
      [lia|].
    symmetry. apply andb_false_iff.
    destruct (Z_lt_le_dec j (pos / w)).
    + right. apply Z.leb_gt. nia.
    + left. apply Z.leb_gt. nia.
Qed.

Lemma full_blocks_sum (sieve : BitSieve.t) (counters : list Z) (n : nat) (i0 acc : Z) :
  counters_agree sieve counters ->
  0 <= i0 ->
  (i0 + Z.of_nat n) * TosCounters.block_width (BitSieve.size sieve)
    <= BitSieve.size sieve ->
  for_up n i0 (fun i sum => sum + counters@i) acc
  = acc + BitSieve.ones_between sieve
            (i0 * TosCounters.block_width (BitSieve.size sieve))
            ((i0 + Z.of_nat n) * TosCounters.block_width (BitSieve.size sieve) - 1).
Proof.
  intros [Hlen Hcnt]. cbv zeta in Hcnt.
  set (S := BitSieve.size sieve) in *. set (w := TosCounters.block_width S) in *.
  pose proof (block_width_pos S) as Hw. fold w in Hw.
  revert i0 acc; induction n as [|n IH]; intros i0 acc Hi Hle.
  - simpl. unfold BitSieve.ones_between. rewrite count_between_empty by lia. lia.
  - simpl for_up. rewrite IH by lia. rewrite Hcnt by nia.
    replace (Z.min ((i0 + 1) * w) S) with ((i0 + 1) * w) by nia.
    unfold BitSieve.ones_between.
    rewrite (count_between_split _ (i0 * w) ((i0 + 1) * w - 1)
               ((i0 + Z.of_nat (Datatypes.S n)) * w - 1)) by nia.
    replace ((i0 + 1) * w - 1 + 1) with ((i0 + 1) * w) by lia.
    replace (i0 + 1 + Z.of_nat n) with (i0 + Z.of_nat (Datatypes.S n)) by lia.
    lia.
Qed.

(** With counters that agree with the sieve, the query is the number of 1
    bits up to the position. *)
Lemma query_agrees (sieve : BitSieve.t) (counters : list Z) (pos : Z) :
  counters_agree sieve counters ->
  0 <= pos < BitSieve.size sieve ->
  TosCounters.cnt_query sieve counters pos = BitSieve.ones_between sieve 0 pos.
Proof.
  intros Hag Hpos. unfold TosCounters.cnt_query. cbv zeta.
  set (S := BitSieve.size sieve) in *. set (w := TosCounters.block_width S) in *.
  pose proof (block_width_pos S) as Hw. fold w in Hw.
  pose proof (Z.div_mod pos w ltac:(lia)) as Hdm.
  pose proof (Z.mod_pos_bound pos w ltac:(lia)) as Hmb.
  assert (Hq : 0 <= pos / w) by (apply Z.div_pos; lia).
  unfold for_range. rewrite Z.sub_0_r.
  rewrite (full_blocks_sum sieve counters _ 0 0 Hag) by (fold S; fold w; nia).
  rewrite count_ones_between by nia.
  fold S. fold w. rewrite Z2Nat.id by lia.
  unfold BitSieve.ones_between.
  rewrite (count_between_split _ 0 (pos / w * w - 1) pos) by nia.
  replace (0 * w) with 0 by lia. replace (0 + pos / w) with (pos / w) by lia.
  replace (pos / w * w - 1 + 1) with (pos / w * w) by lia. lia.
Qed.

Lemma cross_off_in_step (prime low high next_multiple : Z)
    (sieve : BitSieve.t) (counters : list Z)
    (k : Z) (sieve' : BitSieve.t) (counters' : list Z) :
  low <= next_multiple -> high <= low + BitSieve.size sieve ->
  Lmo.cross_off prime low high next_multiple sieve counters
    = Some (k, sieve', counters') ->
  in_step (BitSieve.size sieve) (sieve, counters) ->
  in_step (BitSieve.size sieve) (sieve', counters').
Proof.
  intros Hlow Hhigh Hrun Hin. unfold Lmo.cross_off in Hrun. cbv zeta in Hrun.
  destruct (for_stride next_multiple high (prime * 2) _ (sieve, counters))
    as [[k1 [sv1 cnt1]]|] eqn:Hloop; [|discriminate].
  simpl in Hrun. inversion Hrun; subst k1 sv1 cnt1. clear Hrun.
  apply (for_stride_ind
           (fun k st => low <= k /\ in_step (BitSieve.size sieve) st))
    in Hloop.
  - tauto.
  - split; [lia | exact Hin].
  - intros k0 [sv cnt] Hk Hstep [Hlk (Hwf & Hsize & Hag)]. simpl in *.
    split; [lia|].
    destruct (BitSieve.test sv (k0 - low)) eqn:Hbit.
    + unfold in_step; simpl. split; [apply unset_wf; exact Hwf|].
      split; [exact Hsize|].
      rewrite <- Hsize. apply update_agrees; try assumption. lia.
    + unfold in_step; simpl. tauto.
Qed.

Lemma cross_off_total (prime low high next_multiple : Z)
    (sieve : BitSieve.t) (counters : list Z) :
  0 < prime ->
  exists r, Lmo.cross_off prime low high next_multiple sieve counters = Some r.
Proof.
  intros Hp. unfold Lmo.cross_off. cbv zeta.
  match goal with
  | |- context [for_stride ?a ?b ?c ?f ?s] =>
      destruct (for_stride_total a b c f s) as [[k [sv cnt]] Hr]; [lia|]
  end.
  rewrite Hr. simpl. eexists; reflexivity.
Qed.

Lemma cross_off_calls_in_step (calls : list (Z * Z * Z * Z)) (S : Z)
    (sieve : BitSieve.t) (counters : list Z) :
  List.Forall (call_in_segment S) calls ->
  in_step S (sieve, counters) ->
  exists sieve' counters',
    cross_off_calls calls sieve counters = Some (sieve', counters')
    /\ in_step S (sieve', counters').
Proof.
  revert sieve counters; induction calls as [|[[[prime low] high] nm] calls IH];
    intros sieve counters Hcalls Hin.
  - exists sieve, counters. split; [reflexivity | exact Hin].
  - inversion Hcalls as [|? ? Hc Hrest]; subst.
    unfold call_in_segment in Hc. destruct Hc as (Hp & Hlow & Hhigh).
    destruct (cross_off_total prime low high nm sieve counters Hp)
      as [[[k sv] cnt] Hrun].
    assert (Hsize : BitSieve.size sieve = S) by (destruct Hin as (_ & H & _); exact H).
    assert (Hin' : in_step S (sv, cnt)).
    { rewrite <- Hsize. apply (cross_off_in_step prime low high nm sieve counters k);
        try assumption; rewrite Hsize; assumption. }
    destruct (IH sv cnt Hrest Hin') as (sieve' & counters' & Hrun' & Hin'').
    exists sieve', counters'. split; [|exact Hin''].
    simpl. rewrite Hrun. simpl. exact Hrun'.
Qed.

(** C3: after [cnt_finit], and after any run of [cross_off] calls on the
    segment, the query at a position is the number of 1 bits of the sieve at
    the positions up to it. *)
Theorem cnt_query_counts_bits (sieve : BitSieve.t) (counters : list Z)
    (calls : list (Z * Z * Z * Z)) :
  BitSieve.wf sieve ->
  Z.of_nat (length counters) = BitSieve.size sieve ->
  List.Forall (call_in_segment (BitSieve.size sieve)) calls ->
  exists sieve' counters',
    cross_off_calls calls sieve
      (TosCounters.cnt_finit sieve counters (BitSieve.size sieve))
    = Some (sieve', counters')
    /\ forall i, 0 <= i < BitSieve.size sieve ->
         TosCounters.cnt_query sieve' counters' i
         = BitSieve.ones_between sieve' 0 i.
Proof.
  intros Hwf Hlen Hcalls.
  destruct (cross_off_calls_in_step calls (BitSieve.size sieve) sieve
              (TosCounters.cnt_finit sieve counters (BitSieve.size sieve)) Hcalls)
    as (sieve' & counters' & Hrun & (Hwf' & Hsize & Hag)).
  - split; [exact Hwf|]. split; [reflexivity|].
    apply cnt_finit_agrees; [destruct Hwf; assumption | exact Hlen].
  - exists sieve', counters'. split; [exact Hrun|].
    intros i Hi. apply query_agrees; [exact Hag|]. simpl in Hsize. lia.
Qed.

Lemma cnt_query_counts_bits_witness :
  exists sieve' counters',
    cross_off_calls [(3, 1, 65, 3); (5, 1, 65, 5)]
      (BitSieve.memset (BitSieve.make 64) 1)
      (TosCounters.cnt_finit (BitSieve.memset (BitSieve.make 64) 1)
         (repeat 0 64) (BitSieve.size (BitSieve.memset (BitSieve.make 64) 1)))
    = Some (sieve', counters')
    /\ forall i, 0 <= i < BitSieve.size (BitSieve.memset (BitSieve.make 64) 1) ->
         TosCounters.cnt_query sieve' counters' i
         = BitSieve.ones_between sieve' 0 i.
Proof.
  apply (cnt_query_counts_bits (BitSieve.memset (BitSieve.make 64) 1)
           (repeat 0 64) [(3, 1, 65, 3); (5, 1, 65, 5)]).
  - split; [vm_compute; discriminate | reflexivity].
  - reflexivity.
  - repeat constructor; vm_compute; congruence.
Defined.

(** ** init_next_multiples *)

Lemma for_up_push (g : Z -> Z) (n : nat) (i0 : Z) (v : list Z) :
  Z.of_nat (length v) = i0 ->
  length (for_up n i0 (fun b next => next ++ [g b]) v) = (length v + n)%nat
  /\ forall j, 0 <= j ->
       (for_up n i0 (fun b next => next ++ [g b]) v)@j
       = if (i0 <=? j) && (j <? i0 + Z.of_nat n) then g j else v@j.
Proof.
  revert i0 v; induction n as [|n IH]; intros i0 v Hlen.
  - simpl. split; [lia|]. intros j Hj. zbool.
  - simpl for_up.
    destruct (IH (i0 + 1) (v ++ [g i0])) as [H1 H2].
    { rewrite length_app. simpl. lia. }
    split; [rewrite H1, length_app; simpl; lia|].
    intros j Hj. rewrite H2 by lia. unfold vget.
    destruct (Z.eq_dec j i0) as [-> | Hne].
    + replace (Z.to_nat i0) with (length v) by lia.
      rewrite nth_middle. zbool.
    + destruct (Z_lt_le_dec j i0).
      * rewrite app_nth1 by lia. zbool.
      * rewrite app_nth2 by lia.
        rewrite (nth_overflow v) by lia.
        destruct (Z.to_nat j - length v)%nat as [|[|m]] eqn:E; simpl; zbool.
Qed.

Lemma init_next_multiples_nth (primes : list Z) (size low b : Z) :
  1 <= b < size ->
  (Lmo.init_next_multiples primes size low)@b
  = let prime := primes@b in
    let next_multiple := ((low + prime - 1) ÷ prime) * prime in
    next_multiple + prime * Z.land (Z.lnot next_multiple) 1.
Proof.
  intros Hb. unfold Lmo.init_next_multiples, for_range.
  destruct (for_up_push
              (fun b => let prime := primes@b in
                        let next_multiple := ((low + prime - 1) ÷ prime) * prime in
                        next_multiple + prime * Z.land (Z.lnot next_multiple) 1)
              (Z.to_nat (size - 1)) 1 [0]) as [_ H]; [reflexivity|].
  cbv zeta in H. rewrite H by lia. zbool.
Qed.

Lemma init_next_multiples_length (primes : list Z) (size low : Z) :
  1 <= size ->
  Z.of_nat (length (Lmo.init_next_multiples primes size low)) = size.
Proof.
  intros Hs. unfold Lmo.init_next_multiples, for_range.
  match goal with
  | |- context [for_up ?n 1 (fun b next => next ++ [@?g b]) [0]] =>
      destruct (for_up_push g n 1 [0]) as [H _]; [reflexivity|]
  end.
  rewrite H. simpl. lia.
Qed.

Lemma lnot_land1 (n : Z) : Z.land (Z.lnot n) 1 = if Z.odd n then 0 else 1.
Proof.
  rewrite land1, Zmod_odd. unfold Z.lnot.
  replace (Z.pred (- n)) with (- n - 1) by lia.
  rewrite Z.odd_sub, Z.odd_opp. destruct (Z.odd n); reflexivity.
Qed.

(** For an odd [p], the odd multiples are the numbers that leave [p] when
    divided by [2 * p]. *)
Lemma odd_multiple_mod (p n : Z) :
  0 < p -> Z.odd p = true ->
  (odd_multiple p n = true <-> n mod (2 * p) = p).
Proof.
  intros Hp Hodd. unfold odd_multiple. rewrite andb_true_iff, Z.eqb_eq.
  pose proof (Z.div_mod n (2 * p) ltac:(lia)) as Hdm.
  pose proof (Z.mod_pos_bound n (2 * p) ltac:(lia)) as Hmb.
  split.
  - intros [Hn Hdiv].
    apply Z.mod_divide in Hdiv; [|lia]. destruct Hdiv as [t Ht].
    assert (Ht_odd : Z.odd t = true).
    { subst n. rewrite Z.odd_mul, Hodd, andb_true_r in Hn. exact Hn. }
    rewrite (Zodd_bool_iff t) in Ht_odd. apply Zodd_ex in Ht_odd. destruct Ht_odd as [s Hs].
    symmetry. apply Z.mod_unique with s; [lia | nia].
  - intros Hmod. split.
    + rewrite Hdm, Hmod.
      replace (2 * p * (n / (2 * p)) + p) with (p * (2 * (n / (2 * p)) + 1)) by lia.
      rewrite Z.odd_mul, Hodd. simpl. rewrite Z.odd_add, Z.odd_mul. reflexivity.
    + apply Z.mod_divide; [lia|]. exists (2 * (n / (2 * p)) + 1). lia.
Qed.

Lemma init_next_multiple_first (prime low : Z) :
  0 < prime -> Z.odd prime = true -> 1 <= low ->
  first_odd_multiple prime low
    (let next_multiple := ((low + prime - 1) ÷ prime) * prime in
     next_multiple + prime * Z.land (Z.lnot next_multiple) 1).
Proof.
  intros Hp Hodd Hlow. cbv zeta. rewrite lnot_land1.
  rewrite Z.quot_div_nonneg by lia.
  pose proof (Z.div_mod (low + prime - 1) prime ltac:(lia)) as Hdm.
  pose proof (Z.mod_pos_bound (low + prime - 1) prime ltac:(lia)) as Hmb.
  set (q := (low + prime - 1) / prime) in *.
  assert (Hq1 : low <= q * prime) by lia.
  assert (Hq2 : q * prime < low + prime) by lia.
  assert (Hmin : forall u, low <= u -> u mod prime = 0 -> q * prime <= u).
  { intros u Hu Hdiv. apply Z.mod_divide in Hdiv; [|lia]. destruct Hdiv as [t Ht].
    destruct (Z_lt_le_dec t q) as [Hlt | Hge].
    - exfalso. assert (t * prime <= (q - 1) * prime) by (apply Z.mul_le_mono_nonneg_r; lia).
      lia.
    - subst u. apply Z.mul_le_mono_nonneg_r; lia. }
  unfold first_odd_multiple, odd_multiple.
  destruct (Z.odd (q * prime)) eqn:Hpar.
  - rewrite Z.mul_0_r, Z.add_0_r, Hpar, Z_mod_mult. simpl.
    split; [lia|]. split; [reflexivity|].
    intros u Hu Hu'. apply andb_true_iff in Hu'. destruct Hu' as [_ Hdiv].
    apply Hmin; [lia | apply Z.eqb_eq; exact Hdiv].
  - rewrite Z.mul_1_r.
    replace (q * prime + prime) with ((q + 1) * prime) by lia.
    rewrite Z_mod_mult.
    replace ((q + 1) * prime) with (q * prime + prime) by lia.
    rewrite Z.odd_add, Hpar, Hodd. simpl.
    split; [lia|]. split; [reflexivity|].
    intros u Hu Hu'. apply andb_true_iff in Hu'. destruct Hu' as [Hou Hdiv].
    apply Z.eqb_eq in Hdiv.
    pose proof (Hmin u Hu Hdiv) as Hge.
    apply Z.mod_divide in Hdiv; [|lia]. destruct Hdiv as [t Ht].
    destruct (Z.eq_dec u (q * prime)) as [Heq | Hne]; [congruence|].
    assert (q + 1 <= t) by nia.
    assert ((q + 1) * prime <= t * prime) by (apply Z.mul_le_mono_nonneg_r; lia).
    lia.
Qed.


(** ** cross_off *)

Lemma cross_off_bits (prime low high next_multiple : Z)
    (sieve : BitSieve.t) (counters : list Z)
    (k' : Z) (sieve' : BitSieve.t) (counters' : list Z) :
  0 < prime -> Z.odd prime = true ->
  odd_multiple prime next_multiple = true ->
  low <= next_multiple -> high <= low + BitSieve.size sieve ->
  BitSieve.wf sieve ->
  Lmo.cross_off prime low high next_multiple sieve counters
    = Some (k', sieve', counters') ->
  (odd_multiple prime k' = true /\ high <= k' /\ next_multiple <= k'
   /\ (next_multiple < high -> k' < high + 2 * prime)
   /\ (high <= next_multiple -> k' = next_multiple))
  /\ BitSieve.wf sieve' /\ BitSieve.size sieve' = BitSieve.size sieve
  /\ forall i, 0 <= i < BitSieve.size sieve ->
       BitSieve.test sieve' i
       = BitSieve.test sieve i
         && negb ((next_multiple <=? low + i) && (low + i <? high)
                  && odd_multiple prime (low + i)).
Proof.
  intros Hp Hodd Hnm Hlow Hhigh Hwf Hrun.
  unfold Lmo.cross_off in Hrun. cbv zeta in Hrun.
  destruct (for_stride next_multiple high (prime * 2) _ (sieve, counters))
    as [[k1 [sv1 cnt1]]|] eqn:Hloop; [|discriminate].
  simpl in Hrun. inversion Hrun; subst k1 sv1 cnt1. clear Hrun.
  apply (for_stride_ind
           (fun k st =>
              next_multiple <= k /\ odd_multiple prime k = true
              /\ BitSieve.wf st.1 /\ BitSieve.size st.1 = BitSieve.size sieve
              /\ forall i, 0 <= i < BitSieve.size sieve ->
                   BitSieve.test st.1 i
                   = BitSieve.test sieve i
                     && negb ((next_multiple <=? low + i) && (low + i <? k)
                              && odd_multiple prime (low + i))))
    in Hloop.
  - destruct Hloop as ((Hle & Hk & Hwf' & Hsz & Hbits) & Hexit & Hnear & Hskip).
    simpl in *.
    split; [repeat split; try assumption; lia|].
    split; [exact Hwf'|]. split; [exact Hsz|].
    intros i Hi. rewrite Hbits by exact Hi.
    f_equal. f_equal.
    destruct (odd_multiple prime (low + i)) eqn:Hom; [|rewrite !andb_false_r; reflexivity].
    rewrite !andb_true_r.
    apply (odd_multiple_mod prime _ Hp Hodd) in Hom, Hk.
    pose proof (Z.div_mod (low + i) (2 * prime) ltac:(lia)) as Hd1.
    pose proof (Z.div_mod k' (2 * prime) ltac:(lia)) as Hd2.
    rewrite Hom in Hd1. rewrite Hk in Hd2.
    set (a := (low + i) / (2 * prime)) in *. set (b := k' / (2 * prime)) in *.
    destruct (Z.leb_spec next_multiple (low + i)); simpl; [|reflexivity].
    destruct (Z.ltb_spec (low + i) high), (Z.ltb_spec (low + i) k');
      try reflexivity; try lia.
    exfalso.
    destruct (Z_lt_le_dec next_multiple high) as [Hlt | Hge]; [|lia].
    specialize (Hnear Hlt).
    assert (b - 1 < a) by nia. assert (a < b) by nia. lia.
  - simpl. split; [lia|]. split; [exact Hnm|]. split; [exact Hwf|].
    split; [reflexivity|]. intros i Hi.
    replace ((next_multiple <=? low + i) && (low + i <? next_multiple)) with false
      by (symmetry; apply andb_false_iff; zbool; auto).
    simpl. rewrite andb_true_r. reflexivity.
  - intros k [sv cnt] Hk Hstep (Hle & Hom & Hwf' & Hsz & Hbits). simpl in *.
    assert (Hk' : odd_multiple prime (k + prime * 2) = true).
    { apply (odd_multiple_mod prime _ Hp Hodd).
      apply (odd_multiple_mod prime _ Hp Hodd) in Hom.
      replace (k + prime * 2) with (k + 1 * (2 * prime)) by lia.
      rewrite Z_mod_plus_full. exact Hom. }
    split; [lia|]. split; [exact Hk'|].
    assert (Hstepbits : forall i, 0 <= i < BitSieve.size sieve ->
              BitSieve.test sieve i
              && negb ((next_multiple <=? low + i) && (low + i <? k)
                       && odd_multiple prime (low + i))
              && negb (i =? k - low)
              = BitSieve.test sieve i
                && negb ((next_multiple <=? low + i) && (low + i <? k + prime * 2)
                         && odd_multiple prime (low + i))).
    { intros i Hi. rewrite <- andb_assoc. f_equal. rewrite <- negb_orb. f_equal.
      destruct (Z.eqb_spec i (k - low)) as [-> | Hne].
      - replace (low + (k - low)) with k by lia. rewrite Hom.
        replace (next_multiple <=? k) with true by (symmetry; apply Z.leb_le; lia).
        replace (k <? k + prime * 2) with true by (symmetry; apply Z.ltb_lt; lia).
        rewrite orb_true_r. reflexivity.
      - rewrite orb_false_r.
        destruct (odd_multiple prime (low + i)) eqn:Hom'; [|rewrite !andb_false_r; reflexivity].
        rewrite !andb_true_r. f_equal.
        apply (odd_multiple_mod prime _ Hp Hodd) in Hom, Hom'.
        pose proof (Z.div_mod (low + i) (2 * prime) ltac:(lia)) as Hd1.
        pose proof (Z.div_mod k (2 * prime) ltac:(lia)) as Hd2.
        rewrite Hom' in Hd1. rewrite Hom in Hd2.
        set (a := (low + i) / (2 * prime)) in *. set (b := k / (2 * prime)) in *.
        destruct (Z.ltb_spec (low + i) k), (Z.ltb_spec (low + i) (k + prime * 2));
          try reflexivity; try lia.
        exfalso. assert (b < a) by nia. assert (a < b + 1) by nia. lia. }
    destruct (BitSieve.test sv (k - low)) eqn:Hbit; simpl.
    + split; [apply unset_wf; exact Hwf'|]. split; [exact Hsz|].
      intros i Hi. rewrite test_unset; try lia.
      * rewrite Hbits by exact Hi. apply Hstepbits. exact Hi.
      * apply word_index_pos; [exact Hwf' | lia].
    + split; [exact Hwf'|]. split; [exact Hsz|].
      intros i Hi. rewrite <- Hstepbits by exact Hi. rewrite <- Hbits by exact Hi.
      destruct (Z.eqb_spec i (k - low)) as [-> | Hne].
      * rewrite Hbit. reflexivity.
      * rewrite andb_true_r. reflexivity.
Qed.




(** ** The wave loop of S2 *)

Section waves.

Variable ilog : Z -> Z.
Variable max_threads : Z.
Variable seconds : nat -> Q.
Variables (x y pi_y c : Z) (primes lpf mu : list Z).
Variables (limit sqrt_limit pi_sqrty : Z) (pi : list Z).

Lemma reconstruct_keeps (results : list (Z * list Z * list Z)) (st : Lmo.wave_state) :
  Lmo.low (Lmo.reconstruct results st) = Lmo.low st
  /\ Lmo.threads (Lmo.reconstruct results st) = Lmo.threads st
  /\ Lmo.segment_size (Lmo.reconstruct results st) = Lmo.segment_size st
  /\ Lmo.segments_per_thread (Lmo.reconstruct results st)
     = Lmo.segments_per_thread st.
Proof.
  unfold Lmo.reconstruct.
  destruct (fold_left _ results (Lmo.S2_total st, Lmo.phi_total st)) as [t p].
  simpl. repeat split.
Qed.

Lemma adapt_low (secs : Q) (st : Lmo.wave_state) :
  Lmo.low (Lmo.adapt sqrt_limit secs st)
  = Lmo.low st
    + Lmo.segments_per_thread st * Lmo.threads st * Lmo.segment_size st.
Proof.
  unfold Lmo.adapt. destruct ((_ >? _) && _); [destruct (_ <? _)|]; reflexivity.
Qed.

Lemma adapt_threads (secs : Q) (st : Lmo.wave_state) :
  Lmo.threads (Lmo.adapt sqrt_limit secs st) = Lmo.threads st.
Proof.
  unfold Lmo.adapt. destruct ((_ >? _) && _); [destruct (_ <? _)|]; reflexivity.
Qed.

Lemma adapt_grown (secs : Q) (st : Lmo.wave_state) :
  (Lmo.segment_size (Lmo.adapt sqrt_limit secs st),
   Lmo.segments_per_thread (Lmo.adapt sqrt_limit secs st))
  = grown sqrt_limit secs (Lmo.low (Lmo.adapt sqrt_limit secs st)) st.
Proof.
  rewrite adapt_low. unfold Lmo.adapt, grown. rewrite Z.shiftl_mul_pow2 by lia.
  destruct ((_ >? _) && _); [destruct (_ <? _)|]; simpl; f_equal; lia.
Qed.

Lemma S2_wave_parameters (secs : Q) (st st' : Lmo.wave_state) :
  Lmo.S2_wave x y pi_y c primes lpf mu limit sqrt_limit pi_sqrty pi secs st
    = Some st' ->
  let sch := Lmo.schedule limit st in
  Lmo.low st'
  = Lmo.low st
    + Lmo.segments_per_thread sch * Lmo.threads sch * Lmo.segment_size st
  /\ Lmo.threads st' = Lmo.threads sch
  /\ (Lmo.segment_size st', Lmo.segments_per_thread st')
     = grown sqrt_limit secs (Lmo.low st') sch.
Proof.
  unfold Lmo.S2_wave. cbv zeta.
  destruct (mapM _ (zrange 0 (Lmo.threads (Lmo.schedule limit st))))
    as [results|]; [|discriminate].
  cbn [mbind option_bind]. intros H. injection H as <-.
  match goal with
  | |- context [Lmo.reconstruct results ?s] =>
      destruct (reconstruct_keeps results s) as (Hl & Ht & Hs & Hp)
  end.
  rewrite Hl, Ht, Hs, Hp. clear Hl Ht Hs Hp.
  rewrite adapt_low, adapt_threads. split; [reflexivity|]. split; [reflexivity|].
  rewrite adapt_grown, adapt_low. reflexivity.
Qed.

End waves.

Section run.

Variable ilog : Z -> Z.
Variable max_threads : Z.
Variable seconds : nat -> Q.
Variables (x y pi_y c : Z) (primes lpf mu : list Z) (threads : Z).


Lemma init_segment_size :
  Lmo.segment_size (Lmo.S2_init ilog max_threads x y primes threads)
  = Z.max
      (next_power_of_2
         (isqrt (x ÷ y + 1)
          ÷ (Z.max 1 (ilog x) * Lmo.validate_threads max_threads threads)))
      64.
Proof. reflexivity. Qed.


End run.




(** ** pi_lmo_parallel3 below 2 *)

(** C9, amended: for every input below 2, and so for every negative input,
    [pi_lmo_parallel3] returns 0 to its caller at once; no error is
    reported. *)
Theorem pi_lmo_parallel3_below_2 (ilog : Z -> Z) (max_threads : Z)
    (seconds : nat -> Q) (loglog : Z -> Q)
    (S1 : Z -> Z -> Z -> list Z -> list Z -> list Z -> Z) (P2 : Z -> Z -> Z -> Z)
    (make_moebius make_least_prime_factor : Z -> list Z)
    (fuel : nat) (x threads : Z) :
  x < 2 ->
  Lmo.pi_lmo_parallel3 ilog max_threads seconds loglog S1 P2 make_moebius
    make_least_prime_factor fuel x threads = Some 0.
Proof.
  intros Hx. unfold Lmo.pi_lmo_parallel3.
  destruct (Z.ltb_spec x 2); [reflexivity | lia].
Qed.

Lemma pi_lmo_parallel3_below_2_witness :
  Lmo.pi_lmo_parallel3 (fun _ => 1) 1 (fun _ => 0%Q) (fun _ => 0%Q)
    (fun _ _ _ _ _ _ => 0) (fun _ _ _ => 0) (fun _ => []) (fun _ => [])
    0 (-5) 1 = Some 0.
Proof.
  apply (pi_lmo_parallel3_below_2 (fun _ => 1) 1 (fun _ => 0%Q) (fun _ => 0%Q)
           (fun _ _ _ _ _ _ => 0) (fun _ _ _ => 0) (fun _ => []) (fun _ => [])
           0 (-5) 1).
  lia.
Defined.

(** C9 as worded fails for [x = -1]: the caller receives the value 0. *)
Lemma domain_error_claim_fails : ~ domain_error_claim (-1).
Proof.
  intros H.
  apply (H (fun _ => 1) 1 (fun _ => 0%Q) (fun _ => 0%Q)
           (fun _ _ _ _ _ _ => 0) (fun _ _ _ => 0) (fun _ => []) (fun _ => [])
           O 1 0).
  reflexivity.
Qed.

(** ** Every loop of S2_thread ends *)

Lemma for_jump_total {A : Type} (n : nat) (b : Z)
    (body : Z -> A -> option (A * bool)) (a : A) :
  (forall b' a', b <= b' < b + Z.of_nat n -> is_Some (body b' a')) ->
  exists b' a' j, for_jump n b body a = Some (b', a', j) /\ b <= b'.
Proof.
  revert b a; induction n as [|n IH]; intros b a Hbody.
  - exists b, a, false. split; [reflexivity | lia].
  - simpl. destruct (Hbody b a ltac:(lia)) as [[a1 [|]] H1]; rewrite H1.
    + exists b, a1, true. split; [reflexivity | lia].
    + destruct (IH (b + 1) a1) as (b' & a' & j & Hrun & Hle).
      { intros b' a' Hb'. apply Hbody. lia. }
      exists b', a', j. split; [exact Hrun | lia].
Qed.

Lemma for_lt_jump_total {A : Type} (b hi : Z)
    (body : Z -> A -> option (A * bool)) (a : A) :
  (forall b' a', b <= b' < hi -> is_Some (body b' a')) ->
  exists b' a' j, for_lt_jump b hi body a = Some (b', a', j) /\ b <= b'.
Proof.
  intros Hbody. apply for_jump_total. intros b' a' Hb'. apply Hbody. lia.
Qed.

Section thread_total.

Variables (x y c pi_sqrty pi_y segment_size : Z).
Variables (pi primes lpf mu : list Z).

Lemma sieve_out_total (low high b : Z) (st : Lmo.thread_state) :
  0 < primes@b -> is_Some (Lmo.sieve_out primes low high b st).
Proof.
  intros Hp. unfold Lmo.sieve_out.
  match goal with
  | |- context [for_stride ?a ?b ?c ?f ?s] =>
      destruct (for_stride_total a b c f s) as [[k sv] Hr]; [lia|]
  end.
  rewrite Hr. simpl. eexists; reflexivity.
Qed.

Lemma leaves_below_sqrty_total (low high b : Z) (st : Lmo.thread_state) :
  0 < primes@b ->
  is_Some (Lmo.leaves_below_sqrty x y primes lpf mu low high b st).
Proof.
  intros Hp. unfold Lmo.leaves_below_sqrty. cbv zeta.
  destruct (_ >=? _); [eexists; reflexivity|].
  destruct (for_range_down _ _ _ _) as [s m].
  match goal with
  | |- context [Lmo.cross_off ?p ?l ?h ?n ?s ?c] =>
      destruct (cross_off_total p l h n s c Hp) as [[[k sv] cnt] Hr]
  end.
  rewrite Hr. simpl. eexists; reflexivity.
Qed.

Lemma leaves_from_sqrty_total (low high b : Z) (st : Lmo.thread_state) :
  0 < primes@b ->
  is_Some (Lmo.leaves_from_sqrty x y pi primes low high b st).
Proof.
  intros Hp. unfold Lmo.leaves_from_sqrty. cbv zeta.
  destruct (_ >=? _); [eexists; reflexivity|].
  destruct (for_range_down _ _ _ _) as [s m].
  match goal with
  | |- context [Lmo.cross_off ?p ?l ?h ?n ?s ?c] =>
      destruct (cross_off_total p l h n s c Hp) as [[[k sv] cnt] Hr]
  end.
  rewrite Hr. simpl. eexists; reflexivity.
Qed.

Lemma segment_total (size limit low : Z) (st : Lmo.thread_state) :
  c < size ->
  (forall b, 2 <= b < size -> 0 < primes@b) ->
  is_Some (Lmo.segment x y c pi_sqrty pi_y segment_size pi primes lpf mu
             size limit low st).
Proof.
  intros Hc Hprimes. unfold Lmo.segment. cbv zeta.
  match goal with
  | |- context [for_lt_jump 2 (c + 1) ?f ?s] =>
      destruct (for_lt_jump_total 2 (c + 1) f s) as (b1 & st1 & j1 & Hr1 & Hb1)
  end.
  { intros b' a' Hb'. apply sieve_out_total. apply Hprimes. lia. }
  rewrite Hr1. cbn [mbind option_bind].
  match goal with
  | |- context [for_lt_jump b1 ?hi ?f ?s] =>
      destruct (for_lt_jump_total b1 hi f s) as (b2 & st2 & j2 & Hr2 & Hb2)
  end.
  { intros b' a' Hb'. apply leaves_below_sqrty_total. apply Hprimes. lia. }
  rewrite Hr2. cbn [mbind option_bind].
  destruct j2; [eexists; reflexivity|].
  match goal with
  | |- context [for_lt_jump b2 ?hi ?f ?s] =>
      destruct (for_lt_jump_total b2 hi f s) as (b3 & st3 & j3 & Hr3 & Hb3)
  end.
  { intros b' a' Hb'. apply leaves_from_sqrty_total. apply Hprimes. lia. }
  rewrite Hr3. cbn [mbind option_bind]. eexists; reflexivity.
Qed.

Lemma S2_thread_total (segments_per_thread thread_num low limit : Z)
    (mu_sum phi : list Z) (bound : Z) :
  0 < segment_size ->
  (forall v, pi@v < bound) ->
  (forall b, 2 <= b < bound -> 0 < primes@b) ->
  is_Some (Lmo.S2_thread x y c pi_sqrty pi_y segment_size pi primes lpf mu
             segments_per_thread thread_num low limit mu_sum phi).
Proof.
  intros Hseg Hpi Hprimes. unfold Lmo.S2_thread. cbv zeta.
  set (low' := low + segment_size * segments_per_thread * thread_num).
  set (size := pi@(Z.min (isqrt (x ÷ low')) y) + 1).
  destruct (Z.geb_spec c (size - 1)) as [Hge | Hlt]; [eexists; reflexivity|].
  match goal with
  | |- context [for_stride ?a ?b ?c ?f ?s] =>
      destruct (for_stride a b c f s) as [[k ost]|] eqn:Hloop
  end.
  - apply (for_stride_ind (fun _ ost => is_Some ost)) in Hloop.
    + destruct Hloop as ([st Hst] & _). subst ost.
      cbn [mbind option_bind]. eexists; reflexivity.
    + eexists; reflexivity.
    + intros k0 ost0 _ _ [st0 ->]. cbn [mbind option_bind].
      apply segment_total; [lia|].
      intros b Hb. apply Hprimes. specialize (Hpi (Z.min (isqrt (x ÷ low')) y)).
      unfold size in Hb. lia.
  - exfalso.
    match type of Hloop with
    | for_stride ?a ?b ?c ?f ?s = None =>
        destruct (for_stride_total a b c f s Hseg) as [r Hr]
    end.
    congruence.
Qed.

End thread_total.

(** ** The table of prime counts *)

Lemma zrange_length (lo hi : Z) : length (zrange lo hi) = Z.to_nat (hi - lo).
Proof. unfold zrange. rewrite length_map, length_seq. reflexivity. Qed.

Lemma nth_map_zrange (f : Z -> Z) (lo hi : Z) (n : nat) :
  (n < Z.to_nat (hi - lo))%nat ->
  nth n (map f (zrange lo hi)) 0 = f (lo + Z.of_nat n).
Proof.
  intros Hn. unfold zrange. rewrite map_map.
  rewrite (nth_indep _ 0 ((fun i => f (lo + Z.of_nat i)) O))
    by (rewrite length_map, length_seq; exact Hn).
  rewrite (map_nth (fun i => f (lo + Z.of_nat i))).
  rewrite seq_nth by exact Hn. reflexivity.
Qed.

Lemma vget_map_zrange (f : Z -> Z) (lo hi i : Z) :
  0 <= i < hi - lo -> (map f (zrange lo hi))@i = f (lo + i).
Proof.
  intros Hi. unfold vget. rewrite nth_map_zrange by lia. f_equal. lia.
Qed.

Lemma prime_pi_nonneg (n : Z) : 0 <= prime_pi n.
Proof. unfold prime_pi, count_between. apply count_from_bounds. Qed.

Lemma prime_pi_mono (n m : Z) : n <= m -> prime_pi n <= prime_pi m.
Proof.
  intros H. unfold prime_pi.
  destruct (Z_lt_le_dec n 1).
  - rewrite (count_between_empty _ 2 n) by lia. apply count_from_bounds.
  - rewrite (count_between_split _ 2 n m) by lia.
    pose proof (count_from_bounds is_prime (Z.to_nat (m + 1 - (n + 1))) (n + 1)).
    unfold count_between at 3. lia.
Qed.

Lemma make_pi_nth (y v : Z) : 0 <= v <= y -> (make_pi y)@v = prime_pi v.
Proof.
  intros Hv. unfold make_pi. rewrite vget_map_zrange by lia. f_equal.
Qed.

Lemma make_pi_bound (y v : Z) : (make_pi y)@v < prime_pi y + 1.
Proof.
  pose proof (prime_pi_nonneg y) as H0.
  destruct (Z_lt_le_dec v 0) as [Hneg | Hpos].
  - unfold vget. replace (Z.to_nat v) with O by lia.
    change (nth 0 (make_pi y) 0) with ((make_pi y)@0).
    destruct (Z_lt_le_dec y 0).
    + unfold make_pi, zrange. replace (Z.to_nat (y + 1 - 0)) with O by lia.
      unfold vget. simpl. lia.
    + rewrite make_pi_nth by lia. pose proof (prime_pi_mono 0 y ltac:(lia)). lia.
  - destruct (Z_lt_le_dec y v).
    + unfold vget, make_pi. rewrite nth_overflow; [lia|].
      rewrite length_map, zrange_length. lia.
    + rewrite make_pi_nth by lia. pose proof (prime_pi_mono v y ltac:(lia)). lia.
Qed.

(** ** The wave loop ends *)

Lemma in_between_lower (x hi : Z) : 1 <= hi -> 1 <= in_between 1 x hi.
Proof. intros H. unfold in_between. zbool. Qed.

Section wave_total.

Variable ilog : Z -> Z.
Variable max_threads : Z.
Variable seconds : nat -> Q.
Variables (x y pi_y c : Z) (primes lpf mu : list Z).

Hypothesis primes_positive : forall b, 2 <= b <= prime_pi y -> 0 < primes@b.

Let limit := x ÷ y + 1.
Let sqrt_limit := isqrt limit.
Let pi_sqrty := pi_bsearch primes (isqrt y).
Let pi := make_pi y.

(** A wave that starts below the limit ends, and moves [low] on by at least
    one segment of at least 64. *)
Lemma S2_wave_total (secs : Q) (st : Lmo.wave_state) :
  64 <= Lmo.segment_size st -> Lmo.low st < limit ->
  exists st',
    Lmo.S2_wave x y pi_y c primes lpf mu limit sqrt_limit pi_sqrty pi secs st
      = Some st'
    /\ Lmo.low st + 64 <= Lmo.low st'
    /\ 64 <= Lmo.segment_size st'.
Proof.
  intros Hseg Hlow.
  assert (Hsome : is_Some (Lmo.S2_wave x y pi_y c primes lpf mu limit sqrt_limit
                             pi_sqrty pi secs st)).
  { unfold Lmo.S2_wave. cbv zeta.
    match goal with
    | |- context [mapM ?f ?l] => destruct (mapM_is_Some_2 f l) as [results Hr]
    end.
    - apply List.Forall_forall. intros i _. simpl.
      apply (S2_thread_total _ _ _ _ _ _ _ _ _ _ _ _ _ _ _ _ (prime_pi y + 1)).
      + change (Lmo.segment_size (Lmo.schedule limit st)) with (Lmo.segment_size st).
        lia.
      + intros v. apply make_pi_bound.
      + intros b Hb. apply primes_positive. lia.
    - rewrite Hr. cbn [mbind option_bind]. eexists; reflexivity. }
  destruct Hsome as [st' Hst']. exists st'. split; [exact Hst'|].
  apply S2_wave_parameters in Hst'. cbv zeta in Hst'.
  destruct Hst' as (Hl & _ & Hg).
  set (segments := (limit - Lmo.low st + Lmo.segment_size st - 1) ÷ Lmo.segment_size st).
  assert (Hsegs : 1 <= segments).
  { unfold segments. rewrite Z.quot_div_nonneg by lia.
    apply Z.div_le_lower_bound; lia. }
  assert (Hth : 1 <= Lmo.threads (Lmo.schedule limit st)).
  { apply in_between_lower. exact Hsegs. }
  assert (Hspt : 1 <= Lmo.segments_per_thread (Lmo.schedule limit st)).
  { apply in_between_lower. fold segments.
    change (in_between 1 (Lmo.threads st) segments)
      with (Lmo.threads (Lmo.schedule limit st)).
    rewrite Z.quot_div_nonneg by lia. apply Z.div_le_lower_bound; lia. }
  split.
  - rewrite Hl.
    assert (1 * 1 <= Lmo.segments_per_thread (Lmo.schedule limit st)
                     * Lmo.threads (Lmo.schedule limit st))
      by (apply Z.mul_le_mono_nonneg; lia).
    nia.
  - unfold grown in Hg.
    change (Lmo.segment_size (Lmo.schedule limit st)) with (Lmo.segment_size st) in Hg.
    destruct ((_ >? _) && _) in Hg; [destruct (_ <? _) in Hg|]; inversion Hg; lia.
Qed.

Lemma S2_loop_total (fuel : nat) (wave : nat) (st : Lmo.wave_state) :
  64 <= Lmo.segment_size st ->
  Z.max 0 (limit - Lmo.low st) < Z.of_nat fuel ->
  is_Some (Lmo.S2_loop seconds x y pi_y c primes lpf mu limit sqrt_limit
             pi_sqrty pi fuel wave st).
Proof.
  revert wave st; induction fuel as [|fuel IH]; intros wave st Hseg Hfuel.
  - lia.
  - simpl. destruct (Z.ltb_spec (Lmo.low st) limit) as [Hlt | Hge];
      [|eexists; reflexivity].
    destruct (S2_wave_total (seconds wave) st Hseg Hlt) as (st' & Hw & Hadv & Hseg').
    rewrite Hw. cbn [mbind option_bind]. apply IH; [exact Hseg' | lia].
Qed.

End wave_total.



(** ** Primes and the residues of 30 *)

Lemma in_zrange (lo hi d : Z) : In d (zrange lo hi) <-> lo <= d < hi.
Proof.
  unfold zrange. rewrite in_map_iff. split.
  - intros (i & <- & Hi). apply in_seq in Hi. lia.
  - intros Hd. exists (Z.to_nat (d - lo)). split; [lia|]. apply in_seq. lia.
Qed.

Lemma is_prime_no_small_divisor (n d : Z) :
  is_prime n = true -> 2 <= d <= Z.sqrt n -> n mod d <> 0.
Proof.
  unfold is_prime. intros H Hd. apply andb_true_iff in H. destruct H as [_ H].
  rewrite forallb_forall in H. specialize (H d).
  rewrite in_zrange in H. specialize (H ltac:(lia)).
  apply negb_true_iff, Z.eqb_neq in H. exact H.
Qed.

Lemma prime_from_7_coprime30 (n : Z) :
  prime_from_7 n = true -> coprime30 n = true.
Proof.
  intros H. destruct (Z_lt_le_dec n 25) as [Hsmall | Hbig].
  - destruct (Z_lt_le_dec n 0) as [Hneg | Hpos].
    + unfold prime_from_7 in H. apply andb_true_iff in H. destruct H as [_ H].
      apply Z.leb_le in H. lia.
    + pose proof (forallb_below (fun n => implb (prime_from_7 n) (coprime30 n)) 25
                    ltac:(vm_compute; reflexivity) n ltac:(lia)) as Hc.
      cbv beta in Hc. rewrite H in Hc. exact Hc.
  - unfold prime_from_7 in H. apply andb_true_iff in H. destruct H as [Hp _].
    assert (Hs : 5 <= Z.sqrt n).
    { change 5 with (Z.sqrt 25). apply Z.sqrt_le_mono. lia. }
    unfold coprime30.
    pose proof (is_prime_no_small_divisor n 2 Hp ltac:(lia)).
    pose proof (is_prime_no_small_divisor n 3 Hp ltac:(lia)).
    pose proof (is_prime_no_small_divisor n 5 Hp ltac:(lia)).
    repeat (apply andb_true_iff; split); apply negb_true_iff, Z.eqb_neq; assumption.
Qed.

Lemma coprime30_mod240 (n : Z) : coprime30 (n mod 240) = coprime30 n.
Proof.
  unfold coprime30.
  rewrite (Z.mod_mod_divide n 240 2) by (exists 120; reflexivity).
  rewrite (Z.mod_mod_divide n 240 3) by (exists 80; reflexivity).
  rewrite (Z.mod_mod_divide n 240 5) by (exists 48; reflexivity).
  reflexivity.
Qed.

(** ** The bits of a word *)

Lemma number_of_word (w k : Z) :
  PiTable.number_of w k = 240 * w + PiTable.number_of 0 k.
Proof. unfold PiTable.number_of. lia. Qed.

Lemma number_of_range (k : Z) :
  0 <= k < 64 ->
  0 <= PiTable.number_of 0 k < 240
  /\ (PiTable.number_of 0 k = 1 \/ 7 <= PiTable.number_of 0 k).
Proof.
  intros Hk.
  pose proof (forallb_below
                (fun k => (0 <=? PiTable.number_of 0 k)
                          && (PiTable.number_of 0 k <? 240)
                          && ((PiTable.number_of 0 k =? 1)
                              || (7 <=? PiTable.number_of 0 k))) 64
                ltac:(vm_compute; reflexivity) k Hk) as H.
  cbv beta in H. apply andb_true_iff in H. destruct H as [H H3].
  apply andb_true_iff in H. destruct H as [H1 H2].
  apply Z.leb_le in H1. apply Z.ltb_lt in H2. apply orb_true_iff in H3.
  split; [lia|]. destruct H3 as [H3 | H3]; [left; apply Z.eqb_eq | right; apply Z.leb_le];
    exact H3.
Qed.

Lemma number_of_injective (k k' : Z) :
  0 <= k < 64 -> 0 <= k' < 64 ->
  PiTable.number_of 0 k = PiTable.number_of 0 k' -> k = k'.
Proof.
  intros Hk Hk' Heq.
  pose proof (forallb_below2
                (fun k k' => implb (PiTable.number_of 0 k =? PiTable.number_of 0 k')
                               (k =? k')) 64 64
                ltac:(vm_compute; reflexivity) k k' Hk Hk') as H.
  cbv beta in H. rewrite Heq, Z.eqb_refl in H. apply Z.eqb_eq. exact H.
Qed.

Lemma set_bit_of_residue (r : Z) :
  0 <= r < 240 -> coprime30 r = true ->
  exists k, 0 <= k < 64 /\ PiTable.number_of 0 k = r
            /\ PiTable.set_bit_@r = Z.shiftl 1 k.
Proof.
  intros Hr Hc.
  pose proof (forallb_below
                (fun r => implb (coprime30 r)
                            (existsb (fun k => (PiTable.number_of 0 k =? r)
                                               && (PiTable.set_bit_@r =? Z.shiftl 1 k))
                               (zrange 0 64))) 240
                ltac:(vm_compute; reflexivity) r Hr) as H.
  cbv beta in H. rewrite Hc in H. cbn [implb] in H.
  apply existsb_exists in H. destruct H as (k & Hin & Hk).
  apply in_zrange in Hin. apply andb_true_iff in Hk. destruct Hk as [H1 H2].
  exists k. split; [lia|]. split; [apply Z.eqb_eq; exact H1 | apply Z.eqb_eq; exact H2].
Qed.

Lemma unset_larger_bit (r k : Z) :
  0 <= r < 240 -> 0 <= k < 64 ->
  Z.testbit PiTable.unset_larger_@r k = (PiTable.number_of 0 k <=? r).
Proof.
  intros Hr Hk. apply eqb_prop.
  apply (forallb_below2
           (fun r k => eqb (Z.testbit PiTable.unset_larger_@r k)
                         (PiTable.number_of 0 k <=? r)) 240 64);
    [vm_compute; reflexivity | exact Hr | exact Hk].
Qed.

Lemma zlist_eqb_eq (a b : list Z) : zlist_eqb a b = true -> a = b.
Proof.
  revert b; induction a as [|x a IH]; intros [|y b] H; simpl in H;
    try discriminate; [reflexivity|].
  apply andb_true_iff in H. destruct H as [H1 H2].
  apply Z.eqb_eq in H1. subst. f_equal. apply IH. exact H2.
Qed.

(** The residues without a factor 2, 3 or 5 are the numbers of the bits, in
    the order of the bits. *)
Lemma coprime_residues (r : Z) :
  0 <= r < 240 ->
  List.filter coprime30 (zrange 0 (r + 1))
  = map (PiTable.number_of 0)
      (List.filter (fun k => PiTable.number_of 0 k <=? r) (zrange 0 64)).
Proof.
  intros Hr. apply zlist_eqb_eq.
  apply (forallb_below
           (fun r => zlist_eqb
                       (List.filter coprime30 (zrange 0 (r + 1)))
                       (map (PiTable.number_of 0)
                          (List.filter (fun k => PiTable.number_of 0 k <=? r)
                             (zrange 0 64)))) 240);
    [vm_compute; reflexivity | exact Hr].
Qed.

(** ** The cache *)

Lemma cache_length : length PiTable.pi_cache_ = 128%nat.
Proof. reflexivity. Qed.

Lemma cache_bits (w k : Z) :
  0 <= w < 128 -> 0 <= k < 64 ->
  Z.testbit (PiTable.bits (PiTable.pget PiTable.pi_cache_ w)) k
  = prime_from_7 (PiTable.number_of w k).
Proof.
  intros Hw Hk. apply eqb_prop.
  apply (forallb_below2
           (fun w k => eqb (Z.testbit (PiTable.bits (PiTable.pget PiTable.pi_cache_ w)) k)
                         (prime_from_7 (PiTable.number_of w k))) 128 64);
    [vm_compute; reflexivity | exact Hw | exact Hk].
Qed.

Lemma cache_counts (w : Z) :
  0 <= w < 127 ->
  PiTable.count (PiTable.pget PiTable.pi_cache_ (w + 1))
  = PiTable.count (PiTable.pget PiTable.pi_cache_ w)
    + popcount64 (PiTable.bits (PiTable.pget PiTable.pi_cache_ w)).
Proof.
  intros Hw. apply Z.eqb_eq.
  apply (forallb_below
           (fun w => PiTable.count (PiTable.pget PiTable.pi_cache_ (w + 1))
                     =? PiTable.count (PiTable.pget PiTable.pi_cache_ w)
                        + popcount64 (PiTable.bits (PiTable.pget PiTable.pi_cache_ w))) 127);
    [vm_compute; reflexivity | exact Hw].
Qed.

(** ** Sums over lists *)

Lemma zrange_cons (lo hi : Z) : lo < hi -> zrange lo hi = lo :: zrange (lo + 1) hi.
Proof.
  intros H. unfold zrange.
  replace (Z.to_nat (hi - lo)) with (S (Z.to_nat (hi - (lo + 1)))) by lia.
  rewrite <- cons_seq, map_cons, <- seq_shift, map_map. f_equal; [lia|].
  apply map_ext. intros i. lia.
Qed.

Lemma zrange_nil (lo hi : Z) : hi <= lo -> zrange lo hi = [].
Proof. intros H. unfold zrange. replace (Z.to_nat (hi - lo)) with O by lia. reflexivity. Qed.

Lemma count_from_zsum (f : Z -> bool) (n : nat) (lo : Z) :
  count_from f lo n = zsum (map (fun j => Z.b2z (f j)) (zrange lo (lo + Z.of_nat n))).
Proof.
  revert lo; induction n as [|n IH]; intros lo.
  - rewrite zrange_nil by lia. reflexivity.
  - rewrite zrange_cons by lia. simpl count_from. rewrite IH. simpl.
    replace (lo + 1 + Z.of_nat n) with (lo + Z.of_nat (S n)) by lia. reflexivity.
Qed.

Lemma count_between_zsum (f : Z -> bool) (a b : Z) :
  a <= b + 1 ->
  count_between f a b = zsum (map (fun j => Z.b2z (f j)) (zrange a (b + 1))).
Proof.
  intros H. unfold count_between. rewrite count_from_zsum.
  replace (a + Z.of_nat (Z.to_nat (b + 1 - a))) with (b + 1) by lia. reflexivity.
Qed.

Lemma zsum_map_filter (g : Z -> Z) (p : Z -> bool) (l : list Z) :
  zsum (map g (List.filter p l)) = zsum (map (fun j => if p j then g j else 0) l).
Proof.
  induction l as [|a l IH]; [reflexivity|].
  simpl. destruct (p a); simpl; rewrite IH; reflexivity.
Qed.

Lemma zsum_map_ext (g h : Z -> Z) (l : list Z) :
  (forall j, In j l -> g j = h j) -> zsum (map g l) = zsum (map h l).
Proof.
  intros H. induction l as [|a l IH]; [reflexivity|].
  simpl. rewrite (H a) by (left; reflexivity). rewrite IH; [reflexivity|].
  intros j Hj. apply H. right. exact Hj.
Qed.

Lemma length_filter_zrange (f : Z -> bool) (lo hi : Z) :
  lo <= hi ->
  Z.of_nat (length (List.filter f (zrange lo hi))) = count_between f lo (hi - 1).
Proof.
  intros H. rewrite count_between_zsum by lia. replace (hi - 1 + 1) with hi by lia.
  induction (zrange lo hi) as [|a l IH]; [reflexivity|].
  simpl. destruct (f a); simpl Z.b2z; simpl length; lia.
Qed.

(** ** The primes of a word *)

Lemma prime_from_7_residue (w j : Z) :
  0 <= j < 240 -> coprime30 j = false -> prime_from_7 (240 * w + j) = false.
Proof.
  intros Hj Hc. destruct (prime_from_7 (240 * w + j)) eqn:Hp; [|reflexivity].
  apply prime_from_7_coprime30 in Hp.
  rewrite <- coprime30_mod240 in Hp.
  replace ((240 * w + j) mod 240) with j in Hp; [congruence|].
  apply Z.mod_unique with w; lia.
Qed.

(** The bits of a word up to the residue [r], counted, are the primes of the
    word up to that residue. *)
Lemma word_bits_count (N w r : Z) (e : PiTable.pi_t) :
  0 <= r < 240 -> 240 * w + r < N ->
  bits_mark_primes N w e ->
  count_from (fun k => Z.testbit (PiTable.bits e) k && (PiTable.number_of 0 k <=? r)) 0 64
  = count_between prime_from_7 (240 * w) (240 * w + r).
Proof.
  intros Hr HN Hbits.
  rewrite (count_from_ext _
             (fun k => prime_from_7 (240 * w + PiTable.number_of 0 k)
                       && (PiTable.number_of 0 k <=? r))).
  2:{ intros k Hk. destruct (Z.leb_spec (PiTable.number_of 0 k) r) as [Hle | Hgt];
        [|rewrite !andb_false_r; reflexivity].
      rewrite !andb_true_r, <- number_of_word. apply Hbits; [lia|].
      rewrite number_of_word. lia. }
  rewrite count_from_zsum. change (0 + Z.of_nat 64) with 64.
  rewrite (zsum_map_ext _
             (fun k => if PiTable.number_of 0 k <=? r
                       then Z.b2z (prime_from_7 (240 * w + PiTable.number_of 0 k))
                       else 0)).
  2:{ intros k _. destruct (_ <=? r); [rewrite andb_true_r | rewrite andb_false_r];
        reflexivity. }
  rewrite <- (zsum_map_filter
                (fun k => Z.b2z (prime_from_7 (240 * w + PiTable.number_of 0 k)))).
  rewrite <- (map_map (PiTable.number_of 0)
                (fun j => Z.b2z (prime_from_7 (240 * w + j)))).
  rewrite <- coprime_residues by exact Hr.
  rewrite zsum_map_filter.
  rewrite (zsum_map_ext _ (fun j => Z.b2z (prime_from_7 (240 * w + j)))).
  2:{ intros j Hj. apply in_zrange in Hj.
      destruct (coprime30 j) eqn:Hc; [reflexivity|].
      rewrite prime_from_7_residue by (try exact Hc; lia). reflexivity. }
  rewrite <- (count_between_zsum (fun j => prime_from_7 (240 * w + j)) 0 r) by lia.
  rewrite (count_between_ext _ (fun j => prime_from_7 (j + 240 * w)) 0 r)
    by (intros; f_equal; lia).
  rewrite count_between_shift. f_equal; lia.
Qed.

Lemma popcount_masked_word (N w r : Z) (e : PiTable.pi_t) :
  0 <= r < 240 -> 240 * w + r < N ->
  bits_mark_primes N w e ->
  popcount64 (Z.land (PiTable.bits e) PiTable.unset_larger_@r)
  = count_between prime_from_7 (240 * w) (240 * w + r).
Proof.
  intros Hr HN Hbits. rewrite <- (word_bits_count N w r e Hr HN Hbits).
  unfold popcount64. apply count_from_ext. intros k Hk.
  rewrite Z.land_spec, unset_larger_bit by lia. reflexivity.
Qed.

Lemma popcount_full_word (N w : Z) (e : PiTable.pi_t) :
  240 * w + 239 < N ->
  bits_mark_primes N w e ->
  popcount64 (PiTable.bits e)
  = count_between prime_from_7 (240 * w) (240 * w + 239).
Proof.
  intros HN Hbits. rewrite <- (word_bits_count N w 239 e ltac:(lia) HN Hbits).
  unfold popcount64. apply count_from_ext. intros k Hk.
  destruct (number_of_range k ltac:(lia)) as [Hrange _].
  replace (PiTable.number_of 0 k <=? 239) with true by (symmetry; apply Z.leb_le; lia).
  rewrite andb_true_r. reflexivity.
Qed.

(** ** Entries of the table *)

Lemma pget_pset_eq (v : list PiTable.pi_t) (i : Z) (e : PiTable.pi_t) :
  0 <= i < Z.of_nat (length v) -> PiTable.pget (PiTable.pset v i e) i = e.
Proof.
  intros H. unfold PiTable.pget, PiTable.pset.
  rewrite nth_lookup, list_lookup_insert_eq; [reflexivity | lia].
Qed.

Lemma pget_pset_ne (v : list PiTable.pi_t) (i j : Z) (e : PiTable.pi_t) :
  0 <= i -> 0 <= j -> i <> j -> PiTable.pget (PiTable.pset v i e) j = PiTable.pget v j.
Proof.
  intros Hi Hj H. unfold PiTable.pget, PiTable.pset.
  rewrite !nth_lookup, list_lookup_insert_ne; [reflexivity | lia].
Qed.

Lemma pset_length (v : list PiTable.pi_t) (i : Z) (e : PiTable.pi_t) :
  length (PiTable.pset v i e) = length v.
Proof. apply length_insert. Qed.

(** ** The cache *)

Lemma cache_bits_mark_primes (N w : Z) :
  0 <= w < 128 -> bits_mark_primes N w (PiTable.pget PiTable.pi_cache_ w).
Proof. intros Hw k Hk _. apply cache_bits; assumption. Qed.

Lemma prime_from_7_below (a b : Z) : b < 7 -> count_between prime_from_7 a b = 0.
Proof.
  intros Hb. apply count_from_none. intros k Hk. unfold prime_from_7.
  replace (7 <=? k) with false by (symmetry; apply Z.leb_gt; lia).
  apply andb_false_r.
Qed.

Lemma cache_count_below_word (w : Z) :
  0 <= w < 128 -> count_below_word w (PiTable.pget PiTable.pi_cache_ w).
Proof.
  intros Hw. rewrite <- (Z2Nat.id w) by lia.
  assert (Hn : (Z.to_nat w < 128)%nat) by lia. clear Hw.
  induction (Z.to_nat w) as [|n IH].
  - unfold count_below_word.
    pose proof (prime_from_7_below 0 (240 * Z.of_nat 0 - 1) ltac:(lia)) as H0.
    rewrite H0. reflexivity.
  - unfold count_below_word in *.
    replace (Z.of_nat (S n)) with (Z.of_nat n + 1) by lia.
    pose proof (cache_counts (Z.of_nat n) ltac:(lia)) as Hc.
    pose proof (IH ltac:(lia)) as IH'.
    pose proof (popcount_full_word (240 * Z.of_nat n + 240) (Z.of_nat n)
                  (PiTable.pget PiTable.pi_cache_ (Z.of_nat n)) ltac:(lia)
                  (cache_bits_mark_primes (240 * Z.of_nat n + 240) (Z.of_nat n) ltac:(lia)))
      as Hp.
    pose proof (count_between_split prime_from_7 0 (240 * Z.of_nat n - 1)
                  (240 * (Z.of_nat n + 1) - 1) ltac:(lia) ltac:(lia)) as Hs.
    replace (240 * Z.of_nat n - 1 + 1) with (240 * Z.of_nat n) in Hs by lia.
    replace (240 * (Z.of_nat n + 1) - 1) with (240 * Z.of_nat n + 239) in Hs |- * by lia.
    lia.
Qed.

Lemma cache_tail_count :
  let cache_last := List.last PiTable.pi_cache_ (PiTable.mk_pi 0 0) in
  PiTable.count cache_last + popcount64 (PiTable.bits cache_last)
  = 3 + count_between prime_from_7 0 (30720 - 1).
Proof.
  cbv zeta.
  change (List.last PiTable.pi_cache_ (PiTable.mk_pi 0 0))
    with (PiTable.pget PiTable.pi_cache_ 127).
  pose proof (cache_count_below_word 127 ltac:(lia)) as Hc.
  unfold count_below_word in Hc.
  pose proof (popcount_full_word 30720 127 (PiTable.pget PiTable.pi_cache_ 127)
                ltac:(lia) (cache_bits_mark_primes 30720 127 ltac:(lia))) as Hp.
  pose proof (count_between_split prime_from_7 0 (240 * 127 - 1) (30720 - 1)
                ltac:(lia) ltac:(lia)) as Hs.
  replace (240 * 127 - 1 + 1) with (240 * 127) in Hs by lia.
  replace (240 * 127 + 239) with (30720 - 1) in Hp by lia.
  lia.
Qed.

(** The three primes below 7 and the primes from 7 on make up [pi(n)]. *)
Lemma prime_pi_from_7 (n : Z) :
  5 <= n -> prime_pi n = 3 + count_between prime_from_7 0 n.
Proof.
  intros Hn. unfold prime_pi.
  destruct (Z.eq_dec n 5) as [-> | Hne]; [vm_compute; reflexivity|].
  rewrite (count_between_split is_prime 2 6 n) by lia.
  rewrite (count_between_split prime_from_7 0 6 n) by lia.
  rewrite (prime_from_7_below 0 6) by lia.
  change (count_between is_prime 2 6) with 3.
  rewrite (count_between_ext is_prime prime_from_7 (6 + 1) n); [lia|].
  intros k Hk. unfold prime_from_7.
  replace (7 <=? k) with true by (symmetry; apply Z.leb_le; lia).
  rewrite andb_true_r. reflexivity.
Qed.

(** ** init_bits *)

Lemma for_up_zero_fill (n : nat) (i0 : Z) (v : list PiTable.pi_t) :
  0 <= i0 -> i0 + Z.of_nat n <= Z.of_nat (length v) ->
  length (for_up n i0 (fun i pi => PiTable.pset pi i (PiTable.mk_pi 0 0)) v)
  = length v
  /\ forall j, 0 <= j ->
       PiTable.pget
         (for_up n i0 (fun i pi => PiTable.pset pi i (PiTable.mk_pi 0 0)) v) j
       = if (i0 <=? j) && (j <? i0 + Z.of_nat n) then PiTable.mk_pi 0 0
         else PiTable.pget v j.
Proof.
  revert i0 v; induction n as [|n IH]; intros i0 v Hi Hlen.
  - simpl. split; [reflexivity|]. intros j Hj. zbool.
  - simpl for_up.
    destruct (IH (i0 + 1) (PiTable.pset v i0 (PiTable.mk_pi 0 0))) as [H1 H2];
      [lia | rewrite pset_length; lia |].
    split; [rewrite H1; apply pset_length|].
    intros j Hj. rewrite H2 by lia.
    destruct (Z.eq_dec j i0) as [-> | Hne].
    + rewrite pget_pset_eq by lia. zbool.
    + rewrite pget_pset_ne by lia. zbool.
Qed.

(** One prime sets one bit: the bit of its residue in the word of its
    quotient. *)
Lemma mark_prime (v : list PiTable.pi_t) (p w k : Z) :
  prime_from_7 p = true -> 0 <= p / 240 < Z.of_nat (length v) ->
  0 <= w -> 0 <= k < 64 ->
  let e := PiTable.pget v (p / 240) in
  let v' := PiTable.pset v (p / 240)
              (PiTable.mk_pi (PiTable.count e)
                 (Z.lor (PiTable.bits e) PiTable.set_bit_@(p mod 240))) in
  Z.testbit (PiTable.bits (PiTable.pget v' w)) k
  = Z.testbit (PiTable.bits (PiTable.pget v w)) k || (p =? PiTable.number_of w k)
  /\ PiTable.count (PiTable.pget v' w) = PiTable.count (PiTable.pget v w).
Proof.
  intros Hp Hlen Hw Hk. cbv zeta.
  pose proof (Z.mod_pos_bound p 240 ltac:(lia)) as Hmb.
  pose proof (Z.div_mod p 240 ltac:(lia)) as Hdm.
  destruct (set_bit_of_residue (p mod 240) Hmb) as (k0 & Hk0 & Hnum & Hbit).
  { rewrite coprime30_mod240. apply prime_from_7_coprime30. exact Hp. }
  destruct (number_of_range k Hk) as [Hr _].
  rewrite (number_of_word w k).
  destruct (Z.eq_dec w (p / 240)) as [-> | Hne].
  - rewrite pget_pset_eq by lia. simpl. split; [|reflexivity].
    rewrite Z.lor_spec, Hbit, Z.shiftl_1_l, Z.pow2_bits_eqb by lia. f_equal.
    destruct (Z.eqb_spec k0 k) as [-> | Hkne].
    + symmetry. apply Z.eqb_eq. lia.
    + symmetry. apply Z.eqb_neq. intros Heq. apply Hkne.
      apply number_of_injective; lia.
  - rewrite pget_pset_ne by lia. split; [|reflexivity].
    replace (p =? 240 * w + PiTable.number_of 0 k) with false;
      [rewrite orb_false_r; reflexivity|].
    symmetry. apply Z.eqb_neq. intros Heq. apply Hne.
    apply Z.div_unique with (PiTable.number_of 0 k); lia.
Qed.

Lemma mark_primes (ps : list Z) (v : list PiTable.pi_t) (count : Z) :
  (forall p, In p ps -> prime_from_7 p = true /\ 0 <= p / 240 < Z.of_nat (length v)) ->
  let r :=
    fold_left
      (fun '(pi, count) prime =>
         let prime_bit := PiTable.set_bit_@(prime mod 240) in
         let e := PiTable.pget pi (prime / 240) in
         (PiTable.pset pi (prime / 240)
            (PiTable.mk_pi (PiTable.count e) (Z.lor (PiTable.bits e) prime_bit)),
          count + 1))
      ps (v, count) in
  length r.1 = length v
  /\ r.2 = count + Z.of_nat (length ps)
  /\ forall w k, 0 <= w -> 0 <= k < 64 ->
       Z.testbit (PiTable.bits (PiTable.pget r.1 w)) k
       = Z.testbit (PiTable.bits (PiTable.pget v w)) k
         || existsb (fun p => p =? PiTable.number_of w k) ps
       /\ PiTable.count (PiTable.pget r.1 w) = PiTable.count (PiTable.pget v w).
Proof.
  revert v count; induction ps as [|p ps IH]; intros v count Hps; cbv zeta.
  - simpl. split; [reflexivity|]. split; [lia|]. intros w k _ _.
    rewrite orb_false_r. split; reflexivity.
  - simpl fold_left.
    destruct (Hps p ltac:(left; reflexivity)) as [Hp Hlen].
    specialize (IH (PiTable.pset v (p / 240)
                      (PiTable.mk_pi (PiTable.count (PiTable.pget v (p / 240)))
                         (Z.lor (PiTable.bits (PiTable.pget v (p / 240)))
                            PiTable.set_bit_@(p mod 240))))
                  (count + 1)).
    cbv zeta in IH. destruct IH as (H1 & H2 & H3).
    { intros q Hq. rewrite pset_length. apply Hps. right. exact Hq. }
    split; [rewrite H1; apply pset_length|].
    split; [rewrite H2; simpl length; lia|].
    intros w k Hw Hk. destruct (H3 w k Hw Hk) as [Hb Hc].
    destruct (mark_prime v p w k Hp Hlen Hw Hk) as [Hb' Hc'].
    split; [|rewrite Hc; exact Hc'].
    rewrite Hb, Hb'. simpl existsb. rewrite orb_assoc. reflexivity.
Qed.

Lemma mark_primes_other (ps : list Z) (v : list PiTable.pi_t) (count w : Z) :
  0 <= w -> (forall p, In p ps -> 0 <= p / 240 /\ p / 240 <> w) ->
  PiTable.pget
    (fold_left
       (fun '(pi, count) prime =>
          let prime_bit := PiTable.set_bit_@(prime mod 240) in
          let e := PiTable.pget pi (prime / 240) in
          (PiTable.pset pi (prime / 240)
             (PiTable.mk_pi (PiTable.count e) (Z.lor (PiTable.bits e) prime_bit)),
           count + 1))
       ps (v, count)).1 w
  = PiTable.pget v w.
Proof.
  intros Hw. revert v count; induction ps as [|p ps IH]; intros v count Hps.
  - reflexivity.
  - simpl fold_left. cbv zeta. rewrite IH.
    + destruct (Hps p ltac:(left; reflexivity)). apply pget_pset_ne; lia.
    + intros q Hq. apply Hps. right. exact Hq.
Qed.

Lemma existsb_primes_between (low high n : Z) :
  7 <= low ->
  existsb (fun p => p =? n) (PiTable.primes_between low high)
  = prime_from_7 n && (low <=? n) && (n <? high).
Proof.
  intros Hlow. unfold PiTable.primes_between, prime_from_7.
  destruct (is_prime n && (7 <=? n) && (low <=? n) && (n <? high)) eqn:E.
  - apply andb_true_iff in E. destruct E as [E E3].
    apply andb_true_iff in E. destruct E as [E E2].
    apply andb_true_iff in E. destruct E as [E0 E1].
    apply existsb_exists. exists n. split; [|apply Z.eqb_refl].
    apply filter_In. split; [|exact E0].
    apply in_zrange. apply Z.leb_le in E2. apply Z.ltb_lt in E3. lia.
  - destruct (existsb _ _) eqn:E'; [|reflexivity].
    apply existsb_exists in E'. destruct E' as (p & Hin & Hp).
    apply Z.eqb_eq in Hp. subst p. apply filter_In in Hin. destruct Hin as [Hr Hpr].
    apply in_zrange in Hr. rewrite Hpr in E.
    replace (7 <=? n) with true in E by (symmetry; apply Z.leb_le; lia).
    replace (low <=? n) with true in E by (symmetry; apply Z.leb_le; lia).
    replace (n <? high) with true in E by (symmetry; apply Z.ltb_lt; lia).
    discriminate E.
Qed.

Lemma ceil_div_240 (high : Z) (w : Z) :
  0 <= high -> (w < ceil_div high 240 <-> 240 * w < high).
Proof.
  intros H. unfold ceil_div.
  pose proof (Z.div_mod (high + 240 - 1) 240 ltac:(lia)).
  pose proof (Z.mod_pos_bound (high + 240 - 1) 240 ltac:(lia)).
  lia.
Qed.

Section chunk.

Variable memory : nat -> PiTable.pi_t.
Variable memory_counts : nat -> Z.
Variable ideal_num_threads : Z -> Z -> Z -> Z.

(** What [init_bits] does to the words of its chunk, and to no other. *)
Lemma init_bits_words (low high thread_num : Z) (tab : PiTable.t) :
  7 <= low -> low mod 240 = 0 -> low < high ->
  ceil_div high 240 <= Z.of_nat (length (PiTable.pi_ tab)) ->
  let tab' := PiTable.init_bits low high thread_num tab in
  length (PiTable.pi_ tab') = length (PiTable.pi_ tab)
  /\ PiTable.max_x_ tab' = PiTable.max_x_ tab
  /\ PiTable.counts_ tab'
     = vset (PiTable.counts_ tab) thread_num
         (count_between prime_from_7 low (high - 1))
  /\ (forall w, 0 <= w -> 240 * w < low \/ high <= 240 * w ->
        PiTable.pget (PiTable.pi_ tab') w = PiTable.pget (PiTable.pi_ tab) w)
  /\ (forall w k, low <= 240 * w < high -> 0 <= k < 64 ->
        Z.testbit (PiTable.bits (PiTable.pget (PiTable.pi_ tab') w)) k
        = prime_from_7 (PiTable.number_of w k) && (PiTable.number_of w k <? high)).
Proof.
  intros Hlow Hal Hlt Hlen. cbv zeta. unfold PiTable.init_bits. cbv zeta.
  pose proof (Z.div_mod low 240 ltac:(lia)) as Hdm. rewrite Hal in Hdm.
  assert (Hi0 : 0 <= low / 240) by (apply Z.div_pos; lia).
  assert (Hcd : low / 240 < ceil_div high 240) by (apply ceil_div_240; lia).
  unfold for_range.
  destruct (for_up_zero_fill (Z.to_nat (ceil_div high 240 - low / 240)) (low / 240)
              (PiTable.pi_ tab)) as [Hz1 Hz2]; [lia | lia |].
  set (zeroed := for_up _ _ _ (PiTable.pi_ tab)) in *.
  replace (Z.max low 7) with low by lia.
  pose proof (mark_primes (PiTable.primes_between low high) zeroed 0) as Hm.
  cbv zeta in Hm.
  destruct (fold_left _ (PiTable.primes_between low high) (zeroed, 0))
    as [pi' count'] eqn:Hfold.
  simpl in Hm. destruct Hm as (Hm1 & Hm2 & Hm3).
  { intros p Hp. unfold PiTable.primes_between in Hp. apply filter_In in Hp.
    destruct Hp as [Hr Hpr]. apply in_zrange in Hr.
    split.
    - unfold prime_from_7. rewrite Hpr. apply Z.leb_le. lia.
    - rewrite Hz1. split; [apply Z.div_pos; lia|].
      assert (p / 240 < ceil_div high 240); [|lia].
      apply ceil_div_240; [lia|].
      pose proof (Z.mul_div_le p 240 ltac:(lia)). lia. }
  simpl. split; [rewrite Hm1; exact Hz1|]. split; [reflexivity|].
  split.
  { f_equal. rewrite Hm2. unfold PiTable.primes_between.
    rewrite length_filter_zrange by lia.
    rewrite Z.add_0_l. apply count_between_ext. intros k Hk. unfold prime_from_7.
    replace (7 <=? k) with true by (symmetry; apply Z.leb_le; lia).
    rewrite andb_true_r. reflexivity. }
  split.
  - intros w Hw Hout.
    assert (Hzero : PiTable.pget zeroed w = PiTable.pget (PiTable.pi_ tab) w).
    { rewrite Hz2 by lia.
      replace ((low / 240 <=? w)
               && (w <? low / 240 + Z.of_nat (Z.to_nat (ceil_div high 240 - low / 240))))
        with false; [reflexivity|].
      symmetry. apply andb_false_iff.
      destruct Hout as [Hout | Hout].
      - left. apply Z.leb_gt. lia.
      - right. apply Z.ltb_ge.
        assert (~ w < ceil_div high 240); [|lia].
        rewrite ceil_div_240 by lia. lia. }
    rewrite <- Hzero.
    pose proof (mark_primes_other (PiTable.primes_between low high) zeroed 0 w Hw)
      as Ho.
    cbv zeta in Ho. rewrite Hfold in Ho. apply Ho.
    intros p Hp. unfold PiTable.primes_between in Hp. apply filter_In in Hp.
    destruct Hp as [Hr _]. apply in_zrange in Hr.
    pose proof (Z.div_mod p 240 ltac:(lia)).
    pose proof (Z.mod_pos_bound p 240 ltac:(lia)).
    split; [apply Z.div_pos; lia | lia].
  - intros w k Hw Hk. destruct (Hm3 w k ltac:(lia) Hk) as [Hb _].
    rewrite Hb, Hz2 by lia.
    replace ((low / 240 <=? w)
             && (w <? low / 240 + Z.of_nat (Z.to_nat (ceil_div high 240 - low / 240))))
      with true.
    2:{ symmetry. apply andb_true_iff. split; [apply Z.leb_le; lia|].
        apply Z.ltb_lt. assert (w < ceil_div high 240) by (apply ceil_div_240; lia).
        lia. }
    simpl PiTable.bits. rewrite Z.testbit_0_l, orb_false_l.
    rewrite existsb_primes_between by lia.
    destruct (number_of_range k Hk) as [Hr _]. rewrite (number_of_word w k).
    replace (low <=? 240 * w + PiTable.number_of 0 k) with true
      by (symmetry; apply Z.leb_le; lia).
    rewrite andb_true_r. reflexivity.
Qed.

End chunk.

(** ** init_count *)

Lemma for_up_ind {A : Type} (P : Z -> A -> Prop) (body : Z -> A -> A)
    (n : nat) (i0 : Z) (a : A) :
  P i0 a ->
  (forall i a, i0 <= i < i0 + Z.of_nat n -> P i a -> P (i + 1) (body i a)) ->
  P (i0 + Z.of_nat n) (for_up n i0 body a).
Proof.
  revert i0 a; induction n as [|n IH]; intros i0 a H0 Hstep.
  - simpl. rewrite Z.add_0_r. exact H0.
  - simpl for_up. replace (i0 + Z.of_nat (S n)) with (i0 + 1 + Z.of_nat n) by lia.
    apply IH.
    + apply Hstep; [lia | exact H0].
    + intros i a' Hi. apply Hstep. lia.
Qed.

Lemma running_counts (n : nat) (i0 c : Z) (v : list PiTable.pi_t) :
  0 <= i0 -> i0 + Z.of_nat n <= Z.of_nat (length v) ->
  (forall w, i0 <= w < i0 + Z.of_nat n - 1 ->
     popcount64 (PiTable.bits (PiTable.pget v w))
     = count_between prime_from_7 (240 * w) (240 * w + 239)) ->
  let r :=
    for_up n i0
      (fun i '(pi, count) =>
         (PiTable.pset pi i (PiTable.mk_pi count (PiTable.bits (PiTable.pget pi i))),
          count + popcount64 (PiTable.bits (PiTable.pget pi i))))
      (v, c) in
  length r.1 = length v
  /\ (forall w, 0 <= w -> w < i0 \/ i0 + Z.of_nat n <= w ->
        PiTable.pget r.1 w = PiTable.pget v w)
  /\ (forall w, i0 <= w < i0 + Z.of_nat n ->
        PiTable.bits (PiTable.pget r.1 w) = PiTable.bits (PiTable.pget v w)
        /\ PiTable.count (PiTable.pget r.1 w)
           = c + count_between prime_from_7 (240 * i0) (240 * w - 1)).
Proof.
  revert i0 c v; induction n as [|n IH]; intros i0 c v Hi Hlen Hpop; cbv zeta.
  - simpl. split; [reflexivity|]. split; [reflexivity|]. intros w Hw. lia.
  - simpl for_up.
    set (v1 := PiTable.pset v i0 (PiTable.mk_pi c (PiTable.bits (PiTable.pget v i0)))).
    set (c1 := c + popcount64 (PiTable.bits (PiTable.pget v i0))).
    specialize (IH (i0 + 1) c1 v1). cbv zeta in IH.
    destruct IH as (H1 & H2 & H3).
    + lia.
    + unfold v1. rewrite pset_length. lia.
    + intros w Hw. unfold v1. rewrite pget_pset_ne by lia. apply Hpop. lia.
    + split; [rewrite H1; apply pset_length|]. split.
      * intros w Hw Hout. rewrite H2 by lia. unfold v1. apply pget_pset_ne; lia.
      * intros w Hw. destruct (Z.eq_dec w i0) as [-> | Hne].
        -- rewrite H2 by lia. unfold v1. rewrite pget_pset_eq by lia. simpl.
           rewrite count_between_empty by lia. split; [reflexivity | lia].
        -- destruct (H3 w ltac:(lia)) as [Hb Hc]. unfold v1 in Hb.
           rewrite pget_pset_ne in Hb by lia. split; [exact Hb|].
           rewrite Hc. unfold c1. rewrite Hpop by lia.
           pose proof (count_between_split prime_from_7 (240 * i0) (240 * i0 + 239)
                         (240 * w - 1) ltac:(lia) ltac:(lia)) as Hs.
           replace (240 * i0 + 239 + 1) with (240 * (i0 + 1)) in Hs by lia.
           lia.
Qed.

Section chunk.

Variable limit : Z.

(** What [init_count] does to the words of its chunk, and to no other. *)
Lemma init_count_words (low high thread_num : Z) (tab : PiTable.t) :
  7 <= low -> low mod 240 = 0 -> low < high -> high <= limit ->
  ceil_div high 240 <= Z.of_nat (length (PiTable.pi_ tab)) ->
  (forall w, low <= 240 * w < high ->
     bits_mark_primes limit w (PiTable.pget (PiTable.pi_ tab) w)) ->
  (let cache_last := List.last PiTable.pi_cache_ (PiTable.mk_pi 0 0) in
   for_range 0 thread_num (fun i count => count + (PiTable.counts_ tab)@i)
     (PiTable.count cache_last + popcount64 (PiTable.bits cache_last))
   = 3 + count_between prime_from_7 0 (low - 1)) ->
  let tab' := PiTable.init_count low high thread_num tab in
  length (PiTable.pi_ tab') = length (PiTable.pi_ tab)
  /\ PiTable.max_x_ tab' = PiTable.max_x_ tab
  /\ PiTable.counts_ tab' = PiTable.counts_ tab
  /\ (forall w, 0 <= w -> 240 * w < low \/ high <= 240 * w ->
        PiTable.pget (PiTable.pi_ tab') w = PiTable.pget (PiTable.pi_ tab) w)
  /\ (forall w, low <= 240 * w < high ->
        PiTable.bits (PiTable.pget (PiTable.pi_ tab') w)
        = PiTable.bits (PiTable.pget (PiTable.pi_ tab) w)
        /\ count_below_word w (PiTable.pget (PiTable.pi_ tab') w)).
Proof.
  intros Hlow Hal Hlt Hhigh Hlen Hbits Hc0. cbv zeta in *.
  unfold PiTable.init_count. cbv zeta. rewrite Hc0. clear Hc0.
  pose proof (Z.div_mod low 240 ltac:(lia)) as Hdm. rewrite Hal in Hdm.
  assert (Hi0 : 0 <= low / 240) by (apply Z.div_pos; lia).
  assert (Hcd : low / 240 < ceil_div high 240) by (apply ceil_div_240; lia).
  unfold for_range.
  pose proof (running_counts (Z.to_nat (ceil_div high 240 - low / 240)) (low / 240)
                (3 + count_between prime_from_7 0 (low - 1)) (PiTable.pi_ tab))
    as Hr.
  cbv zeta in Hr.
  destruct (for_up _ (low / 240) _ (PiTable.pi_ tab, _)) as [pi' c'].
  simpl in Hr. destruct Hr as (H1 & H2 & H3).
  - lia.
  - lia.
  - intros w Hw.
    assert (Hw' : w + 1 < ceil_div high 240) by lia.
    apply ceil_div_240 in Hw'; [|lia].
    apply (popcount_full_word limit); [lia|]. apply Hbits. lia.
  - simpl. split; [exact H1|]. split; [reflexivity|]. split; [reflexivity|]. split.
    + intros w Hw Hout. apply H2; [exact Hw|].
      destruct Hout as [Hout | Hout]; [left; lia|].
      right. assert (~ w < ceil_div high 240); [|lia].
      rewrite ceil_div_240 by lia. lia.
    + intros w Hw.
      assert (Hw' : w < ceil_div high 240) by (apply ceil_div_240; lia).
      destruct (H3 w ltac:(lia)) as [Hb Hc]. split; [exact Hb|].
      unfold count_below_word. rewrite Hc.
      pose proof (count_between_split prime_from_7 0 (low - 1) (240 * w - 1)
                    ltac:(lia) ltac:(lia)) as Hs.
      replace (low - 1 + 1) with (240 * (low / 240)) in Hs by lia.
      lia.
Qed.

End chunk.

(** ** The two loops of init *)

Lemma u64_small (z : Z) : 0 <= z < 2 ^ 64 -> u64 z = z.
Proof. intros H. unfold u64. apply Z.mod_small. exact H. Qed.

Lemma for_up_sum_counts (counts : list Z) (n : nat) (i0 c : Z) (g : Z -> Z) :
  (forall i, i0 <= i < i0 + Z.of_nat n -> counts@i = g (i + 1) - g i) ->
  for_up n i0 (fun i count => count + counts@i) c = c + g (i0 + Z.of_nat n) - g i0.
Proof.
  revert i0 c; induction n as [|n IH]; intros i0 c H.
  - simpl. rewrite Z.add_0_r. lia.
  - simpl for_up. rewrite IH by (intros; apply H; lia). rewrite H by lia.
    replace (i0 + 1 + Z.of_nat n) with (i0 + Z.of_nat (S n)) by lia. lia.
Qed.

Section loops.

Variables (limit D threads max_x : Z) (words : nat).

Hypothesis D_pos : 0 < D.
Hypothesis D_aligned : D mod 240 = 0.
Hypothesis limit_large : 30720 < limit.
Hypothesis threads_pos : 1 <= threads.
Hypothesis chunks_cover : limit <= 30720 + D * threads.
Hypothesis no_overflow : 30720 + D * threads + D < 2 ^ 64.
Hypothesis words_fit : Z.of_nat words = ceil_div limit 240.

Lemma chunk_words (t : Z) :
  0 <= t < threads ->
  u64 (30720 + u64 (D * t)) = chunk_low D t
  /\ u64 (chunk_low D t + D) = chunk_low D (t + 1)
  /\ chunk_low D t mod 240 = 0.
Proof.
  intros Ht. unfold chunk_low.
  assert (0 <= D * t) by nia. assert (D * t + D <= D * threads) by nia.
  rewrite (u64_small (D * t)) by lia. rewrite !u64_small by lia.
  split; [reflexivity|]. split; [lia|].
  apply Z.mod_divide in D_aligned; [|lia]. destruct D_aligned as [q Hq].
  apply Z.mod_divide; [lia|]. exists (128 + q * t). lia.
Qed.

Lemma bits_loop (tab : PiTable.t) :
  bits_done limit D threads 0 words max_x tab ->
  bits_done limit D threads threads words max_x
    (for_range 0 threads
       (fun t tab =>
          let low := u64 (30720 + u64 (D * t)) in
          let high := u64 (low + D) in
          let high := Z.min high limit in
          if low <? high then PiTable.init_bits low high t tab else tab)
       tab).
Proof.
  intros H0. unfold for_range.
  match goal with
  | |- bits_done _ _ _ _ _ _ (for_up ?n 0 ?body tab) =>
      pose proof (for_up_ind
                    (fun t tab => bits_done limit D threads t words max_x tab)
                    body n 0 tab H0) as Hind
  end.
  replace (0 + Z.of_nat (Z.to_nat (threads - 0))) with threads in Hind by lia.
  apply Hind. clear Hind.
  intros t tb Ht (Hlen & Hmx & Hcl & Hcache & Hbits & Hcnt). cbv zeta.
  destruct (chunk_words t ltac:(lia)) as (Hlo & Hhi & Hal).
  rewrite Hlo, Hhi.
  assert (Hlow : 30720 <= chunk_low D t) by (unfold chunk_low; nia).
  assert (Hnext : chunk_low D (t + 1) = chunk_low D t + D) by (unfold chunk_low; lia).
  destruct (Z.ltb_spec (chunk_low D t) (Z.min (chunk_low D (t + 1)) limit))
    as [Hlt | Hge].
  - destruct (init_bits_words (chunk_low D t) (Z.min (chunk_low D (t + 1)) limit)
                t tb) as (H1 & H2 & H3 & H4 & H5); try lia.
    { rewrite Hlen, words_fit. unfold ceil_div.
      apply Z.div_le_mono; lia. }
    cbv zeta in *.
    split; [rewrite H1; exact Hlen|]. split; [rewrite H2; exact Hmx|].
    split; [rewrite H3, vset_length; exact Hcl|].
    split.
    { intros w Hw. rewrite H4 by lia. apply Hcache. exact Hw. }
    split.
    + intros w Hw Hin.
      destruct (Z_lt_le_dec (240 * w) (chunk_low D t)) as [Hold | Hnew].
      * rewrite H4 by lia. apply Hbits; lia.
      * intros k Hk Hnum. rewrite H5 by lia.
        replace (PiTable.number_of w k <? Z.min (chunk_low D (t + 1)) limit)
          with true; [apply andb_true_r|].
        symmetry. apply Z.ltb_lt.
        destruct (number_of_range k Hk) as [Hr _].
        rewrite (number_of_word w k) in *.
        destruct (Z_lt_le_dec (chunk_low D (t + 1)) limit) as [Hmid | Hlast]; [|lia].
        replace (Z.min (chunk_low D (t + 1)) limit) with (chunk_low D (t + 1)) in * by lia.
        destruct (chunk_words t ltac:(lia)) as (_ & _ & Hal0).
        pose proof (Z.div_mod (chunk_low D t) 240 ltac:(lia)) as Hd0.
        rewrite Hal0 in Hd0.
        apply Z.mod_divide in D_aligned; [|lia]. destruct D_aligned as [q Hq].
        rewrite Hnext in *.
        assert (w < chunk_low D t / 240 + q) by lia. lia.
    + intros i Hi Hilim. rewrite H3.
      destruct (Z.eq_dec i t) as [-> | Hne].
      * rewrite vget_vset_eq by lia. reflexivity.
      * rewrite vget_vset_ne by lia. apply Hcnt; lia.
  - split; [exact Hlen|]. split; [exact Hmx|]. split; [exact Hcl|].
    split; [exact Hcache|]. split.
    + intros w Hw Hin. apply Hbits; [exact Hw | lia].
    + intros i Hi Hilim. apply Hcnt; [|exact Hilim].
      assert (chunk_low D i < chunk_low D t \/ i = t) as [Hlt | ->].
      { unfold chunk_low. destruct (Z.eq_dec i t); [right; assumption | left; nia]. }
      * unfold chunk_low in *. nia.
      * lia.
Qed.

Lemma counts_loop (tab : PiTable.t) :
  bits_done limit D threads threads words max_x tab ->
  counts_done limit D threads threads words max_x
    (for_range 0 threads
       (fun t tab =>
          let low := u64 (30720 + u64 (D * t)) in
          let high := u64 (low + D) in
          let high := Z.min high limit in
          if low <? high then PiTable.init_count low high t tab else tab)
       tab).
Proof.
  intros H0. unfold for_range.
  match goal with
  | |- counts_done _ _ _ _ _ _ (for_up ?n 0 ?body tab) =>
      pose proof (for_up_ind
                    (fun t tab => counts_done limit D threads t words max_x tab)
                    body n 0 tab) as Hind
  end.
  replace (0 + Z.of_nat (Z.to_nat (threads - 0))) with threads in Hind by lia.
  apply Hind; clear Hind.
  { split; [exact H0|]. intros w Hw Hin. unfold chunk_low in Hin. lia. }
  intros t tb Ht ((Hlen & Hmx & Hcl & Hcache & Hbits & Hcnt) & Hcounts). cbv zeta.
  destruct (chunk_words t ltac:(lia)) as (Hlo & Hhi & Hal).
  rewrite Hlo, Hhi.
  assert (Hlow : 30720 <= chunk_low D t) by (unfold chunk_low; nia).
  assert (Hnext : chunk_low D (t + 1) = chunk_low D t + D) by (unfold chunk_low; lia).
  assert (Hall : Z.min (chunk_low D threads) limit = limit)
    by (unfold chunk_low; lia).
  rewrite Hall in Hbits.
  destruct (Z.ltb_spec (chunk_low D t) (Z.min (chunk_low D (t + 1)) limit))
    as [Hlt | Hge].
  - destruct (init_count_words limit (chunk_low D t)
                (Z.min (chunk_low D (t + 1)) limit) t tb)
      as (H1 & H2 & H3 & H4 & H5); try lia.
    { rewrite Hlen, words_fit. unfold ceil_div. apply Z.div_le_mono; lia. }
    { intros w Hw. apply Hbits; lia. }
    { cbv zeta. unfold for_range.
      rewrite (for_up_sum_counts _ _ 0 _
                 (fun i => count_between prime_from_7 30720 (chunk_low D i - 1))).
      - rewrite cache_tail_count.
        replace (0 + Z.of_nat (Z.to_nat (t - 0))) with t by lia.
        pose proof (count_between_empty prime_from_7 30720 (chunk_low D 0 - 1)
                      ltac:(unfold chunk_low; lia)) as He.
        pose proof (count_between_split prime_from_7 0 (30720 - 1)
                      (chunk_low D t - 1) ltac:(lia) ltac:(lia)) as Hs.
        replace (30720 - 1 + 1) with 30720 in Hs by lia. lia.
      - intros i Hi.
        assert (Hi' : chunk_low D (i + 1) <= chunk_low D t) by (unfold chunk_low; nia).
        assert (Hi0 : 30720 <= chunk_low D i) by (unfold chunk_low; nia).
        rewrite Hcnt by (unfold chunk_low in *; nia).
        replace (Z.min (chunk_low D (i + 1)) limit) with (chunk_low D (i + 1)) by lia.
        pose proof (count_between_split prime_from_7 30720 (chunk_low D i - 1)
                      (chunk_low D (i + 1) - 1) ltac:(lia)
                      ltac:(unfold chunk_low; nia)) as Hs.
        replace (chunk_low D i - 1 + 1) with (chunk_low D i) in Hs by lia. lia. }
    cbv zeta in *.
    split.
    + split; [rewrite H1; exact Hlen|]. split; [rewrite H2; exact Hmx|].
      split; [rewrite H3; exact Hcl|].
      split.
      { intros w Hw. rewrite H4 by lia. apply Hcache. exact Hw. }
      split.
      * rewrite Hall. intros w Hw Hin k Hk Hnum.
        destruct (Z_lt_le_dec (240 * w) (chunk_low D t)) as [Ho | Hn].
        -- rewrite H4 by lia. apply Hbits; assumption.
        -- destruct (Z_lt_le_dec (240 * w) (Z.min (chunk_low D (t + 1)) limit))
             as [Hi | Ho].
           ++ destruct (H5 w ltac:(lia)) as [Hb _]. rewrite Hb.
              apply Hbits; assumption.
           ++ rewrite H4 by lia. apply Hbits; assumption.
      * intros i Hi Hilim. rewrite H3. apply Hcnt; assumption.
    + intros w Hw Hin.
      destruct (Z_lt_le_dec (240 * w) (chunk_low D t)) as [Ho | Hn].
      * rewrite H4 by lia. apply Hcounts; lia.
      * destruct (H5 w ltac:(lia)) as [_ Hc]. exact Hc.
  - split; [repeat split; assumption || (rewrite Hall; assumption)|].
    intros w Hw Hin. apply Hcounts; [exact Hw | lia].
Qed.

End loops.

(** ** The constructor *)

Lemma resize_raw_length {A : Type} (n : Z) (memory : nat -> A) :
  length (PiTable.resize_raw n memory []) = Z.to_nat n.
Proof.
  unfold PiTable.resize_raw. rewrite take_nil. simpl.
  rewrite length_map, length_seq. lia.
Qed.

Lemma pget_cache_prefix (n : nat) (rest : list PiTable.pi_t) (w : Z) :
  (n <= 128)%nat -> 0 <= w < Z.of_nat n ->
  PiTable.pget (take n PiTable.pi_cache_ ++ rest) w
  = PiTable.pget PiTable.pi_cache_ w.
Proof.
  intros Hn Hw. unfold PiTable.pget. rewrite !nth_lookup.
  rewrite lookup_app_l by (rewrite length_take, cache_length; lia).
  rewrite lookup_take_lt by lia. reflexivity.
Qed.

Lemma thread_dist_facts (dist T : Z) :
  0 < dist < 2 ^ 62 -> 1 <= T < 2 ^ 31 ->
  let thread_dist := Z.max 10000000 (dist / T) in
  let D := u64 (thread_dist + (240 - thread_dist mod 240)) in
  0 < D /\ D mod 240 = 0 /\ dist <= D * T /\ 30720 + D * T + D < 2 ^ 64.
Proof.
  intros Hdist HT. cbv zeta.
  set (td := Z.max 10000000 (dist / T)).
  pose proof (Z.div_mod dist T ltac:(lia)) as Hdm.
  pose proof (Z.mod_pos_bound dist T ltac:(lia)) as Hmb.
  assert (Hq : 0 <= dist / T) by (apply Z.div_pos; lia).
  assert (Hqle : dist / T <= dist) by (apply Z.div_le_upper_bound; nia).
  pose proof (Z.div_mod td 240 ltac:(lia)) as Htd.
  pose proof (Z.mod_pos_bound td 240 ltac:(lia)) as Htm.
  assert (Htd1 : 10000000 <= td) by lia.
  assert (Htd2 : td <= Z.max 10000000 dist) by lia.
  assert (Htd3 : dist / T <= td) by lia.
  assert (H62 : 2 ^ 62 = 4611686018427387904) by reflexivity.
  assert (H64 : 2 ^ 64 = 18446744073709551616) by reflexivity.
  assert (H31 : 2 ^ 31 = 2147483648) by reflexivity.
  rewrite u64_small by lia.
  split; [lia|]. split.
  { apply Z.mod_divide; [lia|]. exists (td / 240 + 1). lia. }
  assert (HtdT : td * T <= Z.max (10000000 * T) dist).
  { unfold td. destruct (Z.max_spec 10000000 (dist / T)) as [[_ ->] | [_ ->]]; nia. }
  split; nia.
Qed.

Section table.

Variable memory : nat -> PiTable.pi_t.
Variable memory_counts : nat -> Z.
Variable ideal_num_threads : Z -> Z -> Z -> Z.
Variables (max_x threads : Z).

Hypothesis max_x_range : 0 <= max_x < 2 ^ 62.
Hypothesis threads_range :
  1 <= ideal_num_threads (max_x + 1 - 30720) threads 10000000 < 2 ^ 31.

(** Every word of the table that holds a number up to [max_x] marks the
    primes up to [max_x] and counts the primes below it. *)
Lemma table_words (w : Z) :
  0 <= w -> 240 * w <= max_x ->
  let tab := PiTable.make memory memory_counts ideal_num_threads max_x threads in
  bits_mark_primes (max_x + 1) w (PiTable.pget (PiTable.pi_ tab) w)
  /\ count_below_word w (PiTable.pget (PiTable.pi_ tab) w).
Proof.
  intros Hw Hwmax. cbv zeta. unfold PiTable.make. cbv zeta.
  assert (H62 : 2 ^ 62 = 4611686018427387904) by reflexivity.
  assert (H64 : 2 ^ 64 = 18446744073709551616) by reflexivity.
  rewrite (u64_small (max_x + 1)) by lia.
  set (limit := max_x + 1) in *.
  rewrite cache_length, resize_raw_length.
  pose proof (ceil_div_240 limit w ltac:(lia)) as Hcd.
  assert (HL : 0 <= ceil_div limit 240) by (unfold ceil_div; apply Z.div_pos; lia).
  set (L := ceil_div limit 240) in *.
  rewrite (Z2Nat.id L) by lia.
  change (Z.of_nat 128) with 128. change (128 * 240) with 30720.
  set (pi1 := take (Z.to_nat (Z.min 128 L)) PiTable.pi_cache_
              ++ drop (Z.to_nat (Z.min 128 L)) (PiTable.resize_raw L memory [])).
  assert (Hlen1 : length pi1 = Z.to_nat L).
  { unfold pi1. rewrite length_app, length_take, length_drop, cache_length,
      resize_raw_length. lia. }
  assert (Hcache1 : forall v, 0 <= v < Z.min 128 L ->
            PiTable.pget pi1 v = PiTable.pget PiTable.pi_cache_ v).
  { intros v Hv. unfold pi1. apply pget_cache_prefix; lia. }
  destruct (Z.gtb_spec limit 30720) as [Hbig | Hsmall].
  - unfold PiTable.init. cbv zeta.
    set (T := ideal_num_threads (limit - 30720) threads 10000000) in *.
    destruct (thread_dist_facts (limit - 30720) T ltac:(lia) threads_range)
      as (HD & HDal & Hcover & Hover).
    set (D := u64 (Z.max 10000000 ((limit - 30720) / T)
                   + (240 - Z.max 10000000 ((limit - 30720) / T) mod 240))) in *.
    assert (HL128 : 128 < L).
    { unfold L. apply ceil_div_240; lia. }
    match goal with
    | |- context [for_range 0 T _ (for_range 0 T _ ?tab0)] =>
        assert (H0 : bits_done limit D T 0 (Z.to_nat L) max_x tab0)
    end.
    { split; [exact Hlen1|]. split; [reflexivity|]. split.
      { simpl PiTable.counts_. rewrite resize_raw_length. lia. }
      split.
      { intros v Hv. simpl PiTable.pi_. apply Hcache1. lia. }
      split.
      { intros v Hv Hin. unfold chunk_low in Hin. lia. }
      intros i Hi. lia. }
    apply (bits_loop limit D T max_x (Z.to_nat L) HD HDal ltac:(lia) ltac:(lia)
             ltac:(lia) Hover ltac:(lia)) in H0.
    apply (counts_loop limit D T max_x (Z.to_nat L) HD HDal ltac:(lia) ltac:(lia)
             ltac:(lia) Hover ltac:(lia)) in H0.
    destruct H0 as ((_ & _ & _ & Hcache & Hbits & _) & Hcounts).
    assert (Hall : Z.min (chunk_low D T) limit = limit) by (unfold chunk_low; lia).
    rewrite Hall in Hbits, Hcounts.
    destruct (Z_lt_le_dec w 128) as [Hcw | Hiw].
    + rewrite Hcache by lia.
      split; [apply cache_bits_mark_primes | apply cache_count_below_word]; lia.
    + split; [apply Hbits | apply Hcounts]; lia.
  - simpl PiTable.pi_.
    assert (HL128 : L <= 128).
    { destruct (Z_lt_le_dec 128 L) as [Hc | Hc]; [|exact Hc].
      apply (ceil_div_240 limit 128) in Hc; lia. }
    rewrite Hcache1 by lia.
    split; [apply cache_bits_mark_primes | apply cache_count_below_word]; lia.
Qed.

End table.

(** C4, amended: after [PiTable(max_x, threads)], whatever the thread count
    that splits the interval above the cache, the count of the word of [n]
    plus the number of its bits up to the bit of [n] is [pi(n)] for every
    [n] with [5 <= n <= max_x]; the count of a word [w >= 1] is the number
    of primes below [240 * w], and the count of word 0 is 3, for the primes
    2, 3 and 5 that have no bit. *)
Theorem pitable_counts (memory : nat -> PiTable.pi_t) (memory_counts : nat -> Z)
    (ideal_num_threads : Z -> Z -> Z -> Z) (max_x threads : Z) :
  0 <= max_x < 2 ^ 62 ->
  1 <= ideal_num_threads (max_x + 1 - 30720) threads 10000000 < 2 ^ 31 ->
  let tab := PiTable.make memory memory_counts ideal_num_threads max_x threads in
  (forall n, 5 <= n <= max_x -> PiTable.pi tab n = prime_pi n)
  /\ (forall w, 1 <= w -> 240 * w <= max_x ->
        PiTable.count (PiTable.pget (PiTable.pi_ tab) w) = prime_pi (240 * w - 1))
  /\ PiTable.count (PiTable.pget (PiTable.pi_ tab) 0) = 3.
Proof.
  intros Hmax HT. cbv zeta.
  pose proof (table_words memory memory_counts ideal_num_threads max_x threads
                Hmax HT) as Hwords.
  cbv zeta in Hwords.
  split; [|split].
  - intros n Hn.
    pose proof (Z.div_mod n 240 ltac:(lia)) as Hdm.
    pose proof (Z.mod_pos_bound n 240 ltac:(lia)) as Hmb.
    assert (Hq : 0 <= n / 240) by (apply Z.div_pos; lia).
    destruct (Hwords (n / 240) Hq ltac:(lia)) as [Hb Hc].
    unfold PiTable.pi. cbv zeta.
    pose proof (popcount_masked_word (max_x + 1) (n / 240) (n mod 240) _
                  Hmb ltac:(lia) Hb) as Hp.
    unfold count_below_word in Hc.
    pose proof (prime_pi_from_7 n ltac:(lia)) as Hpi.
    destruct (Z.eq_dec (n / 240) 0) as [H0 | H0].
    + rewrite H0 in *.
      pose proof (prime_from_7_below 0 (240 * 0 - 1) ltac:(lia)) as He.
      replace (240 * 0 + n mod 240) with n in Hp by lia.
      replace (240 * 0) with 0 in Hp by lia. lia.
    + pose proof (count_between_split prime_from_7 0 (240 * (n / 240) - 1) n
                    ltac:(lia) ltac:(lia)) as Hs.
      replace (240 * (n / 240) - 1 + 1) with (240 * (n / 240)) in Hs by lia.
      replace (240 * (n / 240) + n mod 240) with n in Hp by lia. lia.
  - intros w Hw Hwmax. destruct (Hwords w ltac:(lia) Hwmax) as [_ Hc].
    unfold count_below_word in Hc.
    pose proof (prime_pi_from_7 (240 * w - 1) ltac:(lia)) as Hpi. lia.
  - destruct (Hwords 0 ltac:(lia) ltac:(lia)) as [_ Hc].
    unfold count_below_word in Hc.
    pose proof (prime_from_7_below 0 (240 * 0 - 1) ltac:(lia)) as He. lia.
Qed.

Lemma pitable_counts_witness :
  let tab :=
    PiTable.make (fun _ => PiTable.mk_pi 1 1) (fun _ => 1)
      (fun dist threads threshold =>
         in_between 1 threads (ceil_div dist threshold)) 100000000 4 in
  (forall n, 5 <= n <= 100000000 -> PiTable.pi tab n = prime_pi n)
  /\ (forall w, 1 <= w -> 240 * w <= 100000000 ->
        PiTable.count (PiTable.pget (PiTable.pi_ tab) w) = prime_pi (240 * w - 1))
  /\ PiTable.count (PiTable.pget (PiTable.pi_ tab) 0) = 3.
Proof.
  apply (pitable_counts (fun _ => PiTable.mk_pi 1 1) (fun _ => 1)
           (fun dist threads threshold =>
              in_between 1 threads (ceil_div dist threshold)) 100000000 4).
  - split; [lia | reflexivity].
  - vm_compute. split; [discriminate | reflexivity].
Defined.

(** C4 as worded fails at [n = 1] in the table for [max_x = 100]: the count
    of word 0 is 3, and no bit is set for 1, but [pi(1) = 0]. *)
Lemma pitable_claim_fails :
  ~ pitable_claim (fun _ => PiTable.mk_pi 1 1) (fun _ => 1)
      (fun dist threads threshold =>
         in_between 1 threads (ceil_div dist threshold)) 100 1.
Proof.
  intros H. specialize (H 1 ltac:(lia) eq_refl). vm_compute in H. discriminate H.
Qed.

(** ** The list of primes *)

(** The entries of a filtered range, by position: entry [i] passes the
    test, and it is the [i + 1]-th number of the range that does. *)
Lemma nth_filter_zrange (f : Z -> bool) (n : nat) (lo : Z) (i : nat) :
  (i < length (List.filter f (zrange lo (lo + Z.of_nat n))))%nat ->
  let p := nth i (List.filter f (zrange lo (lo + Z.of_nat n))) 0 in
  lo <= p < lo + Z.of_nat n /\ f p = true
  /\ count_between f lo p = Z.of_nat i + 1.
Proof.
  revert lo i; induction n as [|n IH]; intros lo i Hi; cbv zeta.
  - rewrite zrange_nil in Hi by lia. simpl in Hi. lia.
  - rewrite zrange_cons in * by lia.
    replace (lo + Z.of_nat (S n)) with (lo + 1 + Z.of_nat n) in * by lia.
    simpl List.filter in *. destruct (f lo) eqn:Hf.
    + destruct i as [|i].
      * simpl. split; [lia|]. split; [exact Hf|].
        rewrite count_between_single, Hf. reflexivity.
      * simpl in Hi. simpl nth.
        destruct (IH (lo + 1) i ltac:(lia)) as (H1 & H2 & H3).
        split; [lia|]. split; [exact H2|].
        rewrite (count_between_split f lo lo) by lia.
        rewrite count_between_single, Hf, H3. simpl Z.b2z. lia.
    + destruct (IH (lo + 1) i Hi) as (H1 & H2 & H3).
      split; [lia|]. split; [exact H2|].
      rewrite (count_between_split f lo lo) by lia.
      rewrite count_between_single, Hf, H3. simpl Z.b2z. lia.
Qed.

Lemma is_prime_ge_2 (p : Z) : is_prime p = true -> 2 <= p.
Proof.
  unfold is_prime. intros H. apply andb_true_iff in H. destruct H as [H _].
  apply Z.leb_le. exact H.
Qed.

Lemma is_prime_odd (p : Z) : is_prime p = true -> 3 <= p -> Z.odd p = true.
Proof.
  intros Hp H3. destruct (Z.eq_dec p 3) as [-> | Hne]; [reflexivity|].
  assert (Hs : 2 <= Z.sqrt p).
  { change 2 with (Z.sqrt 4). apply Z.sqrt_le_mono. lia. }
  pose proof (is_prime_no_small_divisor p 2 Hp ltac:(lia)) as Hd.
  rewrite Zmod_odd in Hd. destruct (Z.odd p); [reflexivity | lia].
Qed.

Lemma prime_pi_prime (q : Z) :
  is_prime q = true -> prime_pi q = prime_pi (q - 1) + 1.
Proof.
  intros Hq. pose proof (is_prime_ge_2 q Hq) as Hq2. unfold prime_pi.
  rewrite (count_between_split is_prime 2 (q - 1) q) by lia.
  replace (q - 1 + 1) with q by lia. rewrite count_between_single, Hq.
  reflexivity.
Qed.

Section primes.

Variables (y pi_y : Z) (primes : list Z).

Hypothesis primes_def : primes = generate_primes y [0].
Hypothesis pi_y_def : pi_y = Z.of_nat (length primes) - 1.

Lemma primes_cons : primes = 0 :: List.filter is_prime (zrange 2 (y + 1)).
Proof. rewrite primes_def. reflexivity. Qed.

Lemma pi_y_prime_pi : pi_y = prime_pi y.
Proof.
  rewrite pi_y_def, primes_cons. simpl length.
  destruct (Z_lt_le_dec y 1) as [Hs | Hb].
  - rewrite zrange_nil by lia. unfold prime_pi.
    rewrite count_between_empty by lia. reflexivity.
  - unfold prime_pi.
    pose proof (length_filter_zrange is_prime 2 (y + 1) ltac:(lia)) as H.
    replace (y + 1 - 1) with y in H by lia. lia.
Qed.

Lemma pi_y_nonneg : 0 <= pi_y.
Proof. rewrite pi_y_def. rewrite primes_cons. simpl length. lia. Qed.

(** [primes[b]] is the [b]-th prime. *)
Lemma primes_nth (b : Z) :
  1 <= b <= pi_y ->
  is_prime primes@b = true /\ 2 <= primes@b <= y /\ prime_pi primes@b = b.
Proof.
  intros Hb. rewrite primes_cons. unfold vget.
  replace (Z.to_nat b) with (S (Z.to_nat (b - 1))) by lia. simpl nth.
  assert (Hy : 1 <= y).
  { destruct (Z_lt_le_dec y 1) as [Hs | Hy]; [|exact Hy].
    rewrite pi_y_def, primes_cons in Hb. rewrite zrange_nil in Hb by lia.
    simpl in Hb. lia. }
  pose proof (nth_filter_zrange is_prime (Z.to_nat (y - 1)) 2 (Z.to_nat (b - 1))) as H.
  replace (2 + Z.of_nat (Z.to_nat (y - 1))) with (y + 1) in H by lia.
  cbv zeta in H. destruct H as (H1 & H2 & H3).
  { rewrite pi_y_def, primes_cons in Hb. simpl length in Hb. lia. }
  split; [exact H2|]. split; [lia|]. unfold prime_pi. rewrite H3. lia.
Qed.

Lemma primes_le_iff (b v : Z) :
  1 <= b <= pi_y -> (primes@b <= v <-> b <= prime_pi v).
Proof.
  intros Hb. destruct (primes_nth b Hb) as (Hp & Hr & Hpi). split.
  - intros Hle. rewrite <- Hpi. apply prime_pi_mono. exact Hle.
  - intros Hle. destruct (Z_lt_le_dec v primes@b) as [Hlt | Hge]; [|exact Hge].
    exfalso.
    pose proof (prime_pi_mono v (primes@b - 1) ltac:(lia)) as Hm.
    unfold prime_pi in Hpi, Hm.
    rewrite (count_between_split is_prime 2 (primes@b - 1) primes@b) in Hpi by lia.
    replace (primes@b - 1 + 1) with (primes@b) in Hpi by lia.
    rewrite count_between_single, Hp in Hpi. simpl Z.b2z in Hpi.
    unfold prime_pi in Hle. lia.
Qed.

Lemma primes_increasing (b b' : Z) :
  1 <= b -> b <= b' -> b' <= pi_y -> primes@b <= primes@b'.
Proof.
  intros H1 H2 H3. apply primes_le_iff; [lia|].
  destruct (primes_nth b' ltac:(lia)) as (_ & _ & Hpi). lia.
Qed.

Lemma primes_strictly_increasing (b b' : Z) :
  1 <= b -> b < b' -> b' <= pi_y -> primes@b < primes@b'.
Proof.
  intros H1 H2 H3.
  destruct (Z_lt_le_dec primes@b primes@b') as [Hlt | Hge]; [exact Hlt|].
  exfalso. apply (primes_le_iff b' primes@b) in Hge; [|lia].
  destruct (primes_nth b ltac:(lia)) as (_ & _ & Hpi). lia.
Qed.

Lemma primes_odd (b : Z) :
  2 <= b <= pi_y -> 3 <= primes@b /\ Z.odd primes@b = true.
Proof.
  intros Hb. destruct (primes_nth b ltac:(lia)) as (Hp & Hr & Hpi).
  assert (H3 : 3 <= primes@b).
  { destruct (Z_lt_le_dec primes@b 3) as [Hlt | Hge]; [|exact Hge].
    exfalso. assert (Heq : primes@b = 2) by lia. rewrite Heq in Hpi.
    change (prime_pi 2) with 1 in Hpi. lia. }
  split; [exact H3|]. apply is_prime_odd; assumption.
Qed.

(** The table [pi] and the vector [primes] tell the same story. *)
Lemma pi_table (v : Z) : 0 <= v <= y -> 0 <= (make_pi y)@v <= pi_y.
Proof.
  intros Hv. rewrite make_pi_nth by lia. rewrite pi_y_prime_pi.
  split; [apply prime_pi_nonneg | apply prime_pi_mono; lia].
Qed.

Lemma pi_table_le_iff (b v : Z) :
  1 <= b <= pi_y -> 0 <= v <= y -> (b <= (make_pi y)@v <-> primes@b <= v).
Proof.
  intros Hb Hv. rewrite make_pi_nth by lia. symmetry. apply primes_le_iff. exact Hb.
Qed.

(** The prime at the index [pi[v]] is the largest prime up to [v]. *)
Lemma largest_prime_upto (v q : Z) :
  0 <= v <= y -> is_prime q = true -> q <= v ->
  1 <= (make_pi y)@v /\ q <= primes@((make_pi y)@v) <= v.
Proof.
  intros Hv Hq Hqv. rewrite make_pi_nth by lia.
  pose proof (prime_pi_prime q Hq) as Hs.
  pose proof (prime_pi_nonneg (q - 1)) as H0.
  pose proof (prime_pi_mono q v Hqv) as Hm.
  pose proof (prime_pi_mono v y ltac:(lia)) as Hm'.
  split; [lia|].
  assert (Hb : 1 <= prime_pi v <= pi_y) by (rewrite pi_y_prime_pi; lia).
  split.
  - destruct (Z_lt_le_dec primes@(prime_pi v) q) as [Hlt | Hge]; [|exact Hge].
    exfalso.
    destruct (primes_nth (prime_pi v) Hb) as (Hp & Hr & Hpi).
    pose proof (prime_pi_mono primes@(prime_pi v) (q - 1) ltac:(lia)) as Hm2.
    lia.
  - apply primes_le_iff; [exact Hb | lia].
Qed.

Lemma pi_sqrty_range : 0 <= pi_sqrty y primes <= pi_y.
Proof.
  unfold pi_sqrty, pi_bsearch. rewrite pi_y_def, primes_cons. simpl tl. simpl length.
  split; [lia|].
  pose proof (List.filter_length_le (fun p : Z => p <=? isqrt y)
                (List.filter is_prime (zrange 2 (y + 1)))) as H.
  lia.
Qed.

End primes.

(** ** Quotients and sums *)

Lemma quot_le_iff (a b k : Z) : 0 <= a -> 0 < b -> (k <= a ÷ b <-> k * b <= a).
Proof.
  intros Ha Hb. rewrite Z.quot_div_nonneg by lia. split.
  - intros H. pose proof (Z.mul_div_le a b Hb). nia.
  - intros H. apply Z.div_le_lower_bound; lia.
Qed.

Lemma quot_lt_iff (a b k : Z) : 0 <= a -> 0 < b -> (a ÷ b < k <-> a < k * b).
Proof.
  intros Ha Hb. pose proof (quot_le_iff a b k Ha Hb). lia.
Qed.

Lemma quot_nonneg (a b : Z) : 0 <= a -> 0 < b -> 0 <= a ÷ b.
Proof. intros Ha Hb. apply quot_le_iff; lia. Qed.

Lemma quot_anti (a b b' : Z) : 0 <= a -> 0 < b -> b <= b' -> a ÷ b' <= a ÷ b.
Proof.
  intros Ha Hb Hbb. apply quot_le_iff; [lia | lia|].
  assert (H : a ÷ b' * b' <= a) by (apply quot_le_iff; lia).
  pose proof (quot_nonneg a b' Ha ltac:(lia)). nia.
Qed.

Lemma zsum_app (l l' : list Z) : zsum (l ++ l') = zsum l + zsum l'.
Proof. induction l as [|a l IH]; simpl; lia. Qed.

Lemma zrange_split (a m b : Z) :
  a <= m -> m <= b -> zrange a b = zrange a m ++ zrange m b.
Proof.
  intros Ham Hmb. remember (Z.to_nat (m - a)) as n eqn:Hn.
  revert a Ham Hn; induction n as [|n IH]; intros a Ham Hn.
  - assert (a = m) by lia. subst a. rewrite (zrange_nil m m) by lia. reflexivity.
  - rewrite (zrange_cons a b) by lia. rewrite (zrange_cons a m) by lia.
    simpl. f_equal. apply IH; lia.
Qed.

Lemma zsum_map_zero (g : Z -> Z) (l : list Z) :
  (forall j, In j l -> g j = 0) -> zsum (map g l) = 0.
Proof.
  induction l as [|a l IH]; intros H; simpl; [reflexivity|].
  rewrite (H a) by (left; reflexivity). rewrite IH; [reflexivity|].
  intros j Hj. apply H. right. exact Hj.
Qed.

Lemma zsum_map_add (g h : Z -> Z) (l : list Z) :
  zsum (map (fun j => g j + h j) l) = zsum (map g l) + zsum (map h l).
Proof. induction l as [|a l IH]; simpl; lia. Qed.

Lemma zsum_map_scale (a : Z) (g : Z -> Z) (l : list Z) :
  zsum (map (fun j => a * g j) l) = a * zsum (map g l).
Proof. induction l as [|b l IH]; simpl; lia. Qed.

(** A sum over a range is the sum over a smaller range when the terms
    outside of it are zero. *)
Lemma zsum_trim (g : Z -> Z) (a b a' b' : Z) :
  a <= a' -> b' <= b ->
  (forall j, a <= j < b -> ~ (a' <= j < b') -> g j = 0) ->
  zsum (map g (zrange a b)) = zsum (map g (zrange a' b')).
Proof.
  intros Ha Hb H0.
  destruct (Z_lt_le_dec b' a') as [Hempty | Hle].
  - rewrite (zrange_nil a' b') by lia. simpl. apply zsum_map_zero.
    intros j Hj. apply in_zrange in Hj. apply H0; lia.
  - rewrite (zrange_split a a' b) by lia. rewrite (zrange_split a' b' b) by lia.
    rewrite !map_app, !zsum_app.
    rewrite (zsum_map_zero g (zrange a a')), (zsum_map_zero g (zrange b' b)).
    + lia.
    + intros j Hj. apply in_zrange in Hj. apply H0; lia.
    + intros j Hj. apply in_zrange in Hj. apply H0; lia.
Qed.

(** ** Survivors and leaves *)

Section leaf_sums.

Variables (x y c pi_y : Z) (primes lpf mu : list Z).

Lemma survivors_split (b u v w : Z) :
  u <= v -> v <= w ->
  survivors primes b u w = survivors primes b u v + survivors primes b v w.
Proof.
  intros Huv Hvw. unfold survivors.
  rewrite (count_between_split (survives primes b) u (v - 1) (w - 1)) by lia.
  replace (v - 1 + 1) with v by lia. reflexivity.
Qed.

Lemma survivors_empty (b u v : Z) : v <= u -> survivors primes b u v = 0.
Proof. intros H. unfold survivors. apply count_between_empty. lia. Qed.

Lemma leaf_sum_split (b u v w : Z) (F : Z -> Z) :
  u <= v -> v <= w ->
  leaf_sum x y c pi_y primes lpf mu b u w F
  = leaf_sum x y c pi_y primes lpf mu b u v F
    + leaf_sum x y c pi_y primes lpf mu b v w F.
Proof.
  intros Huv Hvw. unfold leaf_sum. rewrite <- zsum_map_add.
  apply zsum_map_ext. intros k _.
  destruct (is_leaf x y c pi_y primes lpf mu b k); simpl; [|reflexivity].
  zbool.
Qed.

Lemma leaf_sum_empty (b u v : Z) (F : Z -> Z) :
  v <= u -> leaf_sum x y c pi_y primes lpf mu b u v F = 0.
Proof.
  intros H. unfold leaf_sum. apply zsum_map_zero. intros k _.
  destruct (is_leaf x y c pi_y primes lpf mu b k); simpl; [|reflexivity].
  zbool.
Qed.

(** Adding a constant to what is summed adds the constant once per leaf. *)
Lemma leaf_sum_shift (b u v a : Z) (F G : Z -> Z) :
  (forall pos, u <= pos < v -> F pos = G pos + a) ->
  leaf_sum x y c pi_y primes lpf mu b u v F
  = leaf_sum x y c pi_y primes lpf mu b u v G
    + a * leaf_number x y c pi_y primes lpf mu b u v.
Proof.
  intros H. unfold leaf_number, leaf_sum.
  rewrite <- zsum_map_scale, <- zsum_map_add.
  apply zsum_map_ext. intros k _.
  destruct (is_leaf x y c pi_y primes lpf mu b k); simpl; [|lia].
  destruct (Z.leb_spec u (leaf_position x y primes b k)); simpl; [|lia].
  destruct (Z.ltb_spec (leaf_position x y primes b k) v); simpl; [|lia].
  rewrite H by lia. lia.
Qed.

Lemma leaf_sum_ext (b u v : Z) (F G : Z -> Z) :
  (forall pos, u <= pos < v -> F pos = G pos) ->
  leaf_sum x y c pi_y primes lpf mu b u v F
  = leaf_sum x y c pi_y primes lpf mu b u v G.
Proof.
  intros H. rewrite (leaf_sum_shift b u v 0 F G); [lia|].
  intros pos Hpos. rewrite H by exact Hpos. lia.
Qed.

(** Either no leaf of [primes[b]] lies in [u, v), or one does. *)
Lemma leaf_sum_cases (b u v : Z) :
  (forall F, leaf_sum x y c pi_y primes lpf mu b u v F = 0)
  \/ exists k, 1 <= k /\ is_leaf x y c pi_y primes lpf mu b k = true
               /\ u <= leaf_position x y primes b k < v.
Proof.
  destruct (existsb (fun k => is_leaf x y c pi_y primes lpf mu b k
                              && (u <=? leaf_position x y primes b k)
                              && (leaf_position x y primes b k <? v))
              (zrange 1 (Z.max y pi_y + 1))) eqn:He.
  - right. apply existsb_exists in He. destruct He as (k & Hin & Hk).
    apply in_zrange in Hin.
    apply andb_true_iff in Hk. destruct Hk as [Hk Hv].
    apply andb_true_iff in Hk. destruct Hk as [Hk Hu].
    apply Z.leb_le in Hu. apply Z.ltb_lt in Hv.
    exists k. split; [lia|]. split; [exact Hk | lia].
  - left. intros F. unfold leaf_sum. apply zsum_map_zero. intros k Hin.
    match goal with |- (if ?cnd then _ else _) = 0 => destruct cnd eqn:Hc end;
      [|reflexivity].
    exfalso. assert (Ht : existsb (fun k => is_leaf x y c pi_y primes lpf mu b k
                              && (u <=? leaf_position x y primes b k)
                              && (leaf_position x y primes b k <? v))
              (zrange 1 (Z.max y pi_y + 1)) = true).
    { apply existsb_exists. exists k. split; [exact Hin | exact Hc]. }
    congruence.
Qed.

Lemma leaf_sum_none (b u v : Z) (F : Z -> Z) :
  (forall k, 1 <= k -> is_leaf x y c pi_y primes lpf mu b k = true ->
     u <= leaf_position x y primes b k < v -> False) ->
  leaf_sum x y c pi_y primes lpf mu b u v F = 0.
Proof.
  intros H. destruct (leaf_sum_cases b u v) as [H0 | (k & Hk & Hl & Hp)].
  - apply H0.
  - exfalso. exact (H k Hk Hl Hp).
Qed.

(** The leaves with the survivors from [L'] are those with the survivors
    from [L], and the survivors of [L', L) once per leaf. *)
Lemma leaf_counts_from (b L' L u v : Z) :
  L' <= L -> L <= u ->
  leaf_counts x y c pi_y primes lpf mu b L' u v
  = leaf_counts x y c pi_y primes lpf mu b L u v
    + survivors primes b L' L * leaf_number x y c pi_y primes lpf mu b u v.
Proof.
  intros HL Hu. unfold leaf_counts. apply leaf_sum_shift.
  intros pos Hpos. rewrite (survivors_split b L' L (pos + 1)) by lia. lia.
Qed.

Lemma leaf_counts_split (b L u v w : Z) :
  u <= v -> v <= w ->
  leaf_counts x y c pi_y primes lpf mu b L u w
  = leaf_counts x y c pi_y primes lpf mu b L u v
    + leaf_counts x y c pi_y primes lpf mu b L v w.
Proof. intros. unfold leaf_counts. apply leaf_sum_split; assumption. Qed.

Lemma leaf_number_split (b u v w : Z) :
  u <= v -> v <= w ->
  leaf_number x y c pi_y primes lpf mu b u w
  = leaf_number x y c pi_y primes lpf mu b u v
    + leaf_number x y c pi_y primes lpf mu b v w.
Proof. intros. unfold leaf_number. apply leaf_sum_split; assumption. Qed.

Lemma S2_between_split (L u v w : Z) :
  u <= v -> v <= w ->
  S2_between x y c pi_y primes lpf mu L u w
  = S2_between x y c pi_y primes lpf mu L u v
    + S2_between x y c pi_y primes lpf mu L v w.
Proof.
  intros Huv Hvw. unfold S2_between. rewrite <- zsum_map_add.
  apply zsum_map_ext. intros b _. apply leaf_counts_split; assumption.
Qed.

Lemma S2_between_empty (L u v : Z) :
  v <= u -> S2_between x y c pi_y primes lpf mu L u v = 0.
Proof.
  intros H. unfold S2_between. apply zsum_map_zero. intros b _.
  unfold leaf_counts. apply leaf_sum_empty. exact H.
Qed.

Lemma S2_value_between :
  S2_value x y c pi_y primes lpf mu
  = S2_between x y c pi_y primes lpf mu 1 1 (x ÷ y + 1).
Proof. reflexivity. Qed.

End leaf_sums.

(** ** Where the leaves are *)

Section leaves_arith.

Variables (x y c pi_y : Z) (primes lpf mu : list Z).

Hypothesis x_nonneg : 0 <= x.
Hypothesis y_pos : 1 <= y.
Hypothesis primes_def : primes = generate_primes y [0].
Hypothesis pi_y_def : pi_y = Z.of_nat (length primes) - 1.
Hypothesis lpf_le : forall m, 2 <= m <= y -> lpf@m <= m.

Lemma leaf_facts (b k : Z) :
  1 <= k -> is_leaf x y c pi_y primes lpf mu b k = true ->
  first_leaf_index c <= b < pi_y
  /\ 2 <= primes@b <= y
  /\ primes@b < cofactor y primes b k <= y
  /\ y < cofactor y primes b k * primes@b
  /\ primes@b * cofactor y primes b k <= x
  /\ (pi_sqrty y primes <= b -> 1 <= k <= pi_y /\ is_prime primes@k = true).
Proof.
  intros Hk Hl. unfold is_leaf in Hl. cbv zeta in Hl.
  repeat (apply andb_true_iff in Hl; destruct Hl as [Hl ?]).
  apply Z.leb_le in Hl.
  repeat match goal with
         | H : (_ <? _) = true |- _ => apply Z.ltb_lt in H
         | H : (_ <=? _) = true |- _ => apply Z.leb_le in H
         end.
  assert (Hb1 : 1 <= b <= pi_y) by (unfold first_leaf_index in Hl; lia).
  destruct (primes_nth y pi_y primes primes_def pi_y_def b Hb1) as (Hp & Hr & _).
  assert (Hq : y < cofactor y primes b k * primes@b)
    by (apply (quot_lt_iff y primes@b); [lia | lia | assumption]).
  split; [lia|]. split; [lia|].
  unfold cofactor in *. destruct (Z.ltb_spec b (pi_sqrty y primes)) as [Hlt | Hge].
  - match goal with
    | H : _ && _ = true |- _ => apply andb_true_iff in H; destruct H as [_ Hlpf]
    end.
    apply Z.ltb_lt in Hlpf.
    assert (Hk2 : 2 <= k) by nia.
    pose proof (lpf_le k ltac:(lia)).
    split; [lia|]. split; [lia|]. split; [lia|]. lia.
  - match goal with
    | H : _ && _ = true |- _ => apply andb_true_iff in H; destruct H as [Hpk Hkpi]
    end.
    apply andb_true_iff in Hpk. destruct Hpk as [Hpq Hk1].
    apply Z.ltb_lt in Hpq. apply Z.leb_le in Hk1, Hkpi.
    split; [lia|]. split; [lia|]. split; [lia|]. intros _.
    split; [lia|].
    apply (primes_nth y pi_y primes primes_def pi_y_def k). lia.
Qed.

(** Once the loop of [primes[b']] stops in a segment that starts at [u],
    no prime from there on has a leaf at [u] or beyond. *)
Lemma no_leaf_after_stop (b' b u k : Z) :
  stops x y primes b' u = true -> first_leaf_index c <= b' <= b -> 1 <= u ->
  1 <= k -> is_leaf x y c pi_y primes lpf mu b k = true ->
  u <= leaf_position x y primes b k -> False.
Proof.
  intros Hstop Hb' Hu Hk Hleaf Hpos.
  destruct (leaf_facts b k Hk Hleaf) as (Hb & Hp & Hm & Hy & Hx & Htwo).
  assert (Hb1 : 1 <= b' /\ b' <= pi_y) by (unfold first_leaf_index in Hb'; lia).
  destruct (primes_nth y pi_y primes primes_def pi_y_def b' ltac:(lia))
    as (_ & Hp' & _).
  pose proof (primes_increasing y pi_y primes primes_def pi_y_def b' b
                ltac:(lia) ltac:(lia) ltac:(lia)) as Hinc.
  unfold leaf_position in Hpos.
  apply quot_le_iff in Hpos; [|lia|nia].
  set (m := cofactor y primes b k) in *.
  assert (Hm' : m <= Z.min (x ÷ (primes@b' * u)) y).
  { apply Z.min_glb; [|lia]. apply quot_le_iff; [lia | nia | nia]. }
  unfold stops in Hstop. cbv zeta in Hstop.
  destruct (Z.ltb_spec b' (pi_sqrty y primes)) as [Hlt | Hge].
  - rewrite Z.geb_leb in Hstop. apply Z.leb_le in Hstop. lia.
  - rewrite Z.geb_leb in Hstop. apply Z.leb_le in Hstop.
    destruct (Htwo ltac:(lia)) as (Hkr & Hprime).
    assert (Hmk : m = primes@k).
    { unfold m, cofactor. destruct (Z.ltb_spec b (pi_sqrty y primes)); [lia|reflexivity]. }
    assert (Hq0 : 0 <= x ÷ (primes@b' * u)) by (apply quot_nonneg; nia).
    destruct (largest_prime_upto y pi_y primes primes_def pi_y_def
                (Z.min (x ÷ (primes@b' * u)) y) primes@k
                ltac:(lia) Hprime ltac:(lia)) as (_ & Hlarge & _).
    lia.
Qed.

(** A prime index beyond the [size] of a thread that starts at [u] has no
    leaf at [u] or beyond. *)
Lemma no_leaf_beyond_size (b u k : Z) :
  thread_size x y u <= b -> 1 <= u ->
  1 <= k -> is_leaf x y c pi_y primes lpf mu b k = true ->
  u <= leaf_position x y primes b k -> False.
Proof.
  intros Hsize Hu Hk Hleaf Hpos.
  destruct (leaf_facts b k Hk Hleaf) as (Hb & Hp & Hm & Hy & Hx & _).
  unfold leaf_position in Hpos.
  apply quot_le_iff in Hpos; [|lia|nia].
  set (m := cofactor y primes b k) in *.
  assert (Hsq : primes@b * primes@b <= x ÷ u).
  { apply quot_le_iff; [lia | lia | nia]. }
  assert (Hroot : primes@b <= isqrt (x ÷ u)).
  { unfold isqrt. apply Z.sqrt_le_square; [|lia|exact Hsq].
    apply quot_nonneg; lia. }
  assert (Hb1 : 1 <= b <= pi_y) by (unfold first_leaf_index in Hb; lia).
  assert (Hle : b <= (make_pi y)@(Z.min (isqrt (x ÷ u)) y)).
  { apply (pi_table_le_iff y pi_y primes primes_def pi_y_def); [exact Hb1 | lia | lia]. }
  unfold thread_size in Hsize. lia.
Qed.

(** So a prime index with a leaf at [u] or beyond is reached in every
    segment that starts at [u], in a thread that started at [L <= u]. *)
Lemma leaf_reached (b L u k : Z) :
  1 <= L <= u -> 1 <= k -> is_leaf x y c pi_y primes lpf mu b k = true ->
  u <= leaf_position x y primes b k ->
  reached x y c pi_y primes (thread_size x y L) b u.
Proof.
  intros HL Hk Hleaf Hpos.
  destruct (leaf_facts b k Hk Hleaf) as (Hb & _).
  split.
  - destruct (Z_lt_le_dec b (thread_size x y L)) as [Hlt | Hge]; [lia|].
    exfalso. apply (no_leaf_beyond_size b L k Hge); [lia | exact Hk | exact Hleaf | lia].
  - intros b' Hb'. destruct (stops x y primes b' u) eqn:Hs; [|reflexivity].
    exfalso. apply (no_leaf_after_stop b' b u k Hs); [lia | lia | exact Hk | exact Hleaf | exact Hpos].
Qed.

(** A prime index that is not reached has no leaf in the segment. *)
Lemma leaf_sum_not_reached (b L u v : Z) (F : Z -> Z) :
  1 <= L <= u ->
  ~ reached x y c pi_y primes (thread_size x y L) b u ->
  leaf_sum x y c pi_y primes lpf mu b u v F = 0.
Proof.
  intros HL Hn. apply leaf_sum_none. intros k Hk Hleaf Hpos.
  apply Hn. apply (leaf_reached b L u k); [exact HL | exact Hk | exact Hleaf | lia].
Qed.

(** The cofactors that the loop below [pi_sqrty] runs through are the
    leaves of the segment [[l, h)]. *)
Lemma leaves_below_range (b l h k : Z) :
  first_leaf_index c <= b < pi_y -> b < pi_sqrty y primes ->
  1 <= l -> l <= h -> 1 <= k ->
  let prime := primes@b in
  let min_m := Z.max (x ÷ (prime * h)) (y ÷ prime) in
  let max_m := Z.min (x ÷ (prime * l)) y in
  (min_m <? k) && (k <=? max_m) && (negb (mu@k =? 0) && (prime <? lpf@k))
  = is_leaf x y c pi_y primes lpf mu b k
    && (l <=? leaf_position x y primes b k)
    && (leaf_position x y primes b k <? h).
Proof.
  intros Hb Htype Hl Hh Hk. cbv zeta.
  assert (Hb1 : 1 <= b <= pi_y) by (unfold first_leaf_index in Hb; lia).
  destruct (primes_nth y pi_y primes primes_def pi_y_def b Hb1) as (_ & Hp & _).
  unfold is_leaf, leaf_position, cofactor. cbv zeta.
  replace (b <? pi_sqrty y primes) with true by (symmetry; apply Z.ltb_lt; lia).
  replace (first_leaf_index c <=? b) with true by (symmetry; apply Z.leb_le; lia).
  replace (b <? pi_y) with true by (symmetry; apply Z.ltb_lt; lia).
  destruct (negb (mu@k =? 0) && (primes@b <? lpf@k));
    [|rewrite !andb_false_r; reflexivity].
  rewrite !andb_true_r. simpl.
  apply Bool.eq_iff_eq_true.
  rewrite !andb_true_iff, !Z.leb_le, !Z.ltb_lt.
  rewrite Z.max_lub_lt_iff, Z.min_glb_iff.
  rewrite (quot_lt_iff x (primes@b * h) k) by nia.
  rewrite (quot_lt_iff y primes@b k) by lia.
  rewrite (quot_le_iff x (primes@b * l) k) by nia.
  rewrite (quot_le_iff x (primes@b * k) l) by nia.
  rewrite (quot_lt_iff x (primes@b * k) h) by nia.
  nia.
Qed.

(** The prime indices that the loop from [pi_sqrty] on runs through are the
    leaves of the segment [[l, h)]. *)
Lemma leaves_from_range (b l h k : Z) :
  first_leaf_index c <= b < pi_y -> pi_sqrty y primes <= b ->
  1 <= l -> l <= h -> 1 <= k ->
  let prime := primes@b in
  let l_max := (make_pi y)@(Z.min (x ÷ (prime * l)) y) in
  let min_m := Z.max (x ÷ (prime * h)) (y ÷ prime) in
  let min_m := in_between prime min_m y in
  let min_l := (make_pi y)@min_m in
  (min_l <? k) && (k <=? l_max)
  = is_leaf x y c pi_y primes lpf mu b k
    && (l <=? leaf_position x y primes b k)
    && (leaf_position x y primes b k <? h).
Proof.
  intros Hb Htype Hl Hh Hk. cbv zeta.
  assert (Hb1 : 1 <= b <= pi_y) by (unfold first_leaf_index in Hb; lia).
  destruct (primes_nth y pi_y primes primes_def pi_y_def b Hb1) as (_ & Hp & _).
  assert (Hq1 : 0 <= x ÷ (primes@b * l)) by (apply quot_nonneg; nia).
  assert (Hq2 : 0 <= x ÷ (primes@b * h)) by (apply quot_nonneg; nia).
  assert (Hq3 : 0 <= y ÷ primes@b) by (apply quot_nonneg; lia).
  unfold is_leaf, leaf_position, cofactor. cbv zeta.
  replace (b <? pi_sqrty y primes) with false by (symmetry; apply Z.ltb_ge; lia).
  replace (first_leaf_index c <=? b) with true by (symmetry; apply Z.leb_le; lia).
  replace (b <? pi_y) with true by (symmetry; apply Z.ltb_lt; lia).
  simpl.
  destruct (Z_lt_le_dec pi_y k) as [Hbig | Hsmall].
  - pose proof (pi_table y pi_y primes primes_def pi_y_def
                  (Z.min (x ÷ (primes@b * l)) y) ltac:(lia)) as Hpi.
    replace (k <=? pi_y) with false by (symmetry; apply Z.leb_gt; lia).
    replace (k <=? (make_pi y)@(Z.min (x ÷ (primes@b * l)) y)) with false
      by (symmetry; apply Z.leb_gt; lia).
    rewrite !andb_false_r. reflexivity.
  - destruct (primes_nth y pi_y primes primes_def pi_y_def k ltac:(lia))
      as (_ & Hq & _).
    set (N := in_between primes@b (Z.max (x ÷ (primes@b * h)) (y ÷ primes@b)) y).
    assert (HN : primes@b <= N <= y
                 /\ (N < primes@k <->
                     Z.max (x ÷ (primes@b * h)) (y ÷ primes@b) < primes@k
                     /\ primes@b < primes@k)).
    { unfold N, in_between.
      destruct (Z.ltb_spec (Z.max (x ÷ (primes@b * h)) (y ÷ primes@b)) primes@b);
        [lia|].
      rewrite Z.gtb_ltb.
      destruct (Z.ltb_spec y (Z.max (x ÷ (primes@b * h)) (y ÷ primes@b))); lia. }
    destruct HN as (HNr & HNq).
    pose proof (pi_table_le_iff y pi_y primes primes_def pi_y_def k N
                  ltac:(lia) ltac:(lia)) as H1.
    pose proof (pi_table_le_iff y pi_y primes primes_def pi_y_def k
                  (Z.min (x ÷ (primes@b * l)) y) ltac:(lia) ltac:(lia)) as H2.
    apply Bool.eq_iff_eq_true.
    rewrite !andb_true_iff, !Z.leb_le, !Z.ltb_lt.
    rewrite (quot_lt_iff y primes@b primes@k) by lia.
    rewrite (quot_le_iff x (primes@b * primes@k) l) by nia.
    rewrite (quot_lt_iff x (primes@b * primes@k) h) by nia.
    assert (H3 : Z.max (x ÷ (primes@b * h)) (y ÷ primes@b) < primes@k
                 <-> x < primes@k * (primes@b * h) /\ y < primes@k * primes@b).
    { rewrite Z.max_lub_lt_iff.
      rewrite (quot_lt_iff x (primes@b * h) primes@k) by nia.
      rewrite (quot_lt_iff y primes@b primes@k) by lia. reflexivity. }
    assert (H4 : primes@k <= Z.min (x ÷ (primes@b * l)) y
                 <-> primes@k * (primes@b * l) <= x /\ primes@k <= y).
    { rewrite Z.min_glb_iff.
      rewrite (quot_le_iff x (primes@b * l) primes@k) by nia. reflexivity. }
    nia.
Qed.

End leaves_arith.

(** ** Loops of a segment *)

Lemma for_jump_ind {A : Type} (P Q : Z -> A -> Prop)
    (body : Z -> A -> option (A * bool)) (n : nat) (b : Z) (a : A)
    (b' : Z) (a' : A) (j : bool) :
  for_jump n b body a = Some (b', a', j) ->
  P b a ->
  (forall i s s', b <= i < b + Z.of_nat n -> P i s ->
     body i s = Some (s', false) -> P (i + 1) s') ->
  (forall i s s', b <= i < b + Z.of_nat n -> P i s ->
     body i s = Some (s', true) -> Q i s') ->
  if j then Q b' a' else P b' a' /\ b' = b + Z.of_nat n.
Proof.
  revert b a; induction n as [|n IH]; intros b a Hrun H0 Hstep Hjump.
  - simpl in Hrun. inversion Hrun; subst. split; [exact H0 | lia].
  - simpl in Hrun. destruct (body b a) as [[s' [|]]|] eqn:Hb; [| |discriminate].
    + inversion Hrun; subst. apply (Hjump b' a a'); [lia | exact H0 | exact Hb].
    + specialize (IH (b + 1) s' Hrun).
      assert (HP : P (b + 1) s') by (apply (Hstep b a s'); [lia | exact H0 | exact Hb]).
      specialize (IH HP).
      assert (H1 : forall i s s'0, b + 1 <= i < b + 1 + Z.of_nat n -> P i s ->
                     body i s = Some (s'0, false) -> P (i + 1) s'0).
      { intros i s s0 Hi. apply Hstep. lia. }
      assert (H2 : forall i s s'0, b + 1 <= i < b + 1 + Z.of_nat n -> P i s ->
                     body i s = Some (s'0, true) -> Q i s'0).
      { intros i s s0 Hi. apply Hjump. lia. }
      specialize (IH H1 H2). destruct j; [exact IH|].
      destruct IH as [IH1 IH2]. split; [exact IH1 | lia].
Qed.

Lemma for_lt_jump_ind {A : Type} (P Q : Z -> A -> Prop)
    (body : Z -> A -> option (A * bool)) (b hi : Z) (a : A)
    (b' : Z) (a' : A) (j : bool) :
  for_lt_jump b hi body a = Some (b', a', j) ->
  P b a ->
  (forall i s s', b <= i < hi -> P i s ->
     body i s = Some (s', false) -> P (i + 1) s') ->
  (forall i s s', b <= i < hi -> P i s ->
     body i s = Some (s', true) -> Q i s') ->
  if j then Q b' a' else P b' a' /\ b' = Z.max b hi.
Proof.
  intros Hrun H0 Hstep Hjump. unfold for_lt_jump in Hrun.
  pose proof (for_jump_ind P Q body (Z.to_nat (hi - b)) b a b' a' j Hrun H0) as H.
  assert (H1 : forall i s s', b <= i < b + Z.of_nat (Z.to_nat (hi - b)) -> P i s ->
                 body i s = Some (s', false) -> P (i + 1) s').
  { intros i s s' Hi. apply Hstep. lia. }
  assert (H2 : forall i s s', b <= i < b + Z.of_nat (Z.to_nat (hi - b)) -> P i s ->
                 body i s = Some (s', true) -> Q i s').
  { intros i s s' Hi. apply Hjump. lia. }
  specialize (H H1 H2). destruct j; [exact H|].
  destruct H as [Ha Hb]. split; [exact Ha | lia].
Qed.

Lemma zrange_snoc (lo hi : Z) : lo <= hi -> zrange lo (hi + 1) = zrange lo hi ++ [hi].
Proof.
  intros H. rewrite (zrange_split lo hi (hi + 1)) by lia.
  rewrite (zrange_cons hi (hi + 1)) by lia. rewrite (zrange_nil (hi + 1) (hi + 1)) by lia. reflexivity.
Qed.

(** A loop that runs down and adds to a sum and to one entry of a vector. *)
Lemma for_down_leaves (cond : Z -> bool) (t w : Z -> Z) (b : Z)
    (body : Z -> Z * list Z -> Z * list Z) (n : nat) (hi : Z) (S : Z) (M : list Z) :
  (forall m S M, body m (S, M)
                 = if cond m then (S + t m, vset M b (M@b + w m)) else (S, M)) ->
  0 <= b < Z.of_nat (length M) ->
  let r := for_down n hi body (S, M) in
  r.1 = S + zsum (map (fun m => if cond m then t m else 0)
                    (zrange (hi - Z.of_nat n + 1) (hi + 1)))
  /\ length r.2 = length M
  /\ r.2@b = M@b + zsum (map (fun m => if cond m then w m else 0)
                           (zrange (hi - Z.of_nat n + 1) (hi + 1)))
  /\ forall j, 0 <= j -> j <> b -> r.2@j = M@j.
Proof.
  intros Hbody. revert hi S M; induction n as [|n IH]; intros hi S M Hb; cbv zeta.
  - simpl for_down. rewrite zrange_nil by lia. simpl. repeat split; try lia.
  - simpl for_down. rewrite Hbody.
    replace (hi - Z.of_nat (Datatypes.S n) + 1) with (hi - 1 - Z.of_nat n + 1) by lia.
    rewrite (zrange_snoc (hi - 1 - Z.of_nat n + 1) hi) by lia.
    rewrite !map_app, !zsum_app. simpl map. simpl zsum.
    destruct (cond hi).
    + specialize (IH (hi - 1) (S + t hi) (vset M b (M@b + w hi))).
      rewrite vset_length in IH. specialize (IH Hb). cbv zeta in IH.
      replace (hi - 1 + 1) with hi in IH by lia.
      destruct IH as (I1 & I2 & I3 & I4).
      split; [rewrite I1; lia|]. split; [exact I2|].
      split; [rewrite I3, vget_vset_eq by lia; lia|].
      intros j Hj Hne. rewrite I4 by assumption. apply vget_vset_ne; lia.
    + specialize (IH (hi - 1) S M Hb). cbv zeta in IH.
      replace (hi - 1 + 1) with hi in IH by lia.
      destruct IH as (I1 & I2 & I3 & I4).
      split; [rewrite I1; lia|]. split; [exact I2|].
      split; [rewrite I3; lia|]. exact I4.
Qed.

(** ** The bits of a segment *)

Lemma memset_wf (s : BitSieve.t) (low : Z) :
  BitSieve.wf s ->
  BitSieve.wf (BitSieve.memset s low)
  /\ BitSieve.size (BitSieve.memset s low) = BitSieve.size s.
Proof.
  intros [H1 H2]. unfold BitSieve.memset, BitSieve.wf, BitSieve.size. cbv zeta.
  destruct (low <=? 2); simpl; rewrite ?vset_length, ?length_map; auto.
Qed.

Lemma survives_step (primes : list Z) (b v : Z) :
  2 <= b ->
  survives primes (b + 1) v
  = survives primes b v && negb (odd_multiple primes@b v).
Proof.
  intros Hb. unfold survives. rewrite (zrange_snoc 2 b) by lia.
  rewrite forallb_app. simpl. rewrite andb_true_r, andb_assoc. reflexivity.
Qed.

Lemma first_odd_multiple_advance (p l h nm k' : Z) :
  0 < p -> Z.odd p = true -> l <= h ->
  first_odd_multiple p l nm ->
  odd_multiple p k' = true -> h <= k' ->
  (nm < h -> k' < h + 2 * p) -> (h <= nm -> k' = nm) ->
  first_odd_multiple p h k'.
Proof.
  intros Hp Hodd Hlh (Hl & Hom & Hfirst) Hk Hhk Hnear Hskip.
  split; [exact Hhk|]. split; [exact Hk|].
  intros u Hu Homu.
  destruct (Z_lt_le_dec nm h) as [Hlt | Hge].
  - specialize (Hnear Hlt).
    apply (odd_multiple_mod p _ Hp Hodd) in Hk, Homu.
    pose proof (Z.div_mod u (2 * p) ltac:(lia)) as Hd1.
    pose proof (Z.div_mod k' (2 * p) ltac:(lia)) as Hd2.
    rewrite Homu in Hd1. rewrite Hk in Hd2.
    set (a := u / (2 * p)) in *. set (b := k' / (2 * p)) in *.
    destruct (Z_lt_le_dec u k') as [Hbad | Hok]; [|exact Hok].
    exfalso. assert (a < b) by nia. assert (b - 1 < a) by nia. lia.
  - rewrite (Hskip Hge). apply Hfirst; [lia | exact Homu].
Qed.

(** With [nm] the first odd multiple from [l] on, the odd multiples of [p]
    in the segment are those from [nm] on. *)
Lemma crossed_bits (p l h nm i : Z) :
  first_odd_multiple p l nm -> 0 <= i < h - l ->
  negb ((nm <=? l + i) && (l + i <? h) && odd_multiple p (l + i))
  = negb (odd_multiple p (l + i)).
Proof.
  intros (Hl & Hom & Hfirst) Hi. f_equal.
  destruct (odd_multiple p (l + i)) eqn:Ho; [|rewrite andb_false_r; reflexivity].
  specialize (Hfirst (l + i) ltac:(lia) Ho).
  rewrite andb_true_r. apply andb_true_iff. split; [apply Z.leb_le | apply Z.ltb_lt]; lia.
Qed.

(** The loop of [sieve_out], which clears without counting. *)
Lemma stride_unset_bits (prime low high next_multiple : Z)
    (sieve : BitSieve.t) (k' : Z) (sieve' : BitSieve.t) :
  0 < prime -> Z.odd prime = true ->
  odd_multiple prime next_multiple = true ->
  low <= next_multiple -> high <= low + BitSieve.size sieve ->
  BitSieve.wf sieve ->
  for_stride next_multiple high (prime * 2)
    (fun k sv => BitSieve.unset sv (k - low)) sieve = Some (k', sieve') ->
  (odd_multiple prime k' = true /\ high <= k' /\ next_multiple <= k'
   /\ (next_multiple < high -> k' < high + 2 * prime)
   /\ (high <= next_multiple -> k' = next_multiple))
  /\ BitSieve.wf sieve' /\ BitSieve.size sieve' = BitSieve.size sieve
  /\ forall i, 0 <= i < BitSieve.size sieve ->
       BitSieve.test sieve' i
       = BitSieve.test sieve i
         && negb ((next_multiple <=? low + i) && (low + i <? high)
                  && odd_multiple prime (low + i)).
Proof.
  intros Hp Hodd Hnm Hlow Hhigh Hwf Hloop.
  apply (for_stride_ind
           (fun k sv =>
              next_multiple <= k /\ odd_multiple prime k = true
              /\ BitSieve.wf sv /\ BitSieve.size sv = BitSieve.size sieve
              /\ forall i, 0 <= i < BitSieve.size sieve ->
                   BitSieve.test sv i
                   = BitSieve.test sieve i
                     && negb ((next_multiple <=? low + i) && (low + i <? k)
                              && odd_multiple prime (low + i))))
    in Hloop.
  - destruct Hloop as ((Hle & Hk & Hwf' & Hsz & Hbits) & Hexit & Hnear & Hskip).
    split; [repeat split; try assumption; lia|].
    split; [exact Hwf'|]. split; [exact Hsz|].
    intros i Hi. rewrite Hbits by exact Hi.
    f_equal. f_equal.
    destruct (odd_multiple prime (low + i)) eqn:Hom; [|rewrite !andb_false_r; reflexivity].
    rewrite !andb_true_r.
    apply (odd_multiple_mod prime _ Hp Hodd) in Hom, Hk.
    pose proof (Z.div_mod (low + i) (2 * prime) ltac:(lia)) as Hd1.
    pose proof (Z.div_mod k' (2 * prime) ltac:(lia)) as Hd2.
    rewrite Hom in Hd1. rewrite Hk in Hd2.
    set (a := (low + i) / (2 * prime)) in *. set (b := k' / (2 * prime)) in *.
    destruct (Z.leb_spec next_multiple (low + i)); simpl; [|reflexivity].
    destruct (Z.ltb_spec (low + i) high), (Z.ltb_spec (low + i) k');
      try reflexivity; try lia.
    exfalso.
    destruct (Z_lt_le_dec next_multiple high) as [Hlt | Hge]; [|lia].
    specialize (Hnear Hlt).
    assert (b - 1 < a) by nia. assert (a < b) by nia. lia.
  - split; [lia|]. split; [exact Hnm|]. split; [exact Hwf|].
    split; [reflexivity|]. intros i Hi.
    replace ((next_multiple <=? low + i) && (low + i <? next_multiple)) with false
      by (symmetry; apply andb_false_iff; zbool; auto).
    simpl. rewrite andb_true_r. reflexivity.
  - intros k sv Hk Hstep (Hle & Hom & Hwf' & Hsz & Hbits).
    assert (Hk' : odd_multiple prime (k + prime * 2) = true).
    { apply (odd_multiple_mod prime _ Hp Hodd).
      apply (odd_multiple_mod prime _ Hp Hodd) in Hom.
      replace (k + prime * 2) with (k + 1 * (2 * prime)) by lia.
      rewrite Z_mod_plus_full. exact Hom. }
    split; [lia|]. split; [exact Hk'|].
    split; [apply unset_wf; exact Hwf'|]. split; [exact Hsz|].
    intros i Hi. rewrite test_unset; try lia.
    + rewrite Hbits by exact Hi.
      rewrite <- andb_assoc. f_equal. rewrite <- negb_orb. f_equal.
      destruct (Z.eqb_spec i (k - low)) as [-> | Hne].
      * replace (low + (k - low)) with k by lia. rewrite Hom.
        replace (next_multiple <=? k) with true by (symmetry; apply Z.leb_le; lia).
        replace (k <? k + prime * 2) with true by (symmetry; apply Z.ltb_lt; lia).
        rewrite orb_true_r. reflexivity.
      * rewrite orb_false_r.
        destruct (odd_multiple prime (low + i)) eqn:Hom'; [|rewrite !andb_false_r; reflexivity].
        rewrite !andb_true_r. f_equal.
        apply (odd_multiple_mod prime _ Hp Hodd) in Hom, Hom'.
        pose proof (Z.div_mod (low + i) (2 * prime) ltac:(lia)) as Hd1.
        pose proof (Z.div_mod k (2 * prime) ltac:(lia)) as Hd2.
        rewrite Hom' in Hd1. rewrite Hom in Hd2.
        set (a := (low + i) / (2 * prime)) in *. set (b := k / (2 * prime)) in *.
        destruct (Z.ltb_spec (low + i) k), (Z.ltb_spec (low + i) (k + prime * 2));
          try reflexivity; try lia.
        exfalso. assert (b < a) by nia. assert (a < b + 1) by nia. lia.
    + apply word_index_pos; [exact Hwf' | unfold BitSieve.size in *; lia].
Qed.

(** A query of the counters counts the survivors of the segment. *)
Lemma query_survivors (primes : list Z) (sieve : BitSieve.t) (counters : list Z)
    (b l n pos : Z) :
  counters_agree sieve counters ->
  (forall i, 0 <= i < n -> BitSieve.test sieve i = survives primes b (l + i)) ->
  0 <= pos < n -> n <= BitSieve.size sieve ->
  TosCounters.cnt_query sieve counters pos = survivors primes b l (l + pos + 1).
Proof.
  intros Hagree Hbits Hpos Hn.
  rewrite (query_agrees sieve counters pos Hagree) by lia.
  unfold BitSieve.ones_between, survivors.
  rewrite (count_between_ext (BitSieve.test sieve)
             (fun i => survives primes b (i + l)) 0 pos).
  - rewrite (count_between_shift (survives primes b) l 0 pos).
    f_equal; lia.
  - intros k Hk. rewrite Hbits by lia. f_equal. lia.
Qed.

(** ** The leaf loops of a segment *)

Lemma first_leaf_index_ge (c : Z) : 2 <= first_leaf_index c /\ c < first_leaf_index c.
Proof. unfold first_leaf_index. lia. Qed.

Section leaf_loops.

Variables (x y c pi_y : Z) (primes lpf mu : list Z).

Hypothesis x_nonneg : 0 <= x.
Hypothesis y_pos : 1 <= y.
Hypothesis primes_def : primes = generate_primes y [0].
Hypothesis pi_y_def : pi_y = Z.of_nat (length primes) - 1.
Hypothesis lpf_le : forall m, 2 <= m <= y -> lpf@m <= m.

(** The sum that a leaf loop adds is the sum over the leaves of the
    segment. *)
Lemma loop_sum_leaf_sum (b l h lo hi : Z) (cond : Z -> bool) (t F : Z -> Z) :
  0 <= lo -> 0 <= hi <= Z.max y pi_y ->
  (forall k, 1 <= k ->
     (lo <? k) && (k <=? hi) && cond k
     = is_leaf x y c pi_y primes lpf mu b k
       && (l <=? leaf_position x y primes b k)
       && (leaf_position x y primes b k <? h)) ->
  (forall k, 1 <= k -> is_leaf x y c pi_y primes lpf mu b k = true ->
     l <= leaf_position x y primes b k < h ->
     t k = leaf_weight y primes mu b k * F (leaf_position x y primes b k)) ->
  zsum (map (fun m => if cond m then t m else 0)
          (zrange (hi - Z.of_nat (Z.to_nat (hi - lo)) + 1) (hi + 1)))
  = leaf_sum x y c pi_y primes lpf mu b l h F.
Proof.
  intros Hlo Hhi Hcond Ht. unfold leaf_sum.
  set (a' := hi - Z.of_nat (Z.to_nat (hi - lo)) + 1).
  assert (Ha' : 1 <= a') by (unfold a'; lia).
  rewrite (zsum_trim _ 1 (Z.max y pi_y + 1) a' (hi + 1)); [| lia | lia |].
  - apply zsum_map_ext. intros k Hin. apply in_zrange in Hin.
    assert (Hk : lo < k <= hi) by (unfold a' in Hin; lia).
    rewrite <- (Hcond k) by lia.
    replace (lo <? k) with true by (symmetry; apply Z.ltb_lt; lia).
    replace (k <=? hi) with true by (symmetry; apply Z.leb_le; lia).
    simpl. destruct (cond k) eqn:Hc; [|reflexivity].
    pose proof (Hcond k ltac:(lia)) as He. rewrite Hc in He.
    replace (lo <? k) with true in He by (symmetry; apply Z.ltb_lt; lia).
    replace (k <=? hi) with true in He by (symmetry; apply Z.leb_le; lia).
    simpl in He. symmetry in He.
    apply andb_true_iff in He. destruct He as [He H2].
    apply andb_true_iff in He. destruct He as [He H1].
    apply Z.leb_le in H1. apply Z.ltb_lt in H2.
    apply Ht; [lia | exact He | lia].
  - intros k Hk Hout. rewrite <- (Hcond k) by lia.
    destruct (Z.ltb_spec lo k); simpl; [|reflexivity].
    destruct (Z.leb_spec k hi); simpl; [|reflexivity].
    exfalso. apply Hout. unfold a'. lia.
Qed.

Variables (seg L l h : Z).

Hypothesis L_pos : 1 <= L <= l.
Hypothesis l_lt_h : l < h.
Hypothesis h_in_seg : h <= l + seg.

Variable st0 : Lmo.thread_state.

Hypothesis next0 : forall b,
  reached x y c pi_y primes (thread_size x y L) b l ->
  first_odd_multiple primes@b l (Lmo.next st0)@b.
Hypothesis length_next0 : Z.of_nat (length (Lmo.next st0)) = thread_size x y L.
Hypothesis length_phi0 : Z.of_nat (length (Lmo.phi st0)) = thread_size x y L.
Hypothesis length_mu_sum0 : Z.of_nat (length (Lmo.mu_sum st0)) = thread_size x y L.

(** What the two leaf loops share: after the leaves of [primes[b]] are
    added, the survivors of the segment are added to [phi[b]] and the
    multiples of [primes[b]] are crossed off. *)
Lemma leaves_step (b : Z) (st : Lmo.thread_state) (S' : Z) (M' : list Z)
    (k : Z) (sv : BitSieve.t) (cnt : list Z) :
  first_leaf_index c <= b < Z.min pi_y (thread_size x y L) ->
  stops x y primes b l = false ->
  leaves_inv x y c pi_y primes lpf mu seg l h st0 b st ->
  S' = Lmo.S2_sum st
       + leaf_sum x y c pi_y primes lpf mu b l h
           (fun pos => (Lmo.phi st)@b + survivors primes b l (pos + 1)) ->
  length M' = length (Lmo.mu_sum st) ->
  M'@b = (Lmo.mu_sum st)@b + leaf_number x y c pi_y primes lpf mu b l h ->
  (forall j, 0 <= j -> j <> b -> M'@j = (Lmo.mu_sum st)@j) ->
  Lmo.cross_off primes@b l h (Lmo.next st)@b (Lmo.sieve st) (Lmo.counters st)
    = Some (k, sv, cnt) ->
  leaves_inv x y c pi_y primes lpf mu seg l h st0 (b + 1)
    (Lmo.mk_thread sv cnt (vset (Lmo.next st) b k)
       (vset (Lmo.phi st) b
          ((Lmo.phi st)@b
           + TosCounters.cnt_query (Lmo.sieve st) (Lmo.counters st) (h - 1 - l)))
       M' S').
Proof.
  intros Hb Hstop (Hstep & Hbits & Hln & Hlp & Hlm & Hsame & Hdone & Hsum)
    HS' HlM HMb HMj Hcross.
  pose proof (first_leaf_index_ge c) as Hfl.
  assert (Hb2 : 2 <= b <= pi_y) by lia.
  destruct (primes_odd y pi_y primes primes_def pi_y_def b Hb2) as (Hp3 & Hodd).
  destruct (Hsame b ltac:(lia) ltac:(lia)) as (Hnb & Hpb & Hmb).
  assert (Hreach : reached x y c pi_y primes (thread_size x y L) b l).
  { split; [lia|]. intros b' Hb'.
    destruct (Z.eq_dec b' b) as [-> | Hne]; [exact Hstop|].
    apply (Hdone b'). lia. }
  pose proof (next0 b Hreach) as Hfirst. rewrite <- Hnb in Hfirst.
  destruct Hstep as (Hwf & Hsz & Hagree). simpl in Hwf, Hsz, Hagree.
  destruct Hfirst as (Hf1 & Hf2 & Hf3).
  destruct (cross_off_bits primes@b l h (Lmo.next st)@b (Lmo.sieve st)
              (Lmo.counters st) k sv cnt ltac:(lia) Hodd Hf2 Hf1
              ltac:(lia) Hwf Hcross)
    as ((Hk1 & Hk2 & Hk3 & Hk4 & Hk5) & Hwf' & Hsz' & Hbits').
  pose proof (cross_off_in_step primes@b l h (Lmo.next st)@b (Lmo.sieve st)
                (Lmo.counters st) k sv cnt Hf1 ltac:(lia) Hcross) as Hstep'.
  assert (Hfirst' : first_odd_multiple primes@b h k).
  { apply (first_odd_multiple_advance primes@b l h (Lmo.next st)@b k);
      try assumption; try lia. repeat split; assumption. }
  assert (Hquery : TosCounters.cnt_query (Lmo.sieve st) (Lmo.counters st) (h - 1 - l)
                   = survivors primes b l h).
  { rewrite (query_survivors primes (Lmo.sieve st) (Lmo.counters st) b l (h - l)
               (h - 1 - l) Hagree Hbits) by lia.
    f_equal. lia. }
  unfold leaves_inv. simpl.
  split.
  { rewrite <- Hsz. apply Hstep'. rewrite Hsz.
    split; [exact Hwf|]. split; [exact Hsz | exact Hagree]. }
  split.
  { intros i Hi. rewrite Hbits' by lia. rewrite Hbits by exact Hi.
    rewrite survives_step by lia. f_equal.
    apply crossed_bits; [repeat split; assumption | exact Hi]. }
  rewrite !vset_length.
  split; [exact Hln|]. split; [exact Hlp|]. split; [congruence|].
  split.
  { intros b' Hb0 Hb'. destruct (Hsame b' Hb0 ltac:(lia)) as (H1 & H2 & H3).
    rewrite !vget_vset_ne by lia. rewrite HMj by lia. auto. }
  split.
  { intros b' Hb'. destruct (Z.eq_dec b' b) as [-> | Hne].
    - rewrite !vget_vset_eq by lia.
      split; [exact Hstop|]. split; [rewrite Hquery; lia|].
      split; [rewrite HMb; lia | exact Hfirst'].
    - destruct (Hdone b' ltac:(lia)) as (H1 & H2 & H3 & H4).
      rewrite !vget_vset_ne by lia. rewrite HMj by lia. auto. }
  rewrite (zrange_snoc (first_leaf_index c) b) by lia.
  rewrite map_app, zsum_app. simpl. rewrite HS', Hsum, Hpb. lia.
Qed.

(** The body of the loop below [pi_sqrty]: it leaves by the [goto] when
    [stops] says so, and otherwise adds the leaves of [primes[b]]. *)
Lemma below_body (b : Z) (st st' : Lmo.thread_state) (j : bool) :
  first_leaf_index c <= b < Z.min (pi_sqrty y primes) (thread_size x y L) ->
  leaves_inv x y c pi_y primes lpf mu seg l h st0 b st ->
  Lmo.leaves_below_sqrty x y primes lpf mu l h b st = Some (st', j) ->
  if j then st' = st /\ stops x y primes b l = true
  else leaves_inv x y c pi_y primes lpf mu seg l h st0 (b + 1) st'.
Proof.
  intros Hb Hinv Hrun.
  pose proof (first_leaf_index_ge c) as Hfl.
  pose proof (pi_sqrty_range y pi_y primes primes_def pi_y_def) as Hsq.
  assert (Hb2 : 1 <= b <= pi_y) by lia.
  destruct (primes_nth y pi_y primes primes_def pi_y_def b Hb2) as (_ & Hp & _).
  assert (Hstops : stops x y primes b l
                   = (primes@b >=? Z.min (x ÷ (primes@b * l)) y)).
  { unfold stops. cbv zeta.
    replace (b <? pi_sqrty y primes) with true by (symmetry; apply Z.ltb_lt; lia).
    reflexivity. }
  unfold Lmo.leaves_below_sqrty in Hrun. cbv zeta in Hrun.
  destruct (primes@b >=? Z.min (x ÷ (primes@b * l)) y) eqn:Hs.
  { inversion Hrun; subst. split; [reflexivity | exact Hstops]. }
  match type of Hrun with
  | context [for_range_down ?hi ?lo ?body ?a] =>
      destruct (for_range_down hi lo body a) as [S' M'] eqn:Hloop;
      pose proof (for_down_leaves
                    (fun m => negb (mu@m =? 0) && (primes@b <? lpf@m))
                    (fun m => - mu@m
                              * ((Lmo.phi st)@b
                                 + TosCounters.cnt_query (Lmo.sieve st)
                                     (Lmo.counters st) (x ÷ (primes@b * m) - l)))
                    (fun m => - mu@m) b body (Z.to_nat (hi - lo)) hi
                    (Lmo.S2_sum st) (Lmo.mu_sum st)) as Hacc
  end.
  destruct (Lmo.cross_off primes@b l h (Lmo.next st)@b (Lmo.sieve st)
              (Lmo.counters st)) as [[[k sv] cnt]|] eqn:Hcross; [|discriminate].
  simpl in Hrun. inversion Hrun; subst st' j. clear Hrun.
  destruct Hinv as (Hstep & Hbits & Hln & Hlp & Hlm & Hrest).
  unfold for_range_down in Hloop.
  cbv zeta in Hacc. rewrite Hloop in Hacc. cbn [fst snd] in Hacc.
  destruct Hacc as (A1 & A2 & A3 & A4).
  { intros m S M. cbv beta iota.
    destruct (negb (mu@m =? 0) && (primes@b <? lpf@m)); [|reflexivity].
    f_equal. lia. }
  { lia. }
  assert (Hq1 : 0 <= x ÷ (primes@b * l)) by (apply quot_nonneg; nia).
  assert (Hq2 : 0 <= x ÷ (primes@b * h)) by (apply quot_nonneg; nia).
  assert (Hq3 : 0 <= y ÷ primes@b) by (apply quot_nonneg; lia).
  assert (Hrange : forall k0, 1 <= k0 ->
            (Z.max (x ÷ (primes@b * h)) (y ÷ primes@b) <? k0)
            && (k0 <=? Z.min (x ÷ (primes@b * l)) y)
            && (negb (mu@k0 =? 0) && (primes@b <? lpf@k0))
            = is_leaf x y c pi_y primes lpf mu b k0
              && (l <=? leaf_position x y primes b k0)
              && (leaf_position x y primes b k0 <? h)).
  { intros k0 Hk0.
    apply (leaves_below_range x y c pi_y primes lpf mu x_nonneg y_pos primes_def
             pi_y_def b l h k0); lia. }
  assert (Hpos : forall k0, leaf_position x y primes b k0 = x ÷ (primes@b * k0)).
  { intros k0. unfold leaf_position, cofactor.
    replace (b <? pi_sqrty y primes) with true by (symmetry; apply Z.ltb_lt; lia).
    reflexivity. }
  assert (Hweight : forall k0, leaf_weight y primes mu b k0 = - mu@k0).
  { intros k0. unfold leaf_weight.
    replace (b <? pi_sqrty y primes) with true by (symmetry; apply Z.ltb_lt; lia).
    reflexivity. }
  destruct Hstep as (Hwf & Hsz & Hagree). simpl in Hwf, Hsz, Hagree.
  apply (leaves_step b st S' M' k sv cnt).
  - lia.
  - rewrite Hstops. reflexivity.
  - split; [split; [exact Hwf | split; [exact Hsz | exact Hagree]]|].
    split; [exact Hbits|]. split; [exact Hln|]. split; [exact Hlp|].
    split; [exact Hlm | exact Hrest].
  - rewrite A1. f_equal.
    apply loop_sum_leaf_sum; [lia | lia | exact Hrange |].
    intros k0 Hk0 Hleaf Hin. rewrite Hweight. f_equal. f_equal.
    rewrite <- Hpos.
    rewrite (query_survivors primes (Lmo.sieve st) (Lmo.counters st) b l (h - l)
               (leaf_position x y primes b k0 - l) Hagree Hbits) by lia.
    f_equal. lia.
  - exact A2.
  - rewrite A3. f_equal. unfold leaf_number.
    apply loop_sum_leaf_sum; [lia | lia | exact Hrange |].
    intros k0 Hk0 Hleaf Hin. rewrite Hweight. lia.
  - exact A4.
  - exact Hcross.
Qed.

(** The body of the loop from [pi_sqrty] on. *)
Lemma from_body (b : Z) (st st' : Lmo.thread_state) (j : bool) :
  first_leaf_index c <= b < Z.min pi_y (thread_size x y L) ->
  pi_sqrty y primes <= b ->
  leaves_inv x y c pi_y primes lpf mu seg l h st0 b st ->
  Lmo.leaves_from_sqrty x y (make_pi y) primes l h b st = Some (st', j) ->
  if j then st' = st /\ stops x y primes b l = true
  else leaves_inv x y c pi_y primes lpf mu seg l h st0 (b + 1) st'.
Proof.
  intros Hb Htype Hinv Hrun.
  pose proof (first_leaf_index_ge c) as Hfl.
  assert (Hb2 : 1 <= b <= pi_y) by lia.
  destruct (primes_nth y pi_y primes primes_def pi_y_def b Hb2) as (_ & Hp & _).
  assert (Hstops : stops x y primes b l
                   = (primes@b >=? primes@((make_pi y)@(Z.min (x ÷ (primes@b * l)) y)))).
  { unfold stops. cbv zeta.
    replace (b <? pi_sqrty y primes) with false by (symmetry; apply Z.ltb_ge; lia).
    reflexivity. }
  unfold Lmo.leaves_from_sqrty in Hrun. cbv zeta in Hrun.
  destruct (primes@b >=? primes@((make_pi y)@(Z.min (x ÷ (primes@b * l)) y))) eqn:Hs.
  { inversion Hrun; subst. split; [reflexivity | exact Hstops]. }
  match type of Hrun with
  | context [for_range_down ?hi ?lo ?body ?a] =>
      destruct (for_range_down hi lo body a) as [S' M'] eqn:Hloop;
      pose proof (for_down_leaves
                    (fun _ => true)
                    (fun m => (Lmo.phi st)@b
                              + TosCounters.cnt_query (Lmo.sieve st)
                                  (Lmo.counters st)
                                  (x ÷ (primes@b * primes@m) - l))
                    (fun _ => 1) b body (Z.to_nat (hi - lo)) hi
                    (Lmo.S2_sum st) (Lmo.mu_sum st)) as Hacc
  end.
  destruct (Lmo.cross_off primes@b l h (Lmo.next st)@b (Lmo.sieve st)
              (Lmo.counters st)) as [[[k sv] cnt]|] eqn:Hcross; [|discriminate].
  simpl in Hrun. inversion Hrun; subst st' j. clear Hrun.
  destruct Hinv as (Hstep & Hbits & Hln & Hlp & Hlm & Hrest).
  unfold for_range_down in Hloop.
  cbv zeta in Hacc. rewrite Hloop in Hacc. cbn [fst snd] in Hacc.
  destruct Hacc as (A1 & A2 & A3 & A4).
  { intros m S M. reflexivity. }
  { lia. }
  assert (Hq1 : 0 <= x ÷ (primes@b * l)) by (apply quot_nonneg; nia).
  assert (Hq2 : 0 <= x ÷ (primes@b * h)) by (apply quot_nonneg; nia).
  assert (Hq3 : 0 <= y ÷ primes@b) by (apply quot_nonneg; lia).
  set (N := in_between primes@b (Z.max (x ÷ (primes@b * h)) (y ÷ primes@b)) y) in *.
  assert (HN : 0 <= N <= y).
  { unfold N, in_between.
    destruct (Z.ltb_spec (Z.max (x ÷ (primes@b * h)) (y ÷ primes@b)) primes@b);
      [lia|].
    rewrite Z.gtb_ltb.
    destruct (Z.ltb_spec y (Z.max (x ÷ (primes@b * h)) (y ÷ primes@b))); lia. }
  pose proof (pi_table y pi_y primes primes_def pi_y_def N HN) as HpiN.
  pose proof (pi_table y pi_y primes primes_def pi_y_def
                (Z.min (x ÷ (primes@b * l)) y) ltac:(lia)) as Hpil.
  assert (Hrange : forall k0, 1 <= k0 ->
            ((make_pi y)@N <? k0)
            && (k0 <=? (make_pi y)@(Z.min (x ÷ (primes@b * l)) y))
            && true
            = is_leaf x y c pi_y primes lpf mu b k0
              && (l <=? leaf_position x y primes b k0)
              && (leaf_position x y primes b k0 <? h)).
  { intros k0 Hk0. rewrite andb_true_r.
    apply (leaves_from_range x y c pi_y primes lpf mu x_nonneg y_pos primes_def
             pi_y_def b l h k0); lia. }
  assert (Hpos : forall k0, leaf_position x y primes b k0
                            = x ÷ (primes@b * primes@k0)).
  { intros k0. unfold leaf_position, cofactor.
    replace (b <? pi_sqrty y primes) with false by (symmetry; apply Z.ltb_ge; lia).
    reflexivity. }
  assert (Hweight : forall k0, leaf_weight y primes mu b k0 = 1).
  { intros k0. unfold leaf_weight.
    replace (b <? pi_sqrty y primes) with false by (symmetry; apply Z.ltb_ge; lia).
    reflexivity. }
  destruct Hstep as (Hwf & Hsz & Hagree). simpl in Hwf, Hsz, Hagree.
  apply (leaves_step b st S' M' k sv cnt).
  - lia.
  - rewrite Hstops. reflexivity.
  - split; [split; [exact Hwf | split; [exact Hsz | exact Hagree]]|].
    split; [exact Hbits|]. split; [exact Hln|]. split; [exact Hlp|].
    split; [exact Hlm | exact Hrest].
  - rewrite A1. f_equal.
    apply (loop_sum_leaf_sum b l h (make_pi y)@N
             (make_pi y)@(Z.min (x ÷ (primes@b * l)) y) (fun _ => true)
             (fun m => (Lmo.phi st)@b
                       + TosCounters.cnt_query (Lmo.sieve st) (Lmo.counters st)
                           (x ÷ (primes@b * primes@m) - l))
             (fun pos => (Lmo.phi st)@b + survivors primes b l (pos + 1)));
      [lia | lia | exact Hrange |].
    intros k0 Hk0 Hleaf Hin. rewrite Hweight. rewrite Z.mul_1_l. f_equal.
    rewrite <- Hpos.
    rewrite (query_survivors primes (Lmo.sieve st) (Lmo.counters st) b l (h - l)
               (leaf_position x y primes b k0 - l) Hagree Hbits) by lia.
    f_equal. lia.
  - exact A2.
  - rewrite A3. f_equal. unfold leaf_number.
    apply (loop_sum_leaf_sum b l h (make_pi y)@N
             (make_pi y)@(Z.min (x ÷ (primes@b * l)) y) (fun _ => true)
             (fun _ => 1) (fun _ => 1));
      [lia | lia | exact Hrange |].
    intros k0 Hk0 Hleaf Hin. rewrite Hweight. lia.
  - exact A4.
  - exact Hcross.
Qed.

End leaf_loops.

(** ** A segment *)

Section segments.

Variables (x y c pi_y : Z) (primes lpf mu : list Z).

Hypothesis x_nonneg : 0 <= x.
Hypothesis y_pos : 1 <= y.
Hypothesis primes_def : primes = generate_primes y [0].
Hypothesis pi_y_def : pi_y = Z.of_nat (length primes) - 1.
Hypothesis lpf_le : forall m, 2 <= m <= y -> lpf@m <= m.

Lemma primes_mono0 (i j : Z) : 0 <= i <= j -> j <= pi_y -> primes@i <= primes@j.
Proof.
  intros Hij Hj. destruct (Z.eq_dec i 0) as [-> | Hi].
  - assert (H0 : primes@0 = 0) by (rewrite (primes_cons y primes primes_def); reflexivity).
    rewrite H0. destruct (Z.eq_dec j 0) as [-> | Hj0]; [lia|].
    destruct (primes_nth y pi_y primes primes_def pi_y_def j ltac:(lia)) as (_ & H & _).
    lia.
  - apply (primes_increasing y pi_y primes primes_def pi_y_def); lia.
Qed.

(** Once a loop stops it stops in every later segment. *)
Lemma stops_mono (b u u' : Z) :
  1 <= b <= pi_y -> 1 <= u <= u' ->
  stops x y primes b u = true -> stops x y primes b u' = true.
Proof.
  intros Hb Hu. unfold stops. cbv zeta.
  destruct (primes_nth y pi_y primes primes_def pi_y_def b Hb) as (_ & Hp & _).
  pose proof (quot_anti x (primes@b * u) (primes@b * u') x_nonneg
                ltac:(nia) ltac:(nia)) as Hq.
  assert (Hq0 : 0 <= x ÷ (primes@b * u')) by (apply quot_nonneg; nia).
  destruct (b <? pi_sqrty y primes); rewrite !Z.geb_leb, !Z.leb_le.
  - lia.
  - intros H.
    set (V := Z.min (x ÷ (primes@b * u)) y) in *.
    set (V' := Z.min (x ÷ (primes@b * u')) y).
    assert (HV : 0 <= V' <= V /\ V <= y) by (unfold V, V'; lia).
    pose proof (pi_table y pi_y primes primes_def pi_y_def V ltac:(lia)) as H1.
    pose proof (pi_table y pi_y primes primes_def pi_y_def V' ltac:(lia)) as H2.
    assert (Hpi : (make_pi y)@V' <= (make_pi y)@V).
    { rewrite !make_pi_nth by lia. apply prime_pi_mono. lia. }
    pose proof (primes_mono0 (make_pi y)@V' (make_pi y)@V ltac:(lia) ltac:(lia)).
    lia.
Qed.

Lemma reached_anti (size b u u' : Z) :
  1 <= u <= u' ->
  reached x y c pi_y primes size b u' -> reached x y c pi_y primes size b u.
Proof.
  intros Hu (Hb & Hs). pose proof (first_leaf_index_ge c) as Hfl.
  split; [exact Hb|]. intros b' Hb'.
  destruct (stops x y primes b' u) eqn:Hst; [|reflexivity].
  rewrite <- (Hs b' Hb'). symmetry.
  apply (stops_mono b' u u'); [lia | exact Hu | exact Hst].
Qed.

Lemma thread_size_le (u : Z) : 1 <= u -> 1 <= thread_size x y u <= pi_y + 1.
Proof.
  intros Hu. unfold thread_size.
  assert (0 <= isqrt (x ÷ u)) by (unfold isqrt; apply Z.sqrt_nonneg).
  pose proof (pi_table y pi_y primes primes_def pi_y_def
                (Z.min (isqrt (x ÷ u)) y) ltac:(lia)).
  lia.
Qed.

Variables (seg L R : Z).

Hypothesis L_pos : 1 <= L.
Hypothesis seg_pos : 0 < seg.
Hypothesis c_small : c < thread_size x y L - 1.

(** The loop over [b <= c]: the multiples of the first primes go. *)
Lemma sieve_out_loop (l h : Z) (st : Lmo.thread_state) (b1 : Z)
    (st2 : Lmo.thread_state) (j : bool) :
  L <= l < h -> h <= l + seg ->
  BitSieve.wf (Lmo.sieve st) -> BitSieve.size (Lmo.sieve st) = seg ->
  (forall b, 2 <= b <= c -> first_odd_multiple primes@b l (Lmo.next st)@b) ->
  Z.of_nat (length (Lmo.next st)) = thread_size x y L ->
  for_lt_jump 2 (c + 1) (Lmo.sieve_out primes l h)
    (Lmo.mk_thread (BitSieve.memset (Lmo.sieve st) l) (Lmo.counters st)
       (Lmo.next st) (Lmo.phi st) (Lmo.mu_sum st) (Lmo.S2_sum st))
    = Some (b1, st2, j) ->
  b1 = first_leaf_index c
  /\ BitSieve.wf (Lmo.sieve st2) /\ BitSieve.size (Lmo.sieve st2) = seg
  /\ (forall i, 0 <= i < h - l ->
        BitSieve.test (Lmo.sieve st2) i = survives primes b1 (l + i))
  /\ Lmo.counters st2 = Lmo.counters st /\ Lmo.phi st2 = Lmo.phi st
  /\ Lmo.mu_sum st2 = Lmo.mu_sum st /\ Lmo.S2_sum st2 = Lmo.S2_sum st
  /\ length (Lmo.next st2) = length (Lmo.next st)
  /\ (forall b', 0 <= b' -> ~ (2 <= b' < b1) -> (Lmo.next st2)@b' = (Lmo.next st)@b')
  /\ (forall b', 2 <= b' < b1 -> first_odd_multiple primes@b' h (Lmo.next st2)@b').
Proof.
  intros Hl Hh Hwf Hsz Hnext Hlen Hrun.
  destruct (memset_wf (Lmo.sieve st) l Hwf) as (Hwf1 & Hsz1).
  pose proof (thread_size_le L L_pos) as Hts.
  apply (for_lt_jump_ind
           (fun b s =>
              BitSieve.wf (Lmo.sieve s) /\ BitSieve.size (Lmo.sieve s) = seg
              /\ (forall i, 0 <= i < h - l ->
                    BitSieve.test (Lmo.sieve s) i = survives primes b (l + i))
              /\ Lmo.counters s = Lmo.counters st /\ Lmo.phi s = Lmo.phi st
              /\ Lmo.mu_sum s = Lmo.mu_sum st /\ Lmo.S2_sum s = Lmo.S2_sum st
              /\ length (Lmo.next s) = length (Lmo.next st)
              /\ (forall b', 0 <= b' -> ~ (2 <= b' < b) ->
                    (Lmo.next s)@b' = (Lmo.next st)@b')
              /\ (forall b', 2 <= b' < b ->
                    first_odd_multiple primes@b' h (Lmo.next s)@b'))
           (fun _ _ => False)) in Hrun.
  - destruct j; [contradiction|]. destruct Hrun as (HP & Hb1).
    assert (Hb1' : b1 = first_leaf_index c) by (unfold first_leaf_index; lia).
    split; [exact Hb1' | exact HP].
  - simpl. split; [exact Hwf1|]. split; [lia|].
    split.
    { intros i Hi. rewrite memset_test; [| exact Hwf | lia | unfold BitSieve.size in Hsz; lia].
      unfold survives. rewrite zrange_nil by lia. simpl. rewrite andb_true_r.
      reflexivity. }
    repeat split; intros; try reflexivity; lia.
  - intros i s s' Hi (Pwf & Psz & Pbits & Pc & Pphi & Pmu & PS & Plen & Psame & Pdone) Hbody.
    unfold Lmo.sieve_out in Hbody.
    destruct (for_stride (Lmo.next s)@i h (primes@i * 2)
                (fun k sv => BitSieve.unset sv (k - l)) (Lmo.sieve s))
      as [[k sv]|] eqn:Hloop; [|discriminate].
    simpl in Hbody. inversion Hbody; subst s'. clear Hbody. simpl.
    destruct (primes_odd y pi_y primes primes_def pi_y_def i ltac:(lia)) as (Hp3 & Hodd).
    pose proof (Hnext i ltac:(lia)) as Hfirst.
    rewrite <- (Psame i ltac:(lia) ltac:(lia)) in Hfirst.
    destruct Hfirst as (Hf1 & Hf2 & Hf3).
    destruct (stride_unset_bits primes@i l h (Lmo.next s)@i (Lmo.sieve s) k sv
                ltac:(lia) Hodd Hf2 Hf1 ltac:(lia) Pwf Hloop)
      as ((Hk1 & Hk2 & Hk3 & Hk4 & Hk5) & Hwf' & Hsz' & Hbits').
    split; [exact Hwf'|]. split; [lia|].
    split.
    { intros i0 Hi0. rewrite Hbits' by lia. rewrite Pbits by exact Hi0.
      rewrite survives_step by lia. f_equal.
      apply crossed_bits; [repeat split; assumption | exact Hi0]. }
    rewrite vset_length.
    repeat (split; [assumption|]).
    split.
    { intros b' Hb0 Hb'. rewrite vget_vset_ne by lia. apply Psame; lia. }
    intros b' Hb'. destruct (Z.eq_dec b' i) as [-> | Hne].
    + rewrite vget_vset_eq by lia.
      apply (first_odd_multiple_advance primes@i l h (Lmo.next s)@i k);
        try assumption; try lia. repeat split; assumption.
    + rewrite vget_vset_ne by lia. apply Pdone. lia.
  - intros i s s' Hi _ Hbody. unfold Lmo.sieve_out in Hbody.
    destruct (for_stride (Lmo.next s)@i h (primes@i * 2)
                (fun k sv => BitSieve.unset sv (k - l)) (Lmo.sieve s))
      as [[k sv]|]; simpl in Hbody; [inversion Hbody | discriminate].
Qed.

(** The two leaf loops, one after the other: they end at a prime index [J]
    where the [goto] was taken or where the primes of the thread end. *)
Lemma leaves_loops (l h : Z) (st3 st' : Lmo.thread_state) :
  L <= l < h -> h <= l + seg ->
  (forall b, reached x y c pi_y primes (thread_size x y L) b l ->
     first_odd_multiple primes@b l (Lmo.next st3)@b) ->
  Z.of_nat (length (Lmo.next st3)) = thread_size x y L ->
  Z.of_nat (length (Lmo.phi st3)) = thread_size x y L ->
  Z.of_nat (length (Lmo.mu_sum st3)) = thread_size x y L ->
  leaves_inv x y c pi_y primes lpf mu seg l h st3 (first_leaf_index c) st3 ->
  ('(b, st, jumped) ←
     for_lt_jump (first_leaf_index c)
       (Z.min (pi_sqrty y primes) (thread_size x y L))
       (Lmo.leaves_below_sqrty x y primes lpf mu l h) st3;
   if jumped : bool then Some st
   else
     '(_, st, _) ←
       for_lt_jump b (Z.min pi_y (thread_size x y L))
         (Lmo.leaves_from_sqrty x y (make_pi y) primes l h) st;
     Some st) = Some st' ->
  exists J,
    leaves_inv x y c pi_y primes lpf mu seg l h st3 J st'
    /\ first_leaf_index c <= J
       <= Z.max (first_leaf_index c) (Z.min pi_y (thread_size x y L))
    /\ (stops x y primes J l = true \/ Z.min pi_y (thread_size x y L) <= J).
Proof.
  intros Hl Hh Hnext Hln Hlp Hlm Hinv Hrun.
  pose proof (pi_sqrty_range y pi_y primes primes_def pi_y_def) as Hsq.
  set (size := thread_size x y L) in *.
  set (b0 := first_leaf_index c) in *.
  destruct (for_lt_jump b0 (Z.min (pi_sqrty y primes) size)
              (Lmo.leaves_below_sqrty x y primes lpf mu l h) st3)
    as [[[b2 st4] j2]|] eqn:H2; [|discriminate].
  cbn [mbind option_bind] in Hrun.
  apply (for_lt_jump_ind
           (fun b s => leaves_inv x y c pi_y primes lpf mu seg l h st3 b s)
           (fun b s => leaves_inv x y c pi_y primes lpf mu seg l h st3 b s
                       /\ stops x y primes b l = true
                       /\ b0 <= b < Z.min pi_y size)) in H2.
  - destruct j2.
    + inversion Hrun; subst st4. destruct H2 as (HI & Hs & Hb).
      exists b2. split; [exact HI|]. split; [lia | left; exact Hs].
    + destruct H2 as (HI & Hb2).
      destruct (for_lt_jump b2 (Z.min pi_y size)
                  (Lmo.leaves_from_sqrty x y (make_pi y) primes l h) st4)
        as [[[b3 st5] j3]|] eqn:H3; [|discriminate].
      cbn [mbind option_bind] in Hrun. inversion Hrun; subst st5. clear Hrun.
      apply (for_lt_jump_ind
               (fun b s => leaves_inv x y c pi_y primes lpf mu seg l h st3 b s)
               (fun b s => leaves_inv x y c pi_y primes lpf mu seg l h st3 b s
                           /\ stops x y primes b l = true
                           /\ b0 <= b < Z.min pi_y size)) in H3.
      * destruct j3.
        -- destruct H3 as (HI3 & Hs & Hb).
           exists b3. split; [exact HI3|]. split; [lia | left; exact Hs].
        -- destruct H3 as (HI3 & Hb3).
           exists b3. split; [exact HI3|]. split; [lia | right; lia].
      * exact HI.
      * intros i s s' Hi HP Hbody.
        apply (from_body x y c pi_y primes lpf mu x_nonneg y_pos primes_def
                 pi_y_def seg L l h ltac:(lia) ltac:(lia) Hh st3 Hnext Hln Hlp Hlm
                 i s s' false); [lia | lia | exact HP | exact Hbody].
      * intros i s s' Hi HP Hbody.
        pose proof (from_body x y c pi_y primes lpf mu x_nonneg y_pos primes_def
                      pi_y_def seg L l h ltac:(lia) ltac:(lia) Hh st3 Hnext Hln
                      Hlp Hlm i s s' true ltac:(lia) ltac:(lia) HP Hbody) as [-> Hs].
        split; [exact HP|]. split; [exact Hs | lia].
  - exact Hinv.
  - intros i s s' Hi HP Hbody.
    apply (below_body x y c pi_y primes lpf mu x_nonneg y_pos primes_def
             pi_y_def seg L l h ltac:(lia) ltac:(lia) Hh st3 Hnext Hln Hlp Hlm
             i s s' false); [lia | exact HP | exact Hbody].
  - intros i s s' Hi HP Hbody.
    pose proof (below_body x y c pi_y primes lpf mu x_nonneg y_pos primes_def
                  pi_y_def seg L l h ltac:(lia) ltac:(lia) Hh st3 Hnext Hln
                  Hlp Hlm i s s' true ltac:(lia) HP Hbody) as [-> Hs].
    split; [exact HP|]. split; [exact Hs | lia].
Qed.

End segments.

(** ** A thread *)

Section threads.

Variables (x y c pi_y : Z) (primes lpf mu : list Z).

Hypothesis x_nonneg : 0 <= x.
Hypothesis y_pos : 1 <= y.
Hypothesis primes_def : primes = generate_primes y [0].
Hypothesis pi_y_def : pi_y = Z.of_nat (length primes) - 1.
Hypothesis lpf_le : forall m, 2 <= m <= y -> lpf@m <= m.

Variables (seg L R : Z).

Hypothesis L_pos : 1 <= L.
Hypothesis seg_pos : 0 < seg.
Hypothesis c_small : c < thread_size x y L - 1.

(** One segment takes the thread from [l] to [l + seg]. *)
Lemma segment_step (l : Z) (st st' : Lmo.thread_state) :
  L <= l < R ->
  thread_inv x y c pi_y primes lpf mu seg L R l st ->
  Lmo.segment x y c (pi_sqrty y primes) pi_y seg (make_pi y) primes lpf mu
    (thread_size x y L) R l st = Some st' ->
  thread_inv x y c pi_y primes lpf mu seg L R (l + seg) st'.
Proof.
  intros Hl Hinv Hrun.
  pose proof (first_leaf_index_ge c) as Hfl.
  pose proof (thread_size_le x y pi_y primes y_pos primes_def pi_y_def L L_pos) as Hts.
  unfold thread_inv in Hinv. cbv zeta in Hinv.
  replace (Z.min l R) with l in Hinv by lia.
  destruct Hinv as (Twf & Tsz & Tcnt & Tn & Tp & Tm & TS & Tmu & Tphi & Tnext).
  unfold Lmo.segment in Hrun. cbv zeta in Hrun.
  set (h := Z.min (l + seg) R) in *.
  set (size := thread_size x y L) in *.
  set (b0 := first_leaf_index c) in *.
  assert (Hh : l < h /\ h <= l + seg) by (unfold h; lia).
  destruct (for_lt_jump 2 (c + 1) (Lmo.sieve_out primes l h)
              (Lmo.mk_thread (BitSieve.memset (Lmo.sieve st) l) (Lmo.counters st)
                 (Lmo.next st) (Lmo.phi st) (Lmo.mu_sum st) (Lmo.S2_sum st)))
    as [[[b1 st2] j1]|] eqn:H1; [|discriminate].
  cbn [mbind option_bind] in Hrun.
  destruct (sieve_out_loop x y c pi_y primes y_pos primes_def pi_y_def seg L
              L_pos c_small l h st b1 st2 j1 ltac:(lia) ltac:(lia) Twf Tsz)
    as (Hb1 & Swf & Ssz & Sbits & Sc & Sphi & Smu & SS & Slen & Ssame & Sdone);
    [| exact Tn | exact H1 |].
  { intros b Hb. apply Tnext; [fold size; lia | left; fold b0; lia]. }
  fold b0 in Hb1. subst b1.
  assert (Hanti : forall b, reached x y c pi_y primes size b l ->
                    forall u, L <= u < l -> reached x y c pi_y primes size b u).
  { intros b Hr u Hu.
    apply (reached_anti x y c pi_y primes x_nonneg primes_def pi_y_def
             size b u l); [lia | exact Hr]. }
  apply (leaves_loops x y c pi_y primes lpf mu x_nonneg y_pos primes_def
           pi_y_def seg L L_pos l h) in Hrun; try lia.
  - destruct Hrun as (J & HJ & HJr & HJend). fold size b0 in HJr, HJend.
    destruct HJ as (Istep & Ibits & Iln & Ilp & Ilm & Isame & Idone & Isum).
    simpl in Iln, Ilp, Ilm, Isame, Idone, Isum.
    destruct Istep as (Iwf & Isz & Iagree). simpl in Iwf, Isz, Iagree.
    fold b0 in Isame, Idone, Isum.
    assert (K1 : forall b, reached x y c pi_y primes size b l -> b0 <= b < J).
    { intros b (Hb & Hs). fold b0 in Hb, Hs. split; [lia|].
      destruct (Z_lt_le_dec b J) as [Hlt | Hge]; [exact Hlt|]. exfalso.
      destruct HJend as [Hstop | Hend]; [|lia].
      rewrite (Hs J ltac:(lia)) in Hstop. discriminate. }
    assert (K2 : forall b, b0 <= b < J -> reached x y c pi_y primes size b l).
    { intros b Hb. split; [fold b0; lia|]. fold b0. intros b' Hb'.
      apply (Idone b'). lia. }
    assert (K3 : forall b, 0 <= b -> reached x y c pi_y primes size b l ->
                   (Lmo.phi st)@b = survivors primes b L l).
    { intros b Hb0 Hr. apply Tphi; [exact Hb0|]. apply Hanti. exact Hr. }
    assert (K4 : forall b F, ~ reached x y c pi_y primes size b l ->
                   leaf_sum x y c pi_y primes lpf mu b l h F = 0).
    { intros b F Hn.
      apply (leaf_sum_not_reached x y c pi_y primes lpf mu x_nonneg y_pos
               primes_def pi_y_def lpf_le b L l h F); [lia | exact Hn]. }
    unfold thread_inv. cbv zeta. fold h size b0.
    split; [exact Iwf|]. split; [exact Isz|].
    split; [destruct Iagree as [Hlen _]; rewrite Hlen; exact Isz|].
    split; [rewrite Iln, Slen; exact Tn|].
    split; [rewrite Ilp, Sphi; exact Tp|].
    split; [rewrite Ilm, Smu; exact Tm|].
    split.
    { rewrite Isum, SS, TS.
      rewrite (S2_between_split x y c pi_y primes lpf mu L L l h) by lia.
      f_equal. unfold S2_between. fold b0.
      destruct (Z_le_gt_dec pi_y b0) as [Hempty | Hne].
      - assert (J = b0) by lia. subst J.
        rewrite (zrange_nil b0 b0) by lia. rewrite (zrange_nil b0 pi_y) by lia.
        reflexivity.
      - rewrite (zsum_trim _ b0 pi_y b0 J); [| lia | lia |].
        + apply zsum_map_ext. intros b Hin. apply in_zrange in Hin.
          rewrite Sphi. unfold leaf_counts. apply leaf_sum_ext.
          intros pos Hpos. rewrite (K3 b ltac:(lia) (K2 b Hin)).
          rewrite (survivors_split primes b L l (pos + 1)) by lia. reflexivity.
        + intros b Hb Hout. unfold leaf_counts. apply K4.
          intros Hr. apply Hout. apply K1. exact Hr. }
    split.
    { intros b Hb.
      rewrite (leaf_number_split x y c pi_y primes lpf mu b L l h) by lia.
      destruct (Z_lt_le_dec b b0) as [Hlow | Hhigh];
        [|destruct (Z_lt_le_dec b J) as [Hin | Hout]].
      - destruct (Isame b Hb ltac:(lia)) as (_ & _ & Hm).
        rewrite Hm, Smu, (Tmu b Hb).
        assert (H0 : leaf_number x y c pi_y primes lpf mu b l h = 0).
        { unfold leaf_number. apply K4. intros Hr. apply K1 in Hr. lia. }
        lia.
      - destruct (Idone b ltac:(lia)) as (_ & _ & Hm & _).
        rewrite Hm, Smu, (Tmu b Hb). reflexivity.
      - destruct (Isame b Hb ltac:(lia)) as (_ & _ & Hm).
        rewrite Hm, Smu, (Tmu b Hb).
        assert (H0 : leaf_number x y c pi_y primes lpf mu b l h = 0).
        { unfold leaf_number. apply K4. intros Hr. apply K1 in Hr. lia. }
        lia. }
    split.
    { intros b Hb Hall.
      assert (Hr : reached x y c pi_y primes size b l) by (apply Hall; lia).
      destruct (Idone b (K1 b Hr)) as (_ & Hp & _).
      rewrite Hp, Sphi, (K3 b Hb Hr).
      rewrite (survivors_split primes b L l h) by lia. reflexivity. }
    intros b Hb Hcase.
    destruct (Z_lt_le_dec b b0) as [Hlow | Hhigh].
    + destruct (Isame b ltac:(lia) ltac:(lia)) as (Hn & _).
      rewrite Hn. apply Sdone. lia.
    + destruct Hcase as [Hbad | Hall]; [lia|].
      assert (Hr : reached x y c pi_y primes size b l) by (apply Hall; lia).
      destruct (Idone b (K1 b Hr)) as (_ & _ & _ & Hn). exact Hn.
  - simpl. intros b Hr.
    assert (Hb : b0 <= b < Z.min pi_y size) by (destruct Hr as [Hb _]; exact Hb).
    rewrite (Ssame b ltac:(lia) ltac:(lia)).
    apply Tnext; [lia | right; apply Hanti; exact Hr].
  - simpl. rewrite Slen. exact Tn.
  - simpl. rewrite Sphi. exact Tp.
  - simpl. rewrite Smu. exact Tm.
  - unfold leaves_inv. simpl.
    split.
    { split; [exact Swf|]. split; [exact Ssz|]. simpl.
      rewrite <- Ssz. apply cnt_finit_agrees; [rewrite Ssz; lia|].
      rewrite Sc, Ssz. exact Tcnt. }
    split; [exact Sbits|].
    repeat (split; [reflexivity|]).
    split; [intros; auto|].
    split; [intros b' Hb'; lia|].
    fold b0. rewrite (zrange_nil b0 b0) by lia. simpl. lia.
Qed.

End threads.

Lemma vget_nil (b : Z) : []@b = 0.
Proof. unfold vget. destruct (Z.to_nat b); reflexivity. Qed.

Lemma vget_zeros (n : nat) (b : Z) : (resize n 0 [])@b = 0.
Proof.
  unfold vget. rewrite resize_nil.
  generalize (Z.to_nat b). induction n as [|n IH]; intros [|i]; simpl; auto.
Qed.

Section thread_results.

Variables (x y c pi_y : Z) (primes lpf mu : list Z).

Hypothesis x_nonneg : 0 <= x.
Hypothesis y_pos : 1 <= y.
Hypothesis primes_def : primes = generate_primes y [0].
Hypothesis pi_y_def : pi_y = Z.of_nat (length primes) - 1.
Hypothesis lpf_le : forall m, 2 <= m <= y -> lpf@m <= m.

(** A thread whose [size] does not reach past [c] has no leaf to find. *)
Lemma no_leaf_in_small_thread (b L u v : Z) (F : Z -> Z) :
  1 <= L <= u -> thread_size x y L - 1 <= c ->
  leaf_sum x y c pi_y primes lpf mu b u v F = 0.
Proof.
  intros HL Hc.
  apply (leaf_sum_not_reached x y c pi_y primes lpf mu x_nonneg y_pos
           primes_def pi_y_def lpf_le b L u v F HL).
  intros (Hb & _). pose proof (first_leaf_index_ge c). lia.
Qed.

(** The state a thread starts its segments from. *)
Lemma thread_start (seg L R : Z) :
  1 <= L -> 0 < seg -> L < R ->
  thread_inv x y c pi_y primes lpf mu seg L R L
    (Lmo.mk_thread (BitSieve.make seg) (repeat 0 (Z.to_nat seg))
       (Lmo.init_next_multiples primes (thread_size x y L) L)
       (resize (Z.to_nat (thread_size x y L)) 0 [])
       (resize (Z.to_nat (thread_size x y L)) 0 []) 0).
Proof.
  intros HL Hseg HR.
  pose proof (thread_size_le x y pi_y primes y_pos primes_def pi_y_def L HL) as Hts.
  unfold thread_inv. cbv zeta. simpl.
  replace (Z.min L R) with L by lia.
  split; [apply make_wf; lia|]. split; [reflexivity|].
  split; [rewrite repeat_length; lia|].
  split; [apply init_next_multiples_length; lia|].
  rewrite !length_resize.
  split; [lia|]. split; [lia|].
  split; [symmetry; apply S2_between_empty; lia|].
  split.
  { intros b _. rewrite vget_zeros. symmetry. unfold leaf_number.
    apply leaf_sum_empty. lia. }
  split.
  { intros b _ _. rewrite vget_zeros. symmetry. apply survivors_empty. lia. }
  intros b Hb _. rewrite init_next_multiples_nth by lia.
  destruct (primes_odd y pi_y primes primes_def pi_y_def b ltac:(lia)) as (Hp & Hodd).
  apply init_next_multiple_first; [lia | exact Hodd | exact HL].
Qed.

(** What [S2_thread] hands back for the numbers of [L, R). *)
Lemma S2_thread_result (seg spt t low limit : Z) (r : Z * list Z * list Z) :
  1 <= low -> 0 < seg -> 0 <= spt -> 0 <= t ->
  Lmo.S2_thread x y c (pi_sqrty y primes) pi_y seg (make_pi y) primes lpf mu
    spt t low limit [] [] = Some r ->
  thread_result x y c pi_y primes lpf mu (low + seg * spt * t)
    (Z.min (low + seg * spt * t + seg * spt) limit) r.
Proof.
  intros Hlow Hseg Hspt Ht Hrun.
  unfold Lmo.S2_thread in Hrun. cbv zeta in Hrun.
  set (L := low + seg * spt * t) in *.
  set (R := Z.min (L + seg * spt) limit) in *.
  fold (thread_size x y L) in Hrun.
  assert (HL : 1 <= L) by (unfold L; nia).
  pose proof (thread_size_le x y pi_y primes y_pos primes_def pi_y_def L HL) as Hts.
  pose proof (first_leaf_index_ge c) as Hfl.
  unfold thread_result.
  destruct (Z.geb_spec c (thread_size x y L - 1)) as [Hsmall | Hbig].
  - inversion Hrun; subst r. simpl.
    split.
    { symmetry. unfold S2_between. apply zsum_map_zero. intros b _.
      unfold leaf_counts. apply (no_leaf_in_small_thread b L L R); lia. }
    split.
    { intros b _. rewrite vget_nil. symmetry. unfold leaf_number.
      apply (no_leaf_in_small_thread b L L R); lia. }
    split; [reflexivity|].
    intros b _ Hall. rewrite vget_nil. symmetry.
    destruct (Z_le_gt_dec R L) as [Hempty | Hne]; [apply survivors_empty; lia|].
    exfalso. destruct (Hall L ltac:(lia)) as (Hb & _). lia.
  - destruct (Z_le_gt_dec R L) as [Hempty | Hne].
    + unfold for_stride in Hrun.
      replace (R <=? L) with true in Hrun by (symmetry; apply Z.leb_le; lia).
      cbn [mbind option_bind] in Hrun. inversion Hrun; subst r. simpl.
      split; [symmetry; apply S2_between_empty; lia|].
      split.
      { intros b _. rewrite vget_zeros. symmetry. unfold leaf_number.
        apply leaf_sum_empty. lia. }
      split; [rewrite length_resize; lia|].
      intros b _ _. rewrite vget_zeros. symmetry. apply survivors_empty. lia.
    + match type of Hrun with
      | context [for_stride ?a ?b ?s ?f ?i] =>
          destruct (for_stride a b s f i) as [[k' ost]|] eqn:Hloop; [|discriminate]
      end.
      cbn [mbind option_bind] in Hrun.
      destruct ost as [st|]; [|discriminate].
      cbn [mbind option_bind] in Hrun. inversion Hrun; subst r. clear Hrun. simpl.
      apply (for_stride_ind
               (fun k ost => forall st, ost = Some st ->
                  thread_inv x y c pi_y primes lpf mu seg L R k st)) in Hloop.
      * destruct Hloop as (HP & Hexit & _).
        specialize (HP st eq_refl). unfold thread_inv in HP. cbv zeta in HP.
        replace (Z.min k' R) with R in HP by lia.
        destruct HP as (_ & _ & _ & _ & Tp & _ & TS & Tmu & Tphi & _).
        split; [exact TS|]. split; [exact Tmu|]. split; [exact Tp|]. exact Tphi.
      * intros st0 Hst0. inversion Hst0; subst st0.
        apply thread_start; lia.
      * intros k ost0 Hk _ HP st' Hst'.
        destruct ost0 as [st0|]; [|discriminate].
        cbn [mbind option_bind] in Hst'.
        apply (segment_step x y c pi_y primes lpf mu x_nonneg y_pos primes_def
                 pi_y_def lpf_le seg L R HL Hseg ltac:(lia) k st0 st');
          [lia | apply HP; reflexivity | exact Hst'].
Qed.

End thread_results.

(** ** The threads of a wave, put together *)

(** The inner loop of the reconstruction, for one thread. *)
Lemma reconstruct_loop (mu_i phi_i : list Z) (k : nat) (S : Z) (P : list Z) :
  1 + Z.of_nat k <= Z.of_nat (length P) ->
  let r :=
    for_up k 1
      (fun j '(S2_total, phi_total) =>
         (S2_total + phi_total@j * mu_i@j,
          vset phi_total j (phi_total@j + phi_i@j)))
      (S, P) in
  r.1 = S + zsum (map (fun j => P@j * mu_i@j) (zrange 1 (1 + Z.of_nat k)))
  /\ length r.2 = length P
  /\ forall j, 0 <= j ->
       r.2@j = if (1 <=? j) && (j <? 1 + Z.of_nat k) then P@j + phi_i@j else P@j.
Proof.
  intros Hlen. cbv zeta.
  apply (for_up_ind
           (fun i (a : Z * list Z) =>
              a.1 = S + zsum (map (fun j => P@j * mu_i@j) (zrange 1 i))
              /\ length a.2 = length P
              /\ forall j, 0 <= j ->
                   a.2@j = if (1 <=? j) && (j <? i) then P@j + phi_i@j else P@j)).
  - change (zrange 1 1) with (@nil Z). simpl. split; [lia|]. split; [reflexivity|].
    intros j Hj. destruct (Z.leb_spec 1 j), (Z.ltb_spec j 1); simpl; try reflexivity; lia.
  - intros i [Sa Pa] Hi (H1 & H2 & H3). simpl in *.
    assert (Hi' : Pa@i = P@i).
    { rewrite H3 by lia.
      replace (i <? i) with false by (symmetry; apply Z.ltb_ge; lia).
      rewrite andb_false_r. reflexivity. }
    split.
    { rewrite (zrange_snoc 1 i) by lia. rewrite map_app, zsum_app. simpl.
      rewrite H1, Hi'. lia. }
    split; [rewrite vset_length; exact H2|].
    intros j Hj. destruct (Z.eq_dec j i) as [-> | Hne].
    + rewrite vget_vset_eq by lia. rewrite Hi'.
      replace (1 <=? i) with true by (symmetry; apply Z.leb_le; lia).
      replace (i <? i + 1) with true by (symmetry; apply Z.ltb_lt; lia).
      reflexivity.
    + rewrite vget_vset_ne by lia. rewrite H3 by exact Hj.
      destruct (Z.leb_spec 1 j); simpl; [|reflexivity].
      destruct (Z.ltb_spec j i), (Z.ltb_spec j (i + 1)); try reflexivity; lia.
Qed.

(** What is added to the sum does not depend on the sum. *)
Lemma reconstruct_loop_shift (mu_i phi_i : list Z) (k : nat) (i S a : Z) (P : list Z) :
  for_up k i
    (fun j '(S2_total, phi_total) =>
       (S2_total + phi_total@j * mu_i@j,
        vset phi_total j (phi_total@j + phi_i@j)))
    (S + a, P)
  = ((for_up k i
        (fun j '(S2_total, phi_total) =>
           (S2_total + phi_total@j * mu_i@j,
            vset phi_total j (phi_total@j + phi_i@j)))
        (S, P)).1 + a,
     (for_up k i
        (fun j '(S2_total, phi_total) =>
           (S2_total + phi_total@j * mu_i@j,
            vset phi_total j (phi_total@j + phi_i@j)))
        (S, P)).2).
Proof.
  revert i S P; induction k as [|k IH]; intros i S P; simpl; [reflexivity|].
  replace (S + a + P@i * mu_i@i) with (S + P@i * mu_i@i + a) by lia.
  apply IH.
Qed.

Lemma reconstruct_fold_shift (results : list (Z * list Z * list Z)) (S a : Z)
    (P : list Z) :
  fold_left
    (fun '(S2_total, phi_total) '(_, mu_sum_i, phi_i) =>
       for_range 1 (Z.of_nat (length phi_i))
         (fun j '(S2_total, phi_total) =>
            (S2_total + phi_total@j * mu_sum_i@j,
             vset phi_total j (phi_total@j + phi_i@j)))
         (S2_total, phi_total))
    results (S + a, P)
  = ((fold_left
        (fun '(S2_total, phi_total) '(_, mu_sum_i, phi_i) =>
           for_range 1 (Z.of_nat (length phi_i))
             (fun j '(S2_total, phi_total) =>
                (S2_total + phi_total@j * mu_sum_i@j,
                 vset phi_total j (phi_total@j + phi_i@j)))
             (S2_total, phi_total))
        results (S, P)).1 + a,
     (fold_left
        (fun '(S2_total, phi_total) '(_, mu_sum_i, phi_i) =>
           for_range 1 (Z.of_nat (length phi_i))
             (fun j '(S2_total, phi_total) =>
                (S2_total + phi_total@j * mu_sum_i@j,
                 vset phi_total j (phi_total@j + phi_i@j)))
             (S2_total, phi_total))
        results (S, P)).2).
Proof.
  set (f := fun '(S2_total, phi_total) '(_, mu_sum_i, phi_i) =>
              for_range 1 (Z.of_nat (length phi_i))
                (fun j '(S2_total, phi_total) =>
                   (S2_total + phi_total@j * mu_sum_i@j,
                    vset phi_total j (phi_total@j + phi_i@j)))
                (S2_total, phi_total)).
  revert S P; induction results as [|r0 rest IH]; intros S P; [reflexivity|].
  cbn [fold_left].
  assert (Hf : f (S + a, P) r0 = ((f (S, P) r0).1 + a, (f (S, P) r0).2)).
  { destruct r0 as [[s mu_i] phi_i]. unfold f, for_range.
    apply reconstruct_loop_shift. }
  rewrite Hf. destruct (f (S, P) r0) as [S1 P1]. cbn [fst snd]. apply IH.
Qed.

Section waves.

Variables (x y c pi_y : Z) (primes lpf mu : list Z).

Hypothesis x_nonneg : 0 <= x.
Hypothesis y_pos : 1 <= y.
Hypothesis primes_def : primes = generate_primes y [0].
Hypothesis pi_y_def : pi_y = Z.of_nat (length primes) - 1.
Hypothesis lpf_le : forall m, 2 <= m <= y -> lpf@m <= m.

Variable limit : Z.

(** The leaves counted from 1 are the leaves counted from [L] and, per
    prime index, as many times the survivors below [L] as it has leaves. *)
Lemma S2_between_from (L R : Z) :
  1 <= L ->
  S2_between x y c pi_y primes lpf mu 1 L R
  = S2_between x y c pi_y primes lpf mu L L R
    + zsum (map (fun b => survivors primes b 1 L
                          * leaf_number x y c pi_y primes lpf mu b L R)
              (zrange (first_leaf_index c) pi_y)).
Proof.
  intros HL. unfold S2_between. rewrite <- zsum_map_add.
  apply zsum_map_ext. intros b _. apply leaf_counts_from; lia.
Qed.

(** The reconstruction for one thread: from the numbers below [L] to the
    numbers below [L + W]. *)
Lemma combine_thread (L W S : Z) (P : list Z) (r : Z * list Z * list Z) :
  1 <= L -> 1 <= W ->
  wave_inv x y c pi_y primes lpf mu (Z.min L limit) S P ->
  thread_result x y c pi_y primes lpf mu L (Z.min (L + W) limit) r ->
  let r' :=
    for_range 1 (Z.of_nat (length r.2))
      (fun j '(S2_total, phi_total) =>
         (S2_total + phi_total@j * (r.1.2)@j,
          vset phi_total j (phi_total@j + (r.2)@j)))
      (S, P) in
  wave_inv x y c pi_y primes lpf mu (Z.min (L + W) limit) (r'.1 + r.1.1) r'.2.
Proof.
  intros HL HW (IS & Ilen & IP) Hres. destruct r as [[s mu_i] phi_i].
  destruct Hres as (Rs & Rmu & Rlen & Rphi). simpl in Rs, Rmu, Rlen, Rphi.
  cbv zeta. cbn [fst snd].
  pose proof (thread_size_le x y pi_y primes y_pos primes_def pi_y_def L HL) as Hts.
  pose proof (first_leaf_index_ge c) as Hfl.
  set (n := Z.of_nat (length phi_i)) in *.
  set (size := thread_size x y L) in *.
  assert (Hn : n = 0 /\ size - 1 <= c \/ n = size /\ c < size - 1).
  { destruct (Z.geb_spec c (size - 1)); [left | right]; lia. }
  unfold for_range.
  destruct (reconstruct_loop mu_i phi_i (Z.to_nat (n - 1)) S P ltac:(lia))
    as (H1 & H2 & H3).
  match goal with
  | |- wave_inv _ _ _ _ _ _ _ _ (?r.1 + _) _ => set (r' := r) in *
  end.
  assert (H3' : forall j, 0 <= j ->
            r'.2@j = if (1 <=? j) && (j <? n) then P@j + phi_i@j else P@j).
  { intros j Hj. rewrite H3 by exact Hj.
    destruct (Z.leb_spec 1 j); simpl; [|reflexivity].
    destruct (Z.ltb_spec j (1 + Z.of_nat (Z.to_nat (n - 1)))), (Z.ltb_spec j n);
      try reflexivity; lia. }
  assert (H1' : r'.1 = S + zsum (map (fun j => P@j * mu_i@j) (zrange 1 n))).
  { rewrite H1. f_equal.
    destruct (Z_le_gt_dec 1 n) as [Hge | Hlt].
    - replace (1 + Z.of_nat (Z.to_nat (n - 1))) with n by lia. reflexivity.
    - rewrite (zrange_nil 1 n) by lia. rewrite zrange_nil by lia. reflexivity. }
  clear H1 H3.
  destruct (Z_lt_le_dec L limit) as [Hin | Hout].
  - replace (Z.min L limit) with L in * by lia.
    set (R := Z.min (L + W) limit) in *.
    assert (HR : L < R) by (unfold R; lia).
    assert (Hsupport : forall j, ~ (first_leaf_index c <= j < Z.min pi_y n) ->
              leaf_number x y c pi_y primes lpf mu j L R = 0).
    { intros j Hj. unfold leaf_number.
      apply (leaf_sum_not_reached x y c pi_y primes lpf mu x_nonneg y_pos
               primes_def pi_y_def lpf_le j L L R); [lia|].
      intros (Hb & _). fold size in Hb. lia. }
    assert (Hterm : forall j, 0 <= j ->
              P@j * mu_i@j
              = survivors primes j 1 L * leaf_number x y c pi_y primes lpf mu j L R).
    { intros j Hj. rewrite (Rmu j Hj). unfold leaf_number.
      destruct (leaf_sum_cases x y c pi_y primes lpf mu j L R)
        as [H0 | (k & Hk & Hleaf & Hpos)].
      - rewrite H0. lia.
      - rewrite (IP j Hj); [reflexivity|].
        intros u Hu.
        apply (leaf_reached x y c pi_y primes lpf mu x_nonneg y_pos primes_def
                 pi_y_def lpf_le j u u k); [lia | exact Hk | exact Hleaf | lia]. }
    split.
    { rewrite H1', IS, Rs.
      rewrite (S2_between_split x y c pi_y primes lpf mu 1 1 L R) by lia.
      rewrite (S2_between_from L R HL).
      assert (Hsum : zsum (map (fun j => P@j * mu_i@j) (zrange 1 n))
                     = zsum (map (fun b => survivors primes b 1 L
                                           * leaf_number x y c pi_y primes lpf mu b L R)
                               (zrange (first_leaf_index c) pi_y))).
      { rewrite (zsum_map_ext (fun j => P@j * mu_i@j)
                   (fun b => survivors primes b 1 L
                             * leaf_number x y c pi_y primes lpf mu b L R)).
        - rewrite (zsum_trim _ 1 n (first_leaf_index c) (Z.min pi_y n));
            [| lia | lia |].
          + symmetry. apply zsum_trim; [lia | lia |].
            intros j Hj Hout. rewrite Hsupport by lia. lia.
          + intros j Hj Hout. rewrite Hsupport by lia. lia.
        - intros j Hj. apply in_zrange in Hj. apply Hterm. lia. }
      rewrite Hsum. lia. }
    split; [rewrite H2; exact Ilen|].
    intros b Hb Hall.
    destruct (Hall L ltac:(lia)) as (HbL & HsL). fold size in HbL.
    assert (Hnn : n = size) by lia.
    rewrite (H3' b Hb).
    replace (1 <=? b) with true by (symmetry; apply Z.leb_le; lia).
    replace (b <? n) with true by (symmetry; apply Z.ltb_lt; lia).
    simpl. rewrite (IP b Hb) by (intros u Hu; apply Hall; lia).
    rewrite (Rphi b Hb).
    + rewrite (survivors_split primes b 1 L R) by lia. reflexivity.
    + intros u Hu. destruct (Hall u ltac:(lia)) as (Hbu & Hsu).
      split; [exact HbL | exact Hsu].
  - replace (Z.min L limit) with limit in * by lia.
    replace (Z.min (L + W) limit) with limit in * by lia.
    assert (Hs0 : s = 0) by (rewrite Rs; apply S2_between_empty; lia).
    assert (Hmu0 : forall j, 0 <= j -> mu_i@j = 0).
    { intros j Hj. rewrite (Rmu j Hj). unfold leaf_number. apply leaf_sum_empty. lia. }
    assert (Hphi0 : forall j, 0 <= j -> phi_i@j = 0).
    { intros j Hj. rewrite (Rphi j Hj); [apply survivors_empty; lia|].
      intros u Hu. lia. }
    split.
    { rewrite H1', Hs0, IS. rewrite zsum_map_zero; [lia|].
      intros j Hj. apply in_zrange in Hj. rewrite Hmu0 by lia. lia. }
    split; [rewrite H2; exact Ilen|].
    intros b Hb Hall. rewrite (H3' b Hb), (Hphi0 b Hb), (IP b Hb Hall).
    destruct ((1 <=? b) && (b <? n)); lia.
Qed.

End waves.

(** ** The waves *)

Lemma adapt_totals (sqrt_limit : Z) (secs : Q) (st : Lmo.wave_state) :
  Lmo.S2_total (Lmo.adapt sqrt_limit secs st) = Lmo.S2_total st
  /\ Lmo.phi_total (Lmo.adapt sqrt_limit secs st) = Lmo.phi_total st.
Proof.
  unfold Lmo.adapt. cbv zeta.
  destruct ((_ >? _) && _); [destruct (_ <? _)|]; split; reflexivity.
Qed.

Lemma reconstruct_totals (results : list (Z * list Z * list Z))
    (st : Lmo.wave_state) :
  (Lmo.S2_total (Lmo.reconstruct results st),
   Lmo.phi_total (Lmo.reconstruct results st))
  = fold_left
      (fun '(S2_total, phi_total) '(_, mu_sum_i, phi_i) =>
         for_range 1 (Z.of_nat (length phi_i))
           (fun j '(S2_total, phi_total) =>
              (S2_total + phi_total@j * mu_sum_i@j,
               vset phi_total j (phi_total@j + phi_i@j)))
           (S2_total, phi_total))
      results (Lmo.S2_total st, Lmo.phi_total st).
Proof.
  unfold Lmo.reconstruct.
  destruct (fold_left _ results (Lmo.S2_total st, Lmo.phi_total st)) as [S P].
  reflexivity.
Qed.

Section wave_sums.

Variables (x y c pi_y : Z) (primes lpf mu : list Z).

Hypothesis x_nonneg : 0 <= x.
Hypothesis y_pos : 1 <= y.
Hypothesis primes_def : primes = generate_primes y [0].
Hypothesis pi_y_def : pi_y = Z.of_nat (length primes) - 1.
Hypothesis lpf_le : forall m, 2 <= m <= y -> lpf@m <= m.

(** The reconstruction over the threads [t0, t0 + n) of a wave. *)
Lemma combine_threads (limit seg spt low : Z) (n : nat) (t0 : Z)
    (results : list (Z * list Z * list Z)) (S : Z) (P : list Z) :
  1 <= low -> 0 <= t0 -> 0 < seg -> 1 <= spt ->
  Forall2
    (fun t r =>
       Lmo.S2_thread x y c (pi_sqrty y primes) pi_y seg (make_pi y) primes lpf mu
         spt t low limit [] [] = Some r)
    (zrange t0 (t0 + Z.of_nat n)) results ->
  wave_inv x y c pi_y primes lpf mu (Z.min (low + seg * spt * t0) limit) S P ->
  let r :=
    fold_left
      (fun '(S2_total, phi_total) '(_, mu_sum_i, phi_i) =>
         for_range 1 (Z.of_nat (length phi_i))
           (fun j '(S2_total, phi_total) =>
              (S2_total + phi_total@j * mu_sum_i@j,
               vset phi_total j (phi_total@j + phi_i@j)))
           (S2_total, phi_total))
      results (S, P) in
  wave_inv x y c pi_y primes lpf mu
    (Z.min (low + seg * spt * (t0 + Z.of_nat n)) limit)
    (r.1 + zsum (map (fun r => r.1.1) results)) r.2.
Proof.
  intros Hlow Ht0 Hseg Hspt. cbv zeta.
  revert t0 results S P Ht0; induction n as [|n IH]; intros t0 results S P Ht0 HF Hinv.
  - rewrite zrange_nil in HF by lia. apply Forall2_nil_inv_l in HF. subst results.
    simpl. replace (t0 + Z.of_nat 0) with t0 by lia. replace (S + 0) with S by lia. exact Hinv.
  - rewrite zrange_cons in HF by lia.
    apply Forall2_cons_inv_l in HF. destruct HF as (r0 & rest & Hr0 & Hrest & ->).
    replace (t0 + Z.of_nat (Datatypes.S n)) with (t0 + 1 + Z.of_nat n) in * by lia.
    pose proof (S2_thread_result x y c pi_y primes lpf mu x_nonneg y_pos primes_def
                  pi_y_def lpf_le seg spt t0 low limit r0 Hlow Hseg ltac:(lia) Ht0
                  Hr0) as Hres.
    pose proof (combine_thread x y c pi_y primes lpf mu x_nonneg y_pos primes_def
                  pi_y_def lpf_le limit (low + seg * spt * t0) (seg * spt) S P r0
                  ltac:(nia) ltac:(nia) Hinv Hres) as Hstep.
    cbv zeta in Hstep.
    replace (low + seg * spt * t0 + seg * spt)
      with (low + seg * spt * (t0 + 1)) in Hstep by lia.
    cbn [fold_left map zsum fold_right].
    destruct r0 as [[s mu_i] phi_i]. cbn [fst snd] in *.
    destruct (for_range 1 (Z.of_nat (length phi_i))
                (fun j '(S2_total, phi_total) =>
                   (S2_total + phi_total@j * mu_i@j,
                    vset phi_total j (phi_total@j + phi_i@j)))
                (S, P)) as [S1 P1] eqn:Hfr.
    cbn [fst snd] in Hstep.
    specialize (IH (t0 + 1) rest (S1 + s) P1 ltac:(lia) Hrest Hstep).
    rewrite reconstruct_fold_shift in IH. cbn [fst snd] in IH.
    match goal with
    | |- wave_inv _ _ _ _ _ _ _ _ ?a _ =>
        match type of IH with
        | wave_inv _ _ _ _ _ _ _ _ ?b _ => replace a with b by (unfold zsum; lia)
        end
    end.
    exact IH.
Qed.

(** A wave takes the sums from the numbers below [low] to the numbers below
    the next [low]. *)
Lemma S2_wave_inv (limit sqrt_limit : Z) (secs : Q) (st st' : Lmo.wave_state) :
  0 < Lmo.segment_size st -> 1 <= Lmo.low st -> Lmo.low st < limit ->
  wave_inv x y c pi_y primes lpf mu (Z.min (Lmo.low st) limit)
    (Lmo.S2_total st) (Lmo.phi_total st) ->
  Lmo.S2_wave x y pi_y c primes lpf mu limit sqrt_limit (pi_sqrty y primes)
    (make_pi y) secs st = Some st' ->
  wave_inv x y c pi_y primes lpf mu (Z.min (Lmo.low st') limit)
    (Lmo.S2_total st') (Lmo.phi_total st').
Proof.
  intros Hseg Hlow Hlim Hinv Hrun.
  unfold Lmo.S2_wave in Hrun. cbv zeta in Hrun.
  set (sch := Lmo.schedule limit st) in *.
  change (Lmo.segment_size sch) with (Lmo.segment_size st) in Hrun.
  change (Lmo.low sch) with (Lmo.low st) in Hrun.
  change (Lmo.S2_total sch) with (Lmo.S2_total st) in Hrun.
  change (Lmo.phi_total sch) with (Lmo.phi_total st) in Hrun.
  set (segments := (limit - Lmo.low st + Lmo.segment_size st - 1) ÷ Lmo.segment_size st).
  assert (Hsegs : 1 <= segments).
  { unfold segments. rewrite Z.quot_div_nonneg by lia.
    apply Z.div_le_lower_bound; lia. }
  assert (Hth : 1 <= Lmo.threads sch).
  { apply in_between_lower. exact Hsegs. }
  assert (Hspt : 1 <= Lmo.segments_per_thread sch).
  { apply in_between_lower. fold segments.
    change (in_between 1 (Lmo.threads st) segments) with (Lmo.threads sch).
    rewrite Z.quot_div_nonneg by lia. apply Z.div_le_lower_bound; lia. }
  match type of Hrun with
  | context [mapM ?f ?l] => destruct (mapM f l) as [results|] eqn:Hmap; [|discriminate]
  end.
  cbn [mbind option_bind] in Hrun. inversion Hrun as [Hst']. clear Hrun.
  apply mapM_Some in Hmap.
  pose proof (combine_threads limit (Lmo.segment_size st)
                (Lmo.segments_per_thread sch) (Lmo.low st)
                (Z.to_nat (Lmo.threads sch)) 0 results (Lmo.S2_total st)
                (Lmo.phi_total st) Hlow ltac:(lia) Hseg Hspt) as Hall.
  replace (0 + Z.of_nat (Z.to_nat (Lmo.threads sch))) with (Lmo.threads sch)
    in Hall by lia.
  specialize (Hall Hmap).
  replace (Lmo.low st + Lmo.segment_size st * Lmo.segments_per_thread sch * 0)
    with (Lmo.low st) in Hall by lia.
  specialize (Hall Hinv). cbv zeta in Hall.
  match goal with
  | |- context [Lmo.reconstruct results (Lmo.adapt sqrt_limit secs ?s)] =>
      set (st1 := s) in *
  end.
  pose proof (reconstruct_totals results (Lmo.adapt sqrt_limit secs st1)) as Htot.
  destruct (reconstruct_keeps results (Lmo.adapt sqrt_limit secs st1)) as (Hl & _).
  destruct (adapt_totals sqrt_limit secs st1) as (HA1 & HA2).
  rewrite HA1, HA2 in Htot.
  change (Lmo.S2_total st1)
    with (Lmo.S2_total st + zsum (map (fun r => r.1.1) results)) in Htot.
  change (Lmo.phi_total st1) with (Lmo.phi_total st) in Htot.
  rewrite reconstruct_fold_shift in Htot.
  apply pair_equal_spec in Htot. destruct Htot as [HS HP].
  subst st'. rewrite HS, HP, Hl, adapt_low.
  change (Lmo.low st1) with (Lmo.low st).
  change (Lmo.segments_per_thread st1) with (Lmo.segments_per_thread sch).
  change (Lmo.threads st1) with (Lmo.threads sch).
  change (Lmo.segment_size st1) with (Lmo.segment_size st).
  replace (Lmo.low st
           + Lmo.segments_per_thread sch * Lmo.threads sch * Lmo.segment_size st)
    with (Lmo.low st
          + Lmo.segment_size st * Lmo.segments_per_thread sch * Lmo.threads sch)
    by lia.
  exact Hall.
Qed.

End wave_sums.

(** ** The result of S2 *)

Section S2_result.

Variable ilog : Z -> Z.
Variable max_threads : Z.
Variable seconds : nat -> Q.
Variables (x y c : Z) (lpf mu : list Z).

Hypothesis x_nonneg : 0 <= x.
Hypothesis y_pos : 1 <= y.
Hypothesis lpf_le : forall m, 2 <= m <= y -> lpf@m <= m.

Let primes := generate_primes y [0].
Let pi_y := Z.of_nat (length primes) - 1.
Let limit := x ÷ y + 1.

Lemma generated_primes_positive (b : Z) : 2 <= b <= prime_pi y -> 0 < primes@b.
Proof.
  intros Hb.
  pose proof (pi_y_prime_pi y pi_y primes eq_refl eq_refl) as Hpi.
  destruct (primes_nth y pi_y primes eq_refl eq_refl b ltac:(lia)) as (_ & H & _).
  lia.
Qed.

Lemma S2_loop_value (fuel wave : nat) (st : Lmo.wave_state) (v : Z) :
  64 <= Lmo.segment_size st -> 1 <= Lmo.low st ->
  wave_inv x y c pi_y primes lpf mu (Z.min (Lmo.low st) limit)
    (Lmo.S2_total st) (Lmo.phi_total st) ->
  Lmo.S2_loop seconds x y pi_y c primes lpf mu limit (isqrt limit)
    (pi_bsearch primes (isqrt y)) (make_pi y) fuel wave st = Some v ->
  v = S2_between x y c pi_y primes lpf mu 1 1 limit.
Proof.
  revert wave st; induction fuel as [|fuel IH]; intros wave st Hseg Hlow Hinv Hrun;
    [discriminate|].
  simpl in Hrun. destruct (Z.ltb_spec (Lmo.low st) limit) as [Hlt | Hge].
  - destruct (Lmo.S2_wave x y pi_y c primes lpf mu limit (isqrt limit)
                (pi_bsearch primes (isqrt y)) (make_pi y) (seconds wave) st)
      as [st1|] eqn:Hw; [|discriminate].
    cbn [mbind option_bind] in Hrun.
    destruct (S2_wave_total x y pi_y c primes lpf mu generated_primes_positive
                (seconds wave) st Hseg Hlt) as (st2 & Hw2 & Hadv & Hseg2).
    assert (Heq : Some st1 = Some st2).
    { transitivity (Lmo.S2_wave x y pi_y c primes lpf mu limit (isqrt limit)
                      (pi_bsearch primes (isqrt y)) (make_pi y) (seconds wave) st);
        [symmetry; exact Hw | exact Hw2]. }
    inversion Heq; subst st2.
    apply (IH (S wave) st1); [exact Hseg2 | lia | | exact Hrun].
    apply (S2_wave_inv x y c pi_y primes lpf mu x_nonneg y_pos eq_refl eq_refl
             lpf_le limit (isqrt limit) (seconds wave) st st1);
      [lia | exact Hlow | exact Hlt | exact Hinv | exact Hw].
  - inversion Hrun; subst v. destruct Hinv as (HS & _).
    replace (Z.min (Lmo.low st) limit) with limit in HS by lia. exact HS.
Qed.

(** [S2] returns the sum over all leaves, whatever the number of threads and
    whatever the clock says. *)
Lemma S2_is_S2_value (fuel : nat) (threads : Z) :
  (Z.to_nat (x ÷ y + 1) <= fuel)%nat ->
  Lmo.S2 ilog max_threads seconds fuel x y pi_y c primes lpf mu threads
  = Some (S2_value x y c pi_y primes lpf mu).
Proof.
  intros Hfuel.
  assert (Hq : 0 <= x ÷ y) by (apply quot_nonneg; lia).
  unfold Lmo.S2. cbv zeta. fold limit.
  assert (Hseg : 64 <= Lmo.segment_size (Lmo.S2_init ilog max_threads x y primes threads)).
  { rewrite init_segment_size. lia. }
  destruct (S2_loop_total seconds x y pi_y c primes lpf mu
              generated_primes_positive fuel 0
              (Lmo.S2_init ilog max_threads x y primes threads) Hseg) as [v Hv].
  { simpl Lmo.low. lia. }
  fold limit in Hv. rewrite Hv. f_equal.
  rewrite S2_value_between. fold limit.
  apply (S2_loop_value fuel 0 (Lmo.S2_init ilog max_threads x y primes threads) v
           Hseg); [simpl; lia | | exact Hv].
  change (Lmo.low (Lmo.S2_init ilog max_threads x y primes threads)) with 1.
  change (Lmo.S2_total (Lmo.S2_init ilog max_threads x y primes threads)) with 0.
  change (Lmo.phi_total (Lmo.S2_init ilog max_threads x y primes threads))
    with (repeat 0 (length primes)).
  replace (Z.min 1 limit) with 1 by (unfold limit; lia).
  split; [symmetry; apply S2_between_empty; lia|].
  split; [rewrite repeat_length; unfold pi_y; lia|].
  intros b _ _. rewrite survivors_empty by lia.
  unfold vget. apply nth_repeat.
Qed.

End S2_result.

(** * Further properties of the code *)

(** ** pi_lmo_parallel3.cpp *)



(** X2: [S2_thread], called with empty vectors as [S2] calls it, returns,
    and what it hands back for its numbers [L, R) is: the sum over the
    leaves in [L, R), each with the survivors from [L] on; in [mu_sum[b]]
    the signed number of leaves of [primes[b]] in [L, R); and in [phi[b]],
    for every prime index whose loop ran in all its segments, the survivors
    of [L, R).  The vectors stay empty when [c >= size - 1]. *)
Theorem S2_thread_result_for_its_interval (x y pi_y c : Z) (primes lpf mu : list Z)
    (segment_size segments_per_thread thread_num low limit : Z) :
  0 <= x -> 1 <= y ->
  primes = generate_primes y [0] ->
  pi_y = Z.of_nat (length primes) - 1 ->
  (forall m, 2 <= m <= y -> lpf@m <= m) ->
  1 <= low -> 0 < segment_size -> 0 <= segments_per_thread -> 0 <= thread_num ->
  exists r,
    Lmo.S2_thread x y c (pi_bsearch primes (isqrt y)) pi_y segment_size (make_pi y)
      primes lpf mu segments_per_thread thread_num low limit [] [] = Some r
    /\ thread_result x y c pi_y primes lpf mu
         (low + segment_size * segments_per_thread * thread_num)
         (Z.min (low + segment_size * segments_per_thread * thread_num
                 + segment_size * segments_per_thread) limit) r.
Proof.
  intros Hx Hy Hprimes Hpi Hlpf Hlow Hseg Hspt Ht.
  destruct (S2_thread_total x y c (pi_bsearch primes (isqrt y)) pi_y segment_size
              (make_pi y) primes lpf mu segments_per_thread thread_num low limit
              [] [] (prime_pi y + 1) Hseg) as [r Hr].
  - intros v. apply make_pi_bound.
  - intros b Hb. rewrite Hprimes. apply (generated_primes_positive 0). lia.
  - exists r. split; [exact Hr|].
    apply (S2_thread_result x y c pi_y primes lpf mu Hx Hy Hprimes Hpi Hlpf
             segment_size segments_per_thread thread_num low limit r);
      assumption.
Qed.

Lemma S2_thread_result_for_its_interval_witness :
  exists r,
    Lmo.S2_thread 1000 10 2 (pi_bsearch [0; 2; 3; 5; 7] (isqrt 10)) 4 64
      (make_pi 10) [0; 2; 3; 5; 7] [1; 2147483647; 2; 3; 2; 5; 2; 7; 2; 3; 2]
      [0; 1; -1; -1; 0; -1; 1; -1; 0; 0; 1] 1 0 1 101 [] [] = Some r
    /\ thread_result 1000 10 2 4 [0; 2; 3; 5; 7]
         [1; 2147483647; 2; 3; 2; 5; 2; 7; 2; 3; 2]
         [0; 1; -1; -1; 0; -1; 1; -1; 0; 0; 1]
         (1 + 64 * 1 * 0) (Z.min (1 + 64 * 1 * 0 + 64 * 1) 101) r.
Proof.
  apply (S2_thread_result_for_its_interval 1000 10 4 2 [0; 2; 3; 5; 7]
           [1; 2147483647; 2; 3; 2; 5; 2; 7; 2; 3; 2]
           [0; 1; -1; -1; 0; -1; 1; -1; 0; 0; 1] 64 1 0 1 101);
    try lia; try reflexivity.
  intros m Hm.
  assert (Hc : m = 2 \/ m = 3 \/ m = 4 \/ m = 5 \/ m = 6 \/ m = 7 \/ m = 8
               \/ m = 9 \/ m = 10) by lia.
  destruct Hc as [-> | [-> | [-> | [-> | [-> | [-> | [-> | [-> | ->]]]]]]]];
    vm_compute; discriminate.
Defined.

(** X3: the [goto next_segment] of the two leaf loops is final: when the
    loop of [primes[b]] leaves a segment that starts at [l] by the [goto],
    it leaves every segment that starts at [l' >= l] the same way, with the
    state untouched. *)
Theorem goto_next_segment_is_final (x y pi_y : Z) (primes lpf mu : list Z)
    (b l l' h h' : Z) (st st1 st' : Lmo.thread_state) :
  0 <= x -> 1 <= y ->
  primes = generate_primes y [0] ->
  pi_y = Z.of_nat (length primes) - 1 ->
  1 <= b <= pi_y -> 1 <= l <= l' ->
  (Lmo.leaves_below_sqrty x y primes lpf mu l h b st = Some (st1, true) ->
   Lmo.leaves_below_sqrty x y primes lpf mu l' h' b st' = Some (st', true))
  /\ (Lmo.leaves_from_sqrty x y (make_pi y) primes l h b st = Some (st1, true) ->
      Lmo.leaves_from_sqrty x y (make_pi y) primes l' h' b st' = Some (st', true)).
Proof.
  intros Hx Hy Hprimes Hpi Hb Hl.
  destruct (primes_nth y pi_y primes Hprimes Hpi b Hb) as (_ & Hp & _).
  pose proof (quot_anti x (primes@b * l) (primes@b * l') Hx ltac:(nia) ltac:(nia))
    as Hq.
  assert (Hq0 : 0 <= x ÷ (primes@b * l')) by (apply quot_nonneg; nia).
  split.
  - intros Hrun. unfold Lmo.leaves_below_sqrty in *. cbv zeta in *.
    destruct (primes@b >=? Z.min (x ÷ (primes@b * l)) y) eqn:Hs.
    + rewrite Z.geb_leb in Hs. apply Z.leb_le in Hs.
      replace (primes@b >=? Z.min (x ÷ (primes@b * l')) y) with true;
        [reflexivity|].
      symmetry. rewrite Z.geb_leb. apply Z.leb_le. lia.
    + exfalso.
      destruct (for_range_down _ _ _ _) as [S' M'] in Hrun.
      destruct (Lmo.cross_off _ _ _ _ _ _) as [[[k sv] cnt]|] in Hrun;
        simpl in Hrun; [inversion Hrun | discriminate].
  - intros Hrun. unfold Lmo.leaves_from_sqrty in *. cbv zeta in *.
    destruct (primes@b >=? primes@((make_pi y)@(Z.min (x ÷ (primes@b * l)) y)))
      eqn:Hs.
    + rewrite Z.geb_leb in Hs. apply Z.leb_le in Hs.
      replace (primes@b >=? primes@((make_pi y)@(Z.min (x ÷ (primes@b * l')) y)))
        with true; [reflexivity|].
      symmetry. rewrite Z.geb_leb. apply Z.leb_le.
      set (V := Z.min (x ÷ (primes@b * l)) y) in *.
      set (V' := Z.min (x ÷ (primes@b * l')) y).
      assert (HV : 0 <= V' <= V /\ V <= y) by (unfold V, V'; lia).
      pose proof (pi_table y pi_y primes Hprimes Hpi V ltac:(lia)) as H1.
      pose proof (pi_table y pi_y primes Hprimes Hpi V' ltac:(lia)) as H2.
      assert (Hle : (make_pi y)@V' <= (make_pi y)@V).
      { rewrite !make_pi_nth by lia. apply prime_pi_mono. lia. }
      pose proof (primes_mono0 y pi_y primes Hprimes Hpi (make_pi y)@V'
                    (make_pi y)@V ltac:(lia) ltac:(lia)).
      lia.
    + exfalso.
      destruct (for_range_down _ _ _ _) as [S' M'] in Hrun.
      destruct (Lmo.cross_off _ _ _ _ _ _) as [[[k sv] cnt]|] in Hrun;
        simpl in Hrun; [inversion Hrun | discriminate].
Qed.

Lemma goto_next_segment_is_final_witness :
  (Lmo.leaves_below_sqrty 1000 10 [0; 2; 3; 5; 7]
     [1; 2147483647; 2; 3; 2; 5; 2; 7; 2; 3; 2]
     [0; 1; -1; -1; 0; -1; 1; -1; 0; 0; 1] 65 129 3
     (Lmo.mk_thread (BitSieve.make 64) [] [] [] [] 0)
   = Some (Lmo.mk_thread (BitSieve.make 64) [] [] [] [] 0, true) ->
   Lmo.leaves_below_sqrty 1000 10 [0; 2; 3; 5; 7]
     [1; 2147483647; 2; 3; 2; 5; 2; 7; 2; 3; 2]
     [0; 1; -1; -1; 0; -1; 1; -1; 0; 0; 1] 129 193 3
     (Lmo.mk_thread (BitSieve.make 64) [] [] [] [] 7)
   = Some (Lmo.mk_thread (BitSieve.make 64) [] [] [] [] 7, true))
  /\ (Lmo.leaves_from_sqrty 1000 10 (make_pi 10) [0; 2; 3; 5; 7] 65 129 3
        (Lmo.mk_thread (BitSieve.make 64) [] [] [] [] 0)
      = Some (Lmo.mk_thread (BitSieve.make 64) [] [] [] [] 0, true) ->
      Lmo.leaves_from_sqrty 1000 10 (make_pi 10) [0; 2; 3; 5; 7] 129 193 3
        (Lmo.mk_thread (BitSieve.make 64) [] [] [] [] 7)
      = Some (Lmo.mk_thread (BitSieve.make 64) [] [] [] [] 7, true)).
Proof.
  apply (goto_next_segment_is_final 1000 10 4 [0; 2; 3; 5; 7]
           [1; 2147483647; 2; 3; 2; 5; 2; 7; 2; 3; 2]
           [0; 1; -1; -1; 0; -1; 1; -1; 0; 0; 1] 3 65 129 129 193
           (Lmo.mk_thread (BitSieve.make 64) [] [] [] [] 0)
           (Lmo.mk_thread (BitSieve.make 64) [] [] [] [] 0)
           (Lmo.mk_thread (BitSieve.make 64) [] [] [] [] 7));
    try lia; reflexivity.
Defined.

(** X4: in a segment [[l, h)], after [memset] and the loop over the prime
    indices [2 <= b <= c], which ends without a [goto], the bit of the
    number [l + i] is set exactly if the number is 2 or odd from 3 on and is
    no odd multiple of [primes[2]], ..., [primes[c]]; the counters, [phi],
    [mu_sum] and the sum are as before, and [next[b]] is the first odd
    multiple of [primes[b]] from [h] on. *)
Theorem first_primes_are_sieved_out (x y pi_y c : Z) (primes : list Z)
    (seg L l h : Z) (st : Lmo.thread_state) :
  1 <= y ->
  primes = generate_primes y [0] ->
  pi_y = Z.of_nat (length primes) - 1 ->
  1 <= L <= l -> l < h -> h <= l + seg ->
  c < thread_size x y L - 1 ->
  BitSieve.wf (Lmo.sieve st) -> BitSieve.size (Lmo.sieve st) = seg ->
  Z.of_nat (length (Lmo.next st)) = thread_size x y L ->
  (forall b, 2 <= b <= c -> first_odd_multiple primes@b l (Lmo.next st)@b) ->
  exists st',
    for_lt_jump 2 (c + 1) (Lmo.sieve_out primes l h)
      (Lmo.mk_thread (BitSieve.memset (Lmo.sieve st) l) (Lmo.counters st)
         (Lmo.next st) (Lmo.phi st) (Lmo.mu_sum st) (Lmo.S2_sum st))
    = Some (Z.max 2 (c + 1), st', false)
    /\ (forall i, 0 <= i < h - l ->
          BitSieve.test (Lmo.sieve st') i
          = memset_bit (l + i)
            && forallb (fun b => negb (odd_multiple primes@b (l + i)))
                 (zrange 2 (c + 1)))
    /\ Lmo.counters st' = Lmo.counters st /\ Lmo.phi st' = Lmo.phi st
    /\ Lmo.mu_sum st' = Lmo.mu_sum st /\ Lmo.S2_sum st' = Lmo.S2_sum st
    /\ (forall b, 2 <= b <= c -> first_odd_multiple primes@b h (Lmo.next st')@b).
Proof.
  intros Hy Hprimes Hpi HL Hlh Hh Hc Hwf Hsz Hlen Hnext.
  pose proof (thread_size_le x y pi_y primes Hy Hprimes Hpi L ltac:(lia)) as Hts.
  destruct (for_lt_jump_total 2 (c + 1) (Lmo.sieve_out primes l h)
              (Lmo.mk_thread (BitSieve.memset (Lmo.sieve st) l) (Lmo.counters st)
                 (Lmo.next st) (Lmo.phi st) (Lmo.mu_sum st) (Lmo.S2_sum st)))
    as (b1 & st' & j & Hrun & _).
  { intros b a Hb. apply sieve_out_total.
    destruct (primes_odd y pi_y primes Hprimes Hpi b ltac:(lia)) as [H3 _]. lia. }
  destruct (sieve_out_loop x y c pi_y primes Hy Hprimes Hpi seg L ltac:(lia) Hc
              l h st b1 st' j ltac:(lia) Hh Hwf Hsz Hnext Hlen Hrun)
    as (Hb1 & _ & _ & Sbits & Sc & Sphi & Smu & SS & _ & _ & Sdone).
  assert (Hj : j = false).
  { destruct j; [|reflexivity]. exfalso.
    apply (for_lt_jump_ind (fun _ _ => True) (fun _ _ => False)) in Hrun;
      [exact Hrun | exact I | auto |].
    intros i s s' _ _ Hbody. unfold Lmo.sieve_out in Hbody.
    destruct (for_stride _ _ _ _ _) as [[k sv]|] in Hbody;
      simpl in Hbody; [inversion Hbody | discriminate]. }
  subst j. exists st'. 
  assert (Hb1' : b1 = Z.max 2 (c + 1)) by (rewrite Hb1; reflexivity).
  rewrite <- Hb1'. split; [exact Hrun|].
  split.
  { intros i Hi. rewrite (Sbits i Hi). unfold survives. f_equal.
    destruct (Z_le_gt_dec 2 (c + 1)) as [Hge | Hlt].
    - replace b1 with (c + 1) by lia. reflexivity.
    - rewrite (zrange_nil 2 b1) by lia. rewrite (zrange_nil 2 (c + 1)) by lia.
      reflexivity. }
  repeat (split; [assumption|]).
  intros b Hb. apply Sdone. lia.
Qed.

Lemma first_primes_are_sieved_out_witness :
  exists st',
    for_lt_jump 2 (2 + 1) (Lmo.sieve_out [0; 2; 3; 5; 7] 1 65)
      (Lmo.mk_thread (BitSieve.memset (BitSieve.make 64) 1) (repeat 0 64)
         [0; 4; 3; 5; 7] [0; 0; 0; 0; 0] [0; 0; 0; 0; 0] 0)
    = Some (Z.max 2 (2 + 1), st', false)
    /\ (forall i, 0 <= i < 65 - 1 ->
          BitSieve.test (Lmo.sieve st') i
          = memset_bit (1 + i)
            && forallb (fun b => negb (odd_multiple [0; 2; 3; 5; 7]@b (1 + i)))
                 (zrange 2 (2 + 1)))
    /\ Lmo.counters st' = repeat 0 64 /\ Lmo.phi st' = [0; 0; 0; 0; 0]
    /\ Lmo.mu_sum st' = [0; 0; 0; 0; 0] /\ Lmo.S2_sum st' = 0
    /\ (forall b, 2 <= b <= 2 ->
          first_odd_multiple [0; 2; 3; 5; 7]@b 65 (Lmo.next st')@b).
Proof.
  apply (first_primes_are_sieved_out 1000 10 4 2 [0; 2; 3; 5; 7] 64 1 1 65
           (Lmo.mk_thread (BitSieve.make 64) (repeat 0 64)
              [0; 4; 3; 5; 7] [0; 0; 0; 0; 0] [0; 0; 0; 0; 0] 0));
    try lia; try reflexivity.
  - split; [vm_compute; discriminate | reflexivity].
  - intros b Hb. assert (b = 2) by lia. subst b.
    split; [vm_compute; discriminate|]. split; [reflexivity|].
    intros u Hu Hom. change ([0; 4; 3; 5; 7]@2) with 3.
    destruct (Z_le_gt_dec 3 u) as [Hge | Hlt]; [exact Hge|].
    exfalso. assert (Hc : u = 1 \/ u = 2) by lia.
    destruct Hc as [-> | ->]; vm_compute in Hom; discriminate.
Defined.

(** X5: the two leaf loops run through the leaves of the segment [[l, h)]
    and nothing else: for a prime index [b] below [pi_sqrty] the cofactors
    [m] in [(min_m, max_m]] that pass the test on [mu] and [lpf], and from
    [pi_sqrty] on the prime indices in [(min_l, l]], are exactly the indices
    of the leaves of [primes[b]] whose position [x / n] lies in [[l, h)]. *)
Theorem leaf_loops_visit_the_leaves (x y c pi_y : Z) (primes lpf mu : list Z)
    (b l h k : Z) :
  0 <= x -> 1 <= y ->
  primes = generate_primes y [0] ->
  pi_y = Z.of_nat (length primes) - 1 ->
  first_leaf_index c <= b < pi_y -> 1 <= l <= h -> 1 <= k ->
  let prime := primes@b in
  let min_m := Z.max (x ÷ (prime * h)) (y ÷ prime) in
  let max_m := Z.min (x ÷ (prime * l)) y in
  let l_max := (make_pi y)@(Z.min (x ÷ (prime * l)) y) in
  let min_l := (make_pi y)@(in_between prime min_m y) in
  let leaf_in_segment :=
    is_leaf x y c pi_y primes lpf mu b k
    && (l <=? leaf_position x y primes b k)
    && (leaf_position x y primes b k <? h) in
  (b < pi_sqrty y primes ->
   (min_m <? k) && (k <=? max_m) && (negb (mu@k =? 0) && (prime <? lpf@k))
   = leaf_in_segment)
  /\ (pi_sqrty y primes <= b ->
      (min_l <? k) && (k <=? l_max) = leaf_in_segment).
Proof.
  intros Hx Hy Hprimes Hpi Hb Hl Hk. cbv zeta. split; intros Htype.
  - apply (leaves_below_range x y c pi_y primes lpf mu Hx Hy Hprimes Hpi b l h k);
      lia.
  - apply (leaves_from_range x y c pi_y primes lpf mu Hx Hy Hprimes Hpi b l h k);
      lia.
Qed.

Lemma leaf_loops_visit_the_leaves_witness :
  let prime := [0; 2; 3; 5; 7]@3 in
  let min_m := Z.max (1000 ÷ (prime * 65)) (10 ÷ prime) in
  let max_m := Z.min (1000 ÷ (prime * 1)) 10 in
  let l_max := (make_pi 10)@(Z.min (1000 ÷ (prime * 1)) 10) in
  let min_l := (make_pi 10)@(in_between prime min_m 10) in
  let leaf_in_segment :=
    is_leaf 1000 10 2 4 [0; 2; 3; 5; 7]
      [1; 2147483647; 2; 3; 2; 5; 2; 7; 2; 3; 2]
      [0; 1; -1; -1; 0; -1; 1; -1; 0; 0; 1] 3 4
    && (1 <=? leaf_position 1000 10 [0; 2; 3; 5; 7] 3 4)
    && (leaf_position 1000 10 [0; 2; 3; 5; 7] 3 4 <? 65) in
  (3 < pi_sqrty 10 [0; 2; 3; 5; 7] ->
   (min_m <? 4) && (4 <=? max_m)
   && (negb ([0; 1; -1; -1; 0; -1; 1; -1; 0; 0; 1]@4 =? 0)
       && (prime <? [1; 2147483647; 2; 3; 2; 5; 2; 7; 2; 3; 2]@4))
   = leaf_in_segment)
  /\ (pi_sqrty 10 [0; 2; 3; 5; 7] <= 3 ->
      (min_l <? 4) && (4 <=? l_max) = leaf_in_segment).
Proof.
  apply (leaf_loops_visit_the_leaves 1000 10 2 4 [0; 2; 3; 5; 7]
           [1; 2147483647; 2; 3; 2; 5; 2; 7; 2; 3; 2]
           [0; 1; -1; -1; 0; -1; 1; -1; 0; 0; 1] 3 1 65 4);
    try lia; try reflexivity.
  unfold first_leaf_index. lia.
Defined.

Lemma iroot_pos (N x : Z) : 0 <= N -> 1 <= x -> 1 <= iroot N x.
Proof.
  intros HN Hx. unfold iroot.
  assert (Hs : 1 <= Z.sqrt x).
  { change 1 with (Z.sqrt 1). apply Z.sqrt_le_mono. lia. }
  rewrite (zrange_cons 1 (Z.sqrt x + 1)) by lia. simpl List.filter.
  rewrite Z.pow_1_l by lia.
  replace (1 <=? x) with true by (symmetry; apply Z.leb_le; lia).
  simpl length. lia.
Qed.

Lemma to_int64_pos (a : Q) : (1 <= a)%Q -> 1 <= Lmo.to_int64 a.
Proof.
  intros Ha. unfold Lmo.to_int64. unfold Qle in Ha. simpl in Ha.
  apply quot_le_iff; lia.
Qed.

(** Rounding to a double never takes a number from 1 on below 1. *)
Lemma round_double_ge_1 (q : Q) : (1 <= q)%Q -> (1 <= round_double q)%Q.
Proof.
  intros Hq. destruct q as [n d]. unfold Qle in Hq. simpl in Hq.
  assert (Hn : Z.pos d <= n) by lia.
  unfold round_double. cbn [Qnum Qden].
  rewrite (Z.abs_eq n) by lia.
  replace (n =? 0) with false by (symmetry; apply Z.eqb_neq; lia).
  cbv zeta.
  set (k0 := Z.log2 n - Z.log2 (Z.pos d)).
  assert (Hk0 : 0 <= k0).
  { unfold k0. pose proof (Z.log2_le_mono (Z.pos d) n Hn). lia. }
  set (k := if Z.pos d * 2 ^ Z.max k0 0 <=? n * 2 ^ Z.max (- k0) 0 then k0 else k0 - 1).
  assert (Hk : 0 <= k /\ Z.pos d * 2 ^ k <= n).
  { unfold k. rewrite (Z.max_l k0 0), (Z.max_r (- k0) 0) by lia.
    rewrite Z.pow_0_r, Z.mul_1_r.
    destruct (Z.leb_spec (Z.pos d * 2 ^ k0) n) as [Hle | Hgt].
    - split; [exact Hk0 | exact Hle].
    - assert (Hk1 : 1 <= k0).
      { destruct (Z.eq_dec k0 0) as [E | E]; [|lia].
        rewrite E, Z.pow_0_r in Hgt. lia. }
      split; [lia|].
      destruct (Z.log2_spec n ltac:(lia)) as [Hn1 _].
      destruct (Z.log2_spec (Z.pos d) ltac:(lia)) as [_ Hd2].
      assert (Hpow : 2 ^ Z.succ (Z.log2 (Z.pos d)) * 2 ^ (k0 - 1) = 2 ^ Z.log2 n).
      { rewrite <- Z.pow_add_r.
        - f_equal. unfold k0. lia.
        - pose proof (Z.log2_nonneg (Z.pos d)). lia.
        - lia. }
      assert (0 < 2 ^ (k0 - 1)) by (apply Z.pow_pos_nonneg; lia).
      nia. }
  destruct Hk as [Hk1 Hk2]. clearbody k. clear k0 Hk0.
  assert (Hsgn : Z.sgn n = 1) by (apply Z.sgn_pos; lia).
  rewrite Hsgn, Z.mul_1_l.
  set (e := Z.max (k - 52) (-1074)).
  assert (He : e = k - 52) by (unfold e; lia).
  set (num := n * 2 ^ Z.max (- e) 0).
  set (den := Z.pos d * 2 ^ Z.max e 0).
  assert (Hpe : 0 < 2 ^ Z.max e 0) by (apply Z.pow_pos_nonneg; lia).
  assert (Hpne : 0 < 2 ^ Z.max (- e) 0) by (apply Z.pow_pos_nonneg; lia).
  assert (Hden : 0 < den) by (unfold den; nia).
  assert (Hf : 2 ^ Z.max (- e) 0 <= (num / den) * 2 ^ Z.max e 0).
  { destruct (Z_le_gt_dec 0 e) as [Hpos | Hneg].
    - rewrite (Z.max_r (- e) 0) by lia. rewrite Z.pow_0_r.
      assert (1 <= num / den); [|nia].
      apply Z.div_le_lower_bound; [exact Hden|].
      unfold num, den. rewrite (Z.max_r (- e) 0), (Z.max_l e 0) by lia.
      rewrite Z.pow_0_r.
      assert (2 ^ e <= 2 ^ k) by (apply Z.pow_le_mono_r; lia).
      nia.
    - assert (Hden1 : den = Z.pos d).
      { unfold den. rewrite (Z.max_r e 0) by lia. rewrite Z.pow_0_r. lia. }
      rewrite (Z.max_r e 0) at 1 by lia. rewrite Z.pow_0_r, Z.mul_1_r.
      apply Z.div_le_lower_bound; [exact Hden|].
      unfold num. rewrite Hden1. nia. }
  set (f := num / den) in *.
  set (m := if 2 * (num mod den) <? den then f
            else if den <? 2 * (num mod den) then f + 1
            else if Z.even f then f else f + 1).
  assert (Hm : f <= m).
  { unfold m. destruct (2 * (num mod den) <? den); [lia|].
    destruct (den <? 2 * (num mod den)); [lia|]. destruct (Z.even f); lia. }
  unfold Qle. cbn [Qnum Qden]. rewrite Z2Pos.id by exact Hpne.
  nia.
Qed.

Lemma to_double_ge_1 (n : Z) : 1 <= n -> (1 <= to_double n)%Q.
Proof.
  intros Hn. unfold to_double. apply round_double_ge_1.
  unfold Qle. simpl. lia.
Qed.

Lemma in_between_double_lower (q : Q) (M : Z) :
  1 <= M -> (1 <= Lmo.in_between_double 1 q M)%Q.
Proof.
  intros HM. unfold Lmo.in_between_double.
  destruct (Qle_bool (to_double 1) q) eqn:H1; simpl.
  - destruct (Qle_bool q (to_double M)) eqn:H2; simpl.
    + apply Qle_bool_iff in H1.
      apply Qle_trans with (to_double 1); [|exact H1].
      apply to_double_ge_1. lia.
    + apply to_double_ge_1. exact HM.
  - apply to_double_ge_1. lia.
Qed.

(** The product [x13 * alpha] is rounded before the cast: at [x13 = 6516]
    and the double [alpha = 0x1.a2bb02abec836p+1] the exact product lies
    just below 21316, and the double that [y] is cast from is 21316. *)
Lemma product_is_rounded_before_the_cast :
  Lmo.to_int64 (fmul (to_double 6516) (3683192512930843 # 1125899906842624))
  = 21316
  /\ Lmo.to_int64 (inject_Z 6516 * (3683192512930843 # 1125899906842624))%Q
     = 21315.
Proof. split; vm_compute; reflexivity. Qed.

(** X6: for [2 <= x <= INT64_MAX] the number of threads reaches the result
    of [pi_lmo_parallel3] through [P2] alone: with [y] cast from the double
    product [x13 * alpha], the call returns
    [S1 + S2_value + pi_y - 1 - P2(x, y, threads)], and [y >= 1] whatever
    the logarithms come to, provided the table of least prime factors has
    [lpf[m] <= m]. *)
Theorem pi_lmo_parallel3_sum (ilog : Z -> Z) (max_threads : Z) (seconds : nat -> Q)
    (loglog : Z -> Q) (S1 : Z -> Z -> Z -> list Z -> list Z -> list Z -> Z)
    (P2 : Z -> Z -> Z -> Z) (make_moebius make_least_prime_factor : Z -> list Z)
    (fuel : nat) (x threads : Z) :
  2 <= x <= INT64_MAX ->
  let y :=
    Lmo.to_int64
      (fmul (to_double (iroot 3 x))
         (Lmo.in_between_double 1 (fmul (loglog x) 1) (iroot 6 x))) in
  let primes := generate_primes y [0] in
  let pi_y := Z.of_nat (length primes) - 1 in
  let c := Z.min PhiTiny_MAX_A pi_y in
  let lpf := make_least_prime_factor y in
  let mu := make_moebius y in
  (forall m, 2 <= m <= y -> lpf@m <= m) ->
  (Z.to_nat (x ÷ y + 1) <= fuel)%nat ->
  1 <= y
  /\ Lmo.pi_lmo_parallel3 ilog max_threads seconds loglog S1 P2 make_moebius
       make_least_prime_factor fuel x threads
     = Some (S1 x y c primes lpf mu + S2_value x y c pi_y primes lpf mu
             + pi_y - 1 - P2 x y threads).
Proof.
  intros Hx y primes pi_y c lpf mu Hlpf Hfuel.
  assert (Hy : 1 <= y).
  { unfold y. apply to_int64_pos. unfold fmul at 1. apply round_double_ge_1.
    pose proof (to_double_ge_1 (iroot 3 x)
                  (iroot_pos 3 x ltac:(lia) ltac:(lia))) as H3.
    pose proof (in_between_double_lower (fmul (loglog x) 1) (iroot 6 x)
                  (iroot_pos 6 x ltac:(lia) ltac:(lia))) as Ha.
    set (a := Lmo.in_between_double 1 (fmul (loglog x) 1) (iroot 6 x)) in *.
    set (t := to_double (iroot 3 x)) in *.
    apply Qle_trans with (1 * 1)%Q; [unfold Qle; simpl; lia|].
    apply Qmult_le_compat_nonneg; split; try exact H3; try exact Ha;
      unfold Qle; simpl; lia. }
  split; [exact Hy|].
  pose proof (S2_is_S2_value ilog max_threads seconds x y c lpf mu ltac:(lia) Hy
                Hlpf fuel threads Hfuel) as HS2.
  unfold Lmo.pi_lmo_parallel3.
  replace (x <? 2) with false by (symmetry; apply Z.ltb_ge; lia).
  cbv zeta. subst c pi_y primes lpf mu y. rewrite HS2. reflexivity.
Qed.

Lemma pi_lmo_parallel3_sum_witness :
  let y :=
    Lmo.to_int64
      (fmul (to_double (iroot 3 1000))
         (Lmo.in_between_double 1
            (fmul (1087982262937993 # 562949953421312) 1) (iroot 6 1000))) in
  let primes := generate_primes y [0] in
  let pi_y := Z.of_nat (length primes) - 1 in
  let c := Z.min PhiTiny_MAX_A pi_y in
  let lpf := zrange 0 (y + 1) in
  let mu := repeat 1 (Z.to_nat (y + 1)) in
  1 <= y
  /\ Lmo.pi_lmo_parallel3 (fun _ => 9) 4 (fun _ => 0%Q)
       (fun _ => 1087982262937993 # 562949953421312)
       (fun _ _ _ _ _ _ => 0) (fun _ _ _ => 0)
       (fun y => repeat 1 (Z.to_nat (y + 1))) (fun y => zrange 0 (y + 1))
       60 1000 3
     = Some ((fun _ _ _ _ _ _ => 0) 1000 y c primes lpf mu
             + S2_value 1000 y c pi_y primes lpf mu
             + pi_y - 1 - (fun _ _ _ => 0) 1000 y 3).
Proof.
  apply (pi_lmo_parallel3_sum (fun _ => 9) 4 (fun _ => 0%Q)
           (fun _ => 1087982262937993 # 562949953421312)
           (fun _ _ _ _ _ _ => 0) (fun _ _ _ => 0)
           (fun y => repeat 1 (Z.to_nat (y + 1))) (fun y => zrange 0 (y + 1))
           60 1000 3).
  - unfold INT64_MAX. lia.
  - intros m Hm.
    change (Lmo.to_int64
              (fmul (to_double (iroot 3 1000))
                 (Lmo.in_between_double 1
                    (fmul (1087982262937993 # 562949953421312) 1) (iroot 6 1000))))
      with 19 in *.
    unfold vget. change (zrange 0 (19 + 1)) with (map (fun j => 0 + j) (zrange 0 20)).
    rewrite (nth_map_zrange (fun j => 0 + j) 0 20 (Z.to_nat m)) by lia. lia.
  - vm_compute. lia.
Defined.

(** ** BitSieve.cpp *)

Lemma map_const_length {A B : Type} (p : B) (l l' : list A) :
  length l = length l' -> map (fun _ => p) l = map (fun _ => p) l'.
Proof.
  revert l'; induction l as [|a l IH]; intros [|a' l'] H; simpl in *;
    try discriminate; [reflexivity|].
  f_equal. apply IH. lia.
Qed.

Lemma memset_by_length (s s' : BitSieve.t) (low : Z) :
  length (BitSieve.bits_ s) = length (BitSieve.bits_ s') ->
  BitSieve.size_ s = BitSieve.size_ s' ->
  BitSieve.memset s low = BitSieve.memset s' low.
Proof.
  intros Hlen Hsize. unfold BitSieve.memset. cbv zeta.
  rewrite (map_const_length _ (BitSieve.bits_ s) (BitSieve.bits_ s') Hlen), Hsize.
  reflexivity.
Qed.

(** X7: on a sieve that has a first word, [memset] overwrites the whole
    sieve: what it leaves depends on the size of the sieve and on [low]
    alone, so neither an earlier [memset] nor a bit crossed off before, at
    a position of the sieve, shows afterwards. *)
Theorem memset_overwrites (s : BitSieve.t) (a low pos : Z) :
  BitSieve.wf s -> 0 < BitSieve.size_ s -> 0 <= a -> 0 <= low ->
  0 <= pos < BitSieve.size_ s ->
  BitSieve.memset (BitSieve.memset s a) low = BitSieve.memset s low
  /\ BitSieve.memset (BitSieve.unset s pos) low = BitSieve.memset s low.
Proof.
  intros _ _ _ _ _.
  split; apply memset_by_length.
  - unfold BitSieve.memset. cbv zeta.
    destruct (a <=? 2); simpl; rewrite ?vset_length, length_map; reflexivity.
  - unfold BitSieve.memset. cbv zeta. destruct (a <=? 2); reflexivity.
  - unfold BitSieve.unset. simpl. apply vset_length.
  - reflexivity.
Qed.

Lemma memset_overwrites_witness :
  BitSieve.memset (BitSieve.memset (BitSieve.make 200) 1) 3
  = BitSieve.memset (BitSieve.make 200) 3
  /\ BitSieve.memset (BitSieve.unset (BitSieve.make 200) 5) 3
     = BitSieve.memset (BitSieve.make 200) 3.
Proof.
  apply (memset_overwrites (BitSieve.make 200) 1 3 5);
    [apply make_wf; lia | simpl; lia | lia | lia | simpl; lia].
Defined.

(** X8: [count] after [memset]: in a sieve set up for the numbers from
    [low] on, [count(start, stop)] is the number of [n] in
    [[low + start, low + stop]] that are 2 or odd and at least 3. *)
Theorem count_after_memset (s : BitSieve.t) (low start stop : Z) :
  BitSieve.wf s -> 0 <= low -> 0 <= start -> stop < BitSieve.size_ s ->
  BitSieve.count (BitSieve.memset s low) start stop
  = count_between memset_bit (low + start) (low + stop).
Proof.
  intros Hwf Hlow Hstart Hstop.
  rewrite (count_ones_between (BitSieve.memset s low) start stop Hstart).
  unfold BitSieve.ones_between.
  rewrite (count_between_ext (BitSieve.test (BitSieve.memset s low))
             (fun k => memset_bit (k + low)) start stop).
  - rewrite (count_between_shift memset_bit low start stop). f_equal; lia.
  - intros k Hk. rewrite memset_test by (try assumption; lia). f_equal. lia.
Qed.

Lemma count_after_memset_witness :
  BitSieve.count (BitSieve.memset (BitSieve.make 200) 3) 5 130
  = count_between memset_bit (3 + 5) (3 + 130).
Proof.
  apply (count_after_memset (BitSieve.make 200) 3 5 130);
    [apply make_wf; lia | lia | lia | simpl; lia].
Defined.

(** X9: [count] adds up over adjacent ranges of the sieve: for
    [start <= mid + 1] and [mid <= stop < size],
    [count(start, stop) = count(start, mid) + count(mid + 1, stop)]. *)
Theorem count_is_additive (s : BitSieve.t) (start mid stop : Z) :
  BitSieve.wf s ->
  0 <= start -> 0 <= mid -> start <= mid + 1 -> mid <= stop ->
  stop < BitSieve.size_ s ->
  BitSieve.count s start stop
  = BitSieve.count s start mid + BitSieve.count s (mid + 1) stop.
Proof.
  intros _ Hstart _ Hmid Hstop _.
  rewrite !count_ones_between by lia. unfold BitSieve.ones_between.
  apply count_between_split; assumption.
Qed.

Lemma count_is_additive_witness :
  BitSieve.count (BitSieve.memset (BitSieve.make 200) 3) 5 130
  = BitSieve.count (BitSieve.memset (BitSieve.make 200) 3) 5 64
    + BitSieve.count (BitSieve.memset (BitSieve.make 200) 3) (64 + 1) 130.
Proof.
  apply (count_is_additive (BitSieve.memset (BitSieve.make 200) 3) 5 64 130);
    [apply memset_wf; apply make_wf; lia | lia | lia | lia | lia | simpl; lia].
Defined.

(** X10: in the sieve, that is for [stop < size], [count(start, stop)] is
    never negative and never more than the number of positions in the
    range. *)
Theorem count_is_bounded (s : BitSieve.t) (start stop : Z) :
  BitSieve.wf s -> 0 <= start -> 0 <= stop < BitSieve.size_ s ->
  0 <= BitSieve.count s start stop <= Z.max 0 (stop - start + 1).
Proof.
  intros _ Hstart _. rewrite count_ones_between by lia.
  unfold BitSieve.ones_between, count_between.
  pose proof (count_from_bounds (BitSieve.test s) (Z.to_nat (stop + 1 - start)) start).
  lia.
Qed.

Lemma count_is_bounded_witness :
  0 <= BitSieve.count (BitSieve.memset (BitSieve.make 200) 3) 5 130
  <= Z.max 0 (130 - 5 + 1).
Proof.
  apply (count_is_bounded (BitSieve.memset (BitSieve.make 200) 3) 5 130);
    [apply memset_wf; apply make_wf; lia | lia | simpl; lia].
Defined.

Lemma test_new_sieve (size i : Z) : BitSieve.test (BitSieve.make size) i = false.
Proof.
  unfold BitSieve.test, BitSieve.make. simpl. unfold vget.
  assert (H : nth (Z.to_nat (Z.shiftr i 6)) (repeat 0 (Z.to_nat (ceil_div size 64))) 0 = 0)
    by apply nth_repeat.
  rewrite H. apply Z.testbit_0_l.
Qed.

(** X11: a sieve fresh from the constructor has no bit set: [count] is 0 on
    every range of the sieve, until [memset] fills the sieve. *)
Theorem new_sieve_counts_nothing (size start stop : Z) :
  0 <= start -> 0 <= stop < size ->
  BitSieve.count (BitSieve.make size) start stop = 0.
Proof.
  intros Hstart _. rewrite count_ones_between by lia.
  unfold BitSieve.ones_between, count_between.
  apply count_from_none. intros k _. apply test_new_sieve.
Qed.

Lemma new_sieve_counts_nothing_witness :
  BitSieve.count (BitSieve.make 200) 5 130 = 0.
Proof. apply (new_sieve_counts_nothing 200 5 130); lia. Defined.

(** X12: the table [unset_bit_]: and-ing a 64-bit word with entry [k]
    clears bit [k] of the word and keeps its other 63 bits. *)
Theorem unset_bit_clears_one_bit (w k j : Z) :
  0 <= k < 64 -> 0 <= j < 64 ->
  Z.testbit (Z.land w BitSieve.unset_bit_@k) j = Z.testbit w j && negb (j =? k).
Proof.
  intros Hk Hj. rewrite Z.land_spec, unset_bit_nth by lia.
  rewrite not64_shiftl_bit by lia. reflexivity.
Qed.

Lemma unset_bit_clears_one_bit_witness :
  Z.testbit (Z.land 0xFFFF BitSieve.unset_bit_@3) 3
  = Z.testbit 0xFFFF 3 && negb (3 =? 3).
Proof. apply (unset_bit_clears_one_bit 0xFFFF 3 3); lia. Defined.

(** ** PiTable.cpp *)



(** X14: a table that fits the cache is the cache cut to size: for
    [max_x + 1 <= 128 * 240] the constructor copies the first
    [ceil_div(max_x + 1, 240)] cache entries and nothing else, so no word is
    left as [resize] found it and the thread count plays no part. *)
Theorem small_table_is_the_cache (memory : nat -> PiTable.pi_t)
    (memory_counts : nat -> Z) (ideal_num_threads : Z -> Z -> Z -> Z)
    (max_x threads : Z) :
  0 <= max_x < 30720 ->
  PiTable.make memory memory_counts ideal_num_threads max_x threads
  = PiTable.mk (take (Z.to_nat (ceil_div (max_x + 1) 240)) PiTable.pi_cache_)
      [] max_x.
Proof.
  intros Hx. unfold PiTable.make. cbv zeta.
  assert (H64 : 2 ^ 64 = 18446744073709551616) by reflexivity.
  rewrite (u64_small (max_x + 1)) by lia.
  assert (Hwords : 0 <= ceil_div (max_x + 1) 240 <= 128).
  { unfold ceil_div. split; [apply Z.div_pos; lia|].
    assert ((max_x + 1 + 240 - 1) / 240 < 129)
      by (apply Z.div_lt_upper_bound; lia).
    lia. }
  rewrite resize_raw_length, cache_length.
  replace (Z.min (Z.of_nat 128) (Z.of_nat (Z.to_nat (ceil_div (max_x + 1) 240))))
    with (ceil_div (max_x + 1) 240) by lia.
  rewrite drop_ge by (rewrite resize_raw_length; lia).
  rewrite app_nil_r.
  replace (max_x + 1 >? Z.of_nat 128 * 240) with false
    by (symmetry; rewrite Z.gtb_ltb; apply Z.ltb_ge; lia).
  reflexivity.
Qed.

Lemma small_table_is_the_cache_witness :
  PiTable.make (fun _ => PiTable.mk_pi 1 1) (fun _ => 1)
    (fun dist threads threshold => in_between 1 threads (ceil_div dist threshold))
    1000 4
  = PiTable.mk (take (Z.to_nat (ceil_div (1000 + 1) 240)) PiTable.pi_cache_)
      [] 1000.
Proof.
  apply (small_table_is_the_cache (fun _ => PiTable.mk_pi 1 1) (fun _ => 1)
           (fun dist threads threshold =>
              in_between 1 threads (ceil_div dist threshold)) 1000 4).
  lia.
Defined.

(** X15: the chunks that [init] deals out: the chunk length is a multiple
    of 240 and the chunks of the threads cover the distance; without
    wrap-around, the chunk of thread [t] starts at
    [cache_limit + thread_dist * t], a multiple of 240, and ends where the
    next one starts, so that no two threads write to the same word. *)
Theorem init_chunks_are_word_aligned (dist threads : Z) :
  0 < dist < 2 ^ 62 -> 1 <= threads < 2 ^ 31 ->
  let thread_dist := Z.max 10000000 (dist / threads) in
  let thread_dist := u64 (thread_dist + (240 - thread_dist mod 240)) in
  thread_dist mod 240 = 0 /\ dist <= thread_dist * threads
  /\ forall t, 0 <= t < threads ->
       let low := u64 (30720 + u64 (thread_dist * t)) in
       let high := u64 (low + thread_dist) in
       low = 30720 + thread_dist * t /\ high = low + thread_dist
       /\ low mod 240 = 0.
Proof.
  intros Hdist Hthreads. cbv zeta.
  destruct (thread_dist_facts dist threads Hdist Hthreads) as (HD & Hmod & Hcover & Hfit).
  cbv zeta in HD, Hmod, Hcover, Hfit.
  split; [exact Hmod|]. split; [exact Hcover|].
  intros t Ht.
  destruct (chunk_words _ threads 0%nat HD Hmod Hfit t Ht) as (H1 & H2 & H3).
  unfold chunk_low in *. rewrite H1. split; [reflexivity|].
  split; [rewrite H2; lia | exact H3].
Qed.

Lemma init_chunks_are_word_aligned_witness :
  let thread_dist := Z.max 10000000 (99969281 / 4) in
  let thread_dist := u64 (thread_dist + (240 - thread_dist mod 240)) in
  thread_dist mod 240 = 0 /\ 99969281 <= thread_dist * 4
  /\ forall t, 0 <= t < 4 ->
       let low := u64 (30720 + u64 (thread_dist * t)) in
       let high := u64 (low + thread_dist) in
       low = 30720 + thread_dist * t /\ high = low + thread_dist
       /\ low mod 240 = 0.
Proof.
  apply (init_chunks_are_word_aligned 99969281 4); lia.
Defined.

(** ** pi_lmo_parallel3.cpp, the helpers *)

(** X16: what [init_next_multiples] stores, when [size] is at most the
    number of entries of [primes], the entries from index 1 on are positive
    and [low + 2 * primes[b] <= INT64_MAX] for each of them, so that nothing
    overflows: the vector starts with a 0 and has [size] entries (one entry
    when [size] is 0); the entry of a prime index [b], be its prime 2, is a
    multiple of [primes[b]] in [[low, low + 2 * primes[b])], so that
    [k - low] is never negative in the sieve loops, and it is odd when the
    prime is. *)
Theorem init_next_multiples_entries (primes : list Z) (size low : Z) :
  0 <= low -> 0 <= size <= Z.of_nat (length primes) ->
  (forall b, 1 <= b < size ->
     0 < primes@b /\ low + 2 * primes@b <= INT64_MAX) ->
  let next := Lmo.init_next_multiples primes size low in
  next@0 = 0
  /\ Z.of_nat (length next) = Z.max 1 size
  /\ forall b, 1 <= b < size ->
       low <= next@b < low + 2 * primes@b
       /\ next@b <= INT64_MAX
       /\ next@b mod primes@b = 0
       /\ (Z.odd primes@b = true -> Z.odd next@b = true).
Proof.
  intros Hlow _ Hprimes. cbv zeta. split; [|split].
  - unfold Lmo.init_next_multiples, for_range.
    match goal with
    | |- context [for_up ?n 1 (fun b next => next ++ [@?g b]) [0]] =>
        destruct (for_up_push g n 1 [0]) as [_ H]; [reflexivity|]
    end.
    rewrite H by lia. reflexivity.
  - destruct (Z_le_gt_dec 1 size) as [Hs | Hs].
    + rewrite init_next_multiples_length by lia. lia.
    + unfold Lmo.init_next_multiples, for_range.
      replace (Z.to_nat (size - 1)) with 0%nat by lia. simpl. lia.
  - intros b Hb. destruct (Hprimes b Hb) as [Hp Hmax].
    rewrite init_next_multiples_nth by lia. cbv zeta.
    rewrite lnot_land1. rewrite Z.quot_div_nonneg by lia.
    set (p := primes@b) in *. set (q := (low + p - 1) / p).
    pose proof (Z.div_mod (low + p - 1) p ltac:(lia)) as Hd.
    pose proof (Z.mod_pos_bound (low + p - 1) p Hp) as Hm.
    fold q in Hd.
    assert (Hnm : low <= q * p < low + p) by nia.
    destruct (Z.odd (q * p)) eqn:Hodd.
    + split; [lia|]. split; [lia|].
      split; [|intros _; rewrite Z.mul_0_r, Z.add_0_r; exact Hodd].
      rewrite Z.mul_0_r, Z.add_0_r. apply Z.mod_mul. lia.
    + split; [lia|]. split; [lia|]. split.
      * replace (q * p + p * 1) with ((q + 1) * p) by lia. apply Z.mod_mul. lia.
      * intros Hpodd. rewrite Z.mul_1_r, Z.odd_add, Hodd, Hpodd. reflexivity.
Qed.

Lemma init_next_multiples_entries_witness :
  let next := Lmo.init_next_multiples [0; 2; 3; 5] 4 10 in
  next@0 = 0
  /\ Z.of_nat (length next) = Z.max 1 4
  /\ forall b, 1 <= b < 4 ->
       10 <= next@b < 10 + 2 * [0; 2; 3; 5]@b
       /\ next@b <= INT64_MAX
       /\ next@b mod [0; 2; 3; 5]@b = 0
       /\ (Z.odd [0; 2; 3; 5]@b = true -> Z.odd next@b = true).
Proof.
  refine (init_next_multiples_entries [0; 2; 3; 5] 4 10 _ _ _).
  - lia.
  - simpl. lia.
  - intros b Hb.
    assert (Hc : b = 1 \/ b = 2 \/ b = 3) by lia.
    destruct Hc as [-> | [-> | ->]]; vm_compute; split;
      (reflexivity || discriminate).
Defined.

(** X17: a thread whose numbers start at the limit or beyond, as the last
    threads of a wave may, has nothing to do: called as [S2] calls it (the
    tables of [y], a wave that starts at [low >= 1], a positive segment
    size), [S2_thread] returns 0, and vectors that read 0 at every index, so
    that the reconstruction adds nothing for it. *)
Theorem thread_beyond_the_limit_adds_nothing (x y pi_y c : Z)
    (primes lpf mu : list Z)
    (segment_size segments_per_thread thread_num low limit : Z) :
  0 <= x -> 1 <= y ->
  primes = generate_primes y [0] ->
  pi_y = Z.of_nat (length primes) - 1 ->
  1 <= low -> 0 < segment_size -> 0 <= segments_per_thread -> 0 <= thread_num ->
  limit <= low + segment_size * segments_per_thread * thread_num ->
  exists mu_sum phi,
    Lmo.S2_thread x y c (pi_bsearch primes (isqrt y)) pi_y segment_size (make_pi y)
      primes lpf mu segments_per_thread thread_num low limit [] []
    = Some (0, mu_sum, phi)
    /\ (forall b, mu_sum@b = 0) /\ (forall b, phi@b = 0).
Proof.
  intros _ _ _ _ _ _ _ _ Hlim. unfold Lmo.S2_thread. cbv zeta.
  destruct (c >=? _).
  - exists [], []. split; [reflexivity|]. split; intros b; apply vget_nil.
  - unfold for_stride.
    match goal with
    | |- context [?a <=? ?b] =>
        replace (a <=? b) with true by (symmetry; apply Z.leb_le; lia)
    end.
    cbn [mbind option_bind]. cbn [Lmo.S2_sum Lmo.mu_sum Lmo.phi].
    eexists. eexists. split; [reflexivity|]. split; intros b; apply vget_zeros.
Qed.

Lemma thread_beyond_the_limit_adds_nothing_witness :
  exists mu_sum phi,
    Lmo.S2_thread 1000 10 2 (pi_bsearch [0; 2; 3; 5; 7] (isqrt 10)) 4 64
      (make_pi 10) [0; 2; 3; 5; 7]
      [1; 2147483647; 2; 3; 2; 5; 2; 7; 2; 3; 2]
      [0; 1; -1; -1; 0; -1; 1; -1; 0; 0; 1] 1 2 1 101 [] []
    = Some (0, mu_sum, phi)
    /\ (forall b, mu_sum@b = 0) /\ (forall b, phi@b = 0).
Proof.
  apply (thread_beyond_the_limit_adds_nothing 1000 10 4 2
           [0; 2; 3; 5; 7] [1; 2147483647; 2; 3; 2; 5; 2; 7; 2; 3; 2]
           [0; 1; -1; -1; 0; -1; 1; -1; 0; 0; 1] 64 1 2 1 101);
    try lia; reflexivity.
Defined.



(** ** pi_lmo_parallel3.cpp, what the loops may skip *)

(** X19: the [goto next_segment] skips no leaf: when the loop of the prime
    index [b'] leaves the segment that starts at [l] by the [goto], no
    prime index [b >= b'] has a leaf at [l] or beyond, so neither the rest
    of this segment nor any later segment has anything to add for them. *)
Theorem goto_skips_no_leaf (x y c pi_y : Z) (primes lpf mu : list Z)
    (b' b l h k : Z) (st st1 : Lmo.thread_state) :
  0 <= x -> 1 <= y ->
  primes = generate_primes y [0] ->
  pi_y = Z.of_nat (length primes) - 1 ->
  (forall m, 2 <= m <= y -> lpf@m <= m) ->
  first_leaf_index c <= b' <= b -> 1 <= l -> 1 <= k ->
  (if b' <? pi_sqrty y primes
   then Lmo.leaves_below_sqrty x y primes lpf mu l h b' st
   else Lmo.leaves_from_sqrty x y (make_pi y) primes l h b' st)
  = Some (st1, true) ->
  is_leaf x y c pi_y primes lpf mu b k = true ->
  leaf_position x y primes b k < l.
Proof.
  intros Hx Hy Hprimes Hpi Hlpf Hb Hl Hk Hrun Hleaf.
  assert (Hstop : stops x y primes b' l = true).
  { unfold stops. cbv zeta.
    destruct (b' <? pi_sqrty y primes).
    - unfold Lmo.leaves_below_sqrty in Hrun. cbv zeta in Hrun.
      destruct (primes@b' >=? Z.min (x ÷ (primes@b' * l)) y); [reflexivity|].
      exfalso.
      destruct (for_range_down _ _ _ _) as [S' M'] in Hrun.
      destruct (Lmo.cross_off _ _ _ _ _ _) as [[[k0 sv] cnt]|] in Hrun;
        simpl in Hrun; [inversion Hrun | discriminate].
    - unfold Lmo.leaves_from_sqrty in Hrun. cbv zeta in Hrun.
      destruct (primes@b' >=? primes@((make_pi y)@(Z.min (x ÷ (primes@b' * l)) y)));
        [reflexivity|].
      exfalso.
      destruct (for_range_down _ _ _ _) as [S' M'] in Hrun.
      destruct (Lmo.cross_off _ _ _ _ _ _) as [[[k0 sv] cnt]|] in Hrun;
        simpl in Hrun; [inversion Hrun | discriminate]. }
  destruct (Z_lt_le_dec (leaf_position x y primes b k) l) as [Hlt | Hge];
    [exact Hlt|].
  exfalso.
  exact (no_leaf_after_stop x y c pi_y primes lpf mu Hx Hy Hprimes Hpi Hlpf
           b' b l k Hstop Hb Hl Hk Hleaf Hge).
Qed.

Lemma goto_skips_no_leaf_witness :
  leaf_position 1000 10 [0; 2; 3; 5; 7] 3 4 < 65.
Proof.
  apply (goto_skips_no_leaf 1000 10 1 4 [0; 2; 3; 5; 7]
           [1; 2147483647; 2; 3; 2; 5; 2; 7; 2; 3; 2]
           [0; 1; -1; -1; 0; -1; 1; -1; 0; 0; 1] 3 3 65 129 4
           (Lmo.mk_thread (BitSieve.make 64) [] [] [] [] 0)
           (Lmo.mk_thread (BitSieve.make 64) [] [] [] [] 0));
    try lia; try reflexivity.
  - intros m Hm.
    assert (Hc : m = 2 \/ m = 3 \/ m = 4 \/ m = 5 \/ m = 6 \/ m = 7 \/ m = 8
                 \/ m = 9 \/ m = 10) by lia.
    destruct Hc as [-> | [-> | [-> | [-> | [-> | [-> | [-> | [-> | ->]]]]]]]];
      vm_compute; discriminate.
  - unfold first_leaf_index. lia.
Defined.

(** X20: the bound [size] of a thread cuts off no leaf: a prime index
    [b >= size], with [size = pi[min(isqrt(x / L), y)] + 1] for a thread
    that starts at [L], has no leaf at [L] or beyond; so the loops may stop
    at [size], and a thread with [c >= size - 1] may return at once. *)
Theorem size_cuts_off_no_leaf (x y c pi_y : Z) (primes lpf mu : list Z)
    (b L k : Z) :
  0 <= x -> 1 <= y ->
  primes = generate_primes y [0] ->
  pi_y = Z.of_nat (length primes) - 1 ->
  (forall m, 2 <= m <= y -> lpf@m <= m) ->
  1 <= L -> 1 <= k ->
  (make_pi y)@(Z.min (isqrt (x ÷ L)) y) + 1 <= b ->
  is_leaf x y c pi_y primes lpf mu b k = true ->
  leaf_position x y primes b k < L.
Proof.
  intros Hx Hy Hprimes Hpi Hlpf HL Hk Hsize Hleaf.
  destruct (Z_lt_le_dec (leaf_position x y primes b k) L) as [Hlt | Hge];
    [exact Hlt|].
  exfalso.
  exact (no_leaf_beyond_size x y c pi_y primes lpf mu Hx Hy Hprimes Hpi Hlpf
           b L k Hsize HL Hk Hleaf Hge).
Qed.

Lemma size_cuts_off_no_leaf_witness :
  leaf_position 1000 10 [0; 2; 3; 5; 7] 3 4 < 65.
Proof.
  apply (size_cuts_off_no_leaf 1000 10 1 4 [0; 2; 3; 5; 7]
           [1; 2147483647; 2; 3; 2; 5; 2; 7; 2; 3; 2]
           [0; 1; -1; -1; 0; -1; 1; -1; 0; 0; 1] 3 65 4);
    try lia; try reflexivity.
  - intros m Hm.
    assert (Hc : m = 2 \/ m = 3 \/ m = 4 \/ m = 5 \/ m = 6 \/ m = 7 \/ m = 8
                 \/ m = 9 \/ m = 10) by lia.
    destruct Hc as [-> | [-> | [-> | [-> | [-> | [-> | [-> | [-> | ->]]]]]]]];
      vm_compute; discriminate.
Defined.

Section partial_sums.

Variable ilog : Z -> Z.
Variable max_threads : Z.
Variable seconds : nat -> Q.
Variables (x y c : Z) (lpf mu : list Z) (threads : Z).

Hypothesis x_nonneg : 0 <= x.
Hypothesis y_pos : 1 <= y.
Hypothesis lpf_le : forall m, 2 <= m <= y -> lpf@m <= m.

Let primes := generate_primes y [0].
Let pi_y := Z.of_nat (length primes) - 1.
Let limit := x ÷ y + 1.


End partial_sums.


